(** * LAMC front end: lexer, syntax tree and recursive-descent parser

    A shallow embedding of [compiler/lexer/token.h], [compiler/lexer/token.c],
    [compiler/lexer/lexer.c], [compiler/parser/ast.h], [compiler/parser/ast.c],
    [compiler/parser/parser.c] and the loop of [compiler/test_lexer.c],
    followed by the properties of the lexer and of the parser.

    Conventions of the embedding:
    - a [const char*]/[size_t] pair is a [string]; a nullable [char*] is an
      [option string]; a nullable [AstNode*] is an [option AstNode]; a
      nullable [AstList*] is an [option (list _)];
    - [malloc]/[calloc]/[realloc] never fail (allocation exhaustion is outside
      the parser's error taxonomy);
    - [int] line and column numbers are [Z];
    - a C loop whose number of iterations is not bounded by the syntax of the
      function becomes a recursive function on a [fuel : nat]; running out of
      fuel is [None] and stands for "has not returned yet". *)

From Stdlib Require Import ZArith List String Ascii Bool Lia Arith.
Import ListNotations.

Local Open Scope string_scope.
Local Open Scope Z_scope.

(* ================================================================= *)
(** ** Tokens ([token.h], [token.c]) *)

Inductive TokenType : Type :=
  (* Literals *)
  | TOKEN_INT | TOKEN_FLOAT | TOKEN_STRING | TOKEN_CHAR | TOKEN_TRUE | TOKEN_FALSE
  (* Identifiers and keywords *)
  | TOKEN_IDENTIFIER | TOKEN_FUNC | TOKEN_RETURN | TOKEN_IF | TOKEN_ELSE
  | TOKEN_WHILE | TOKEN_FOR | TOKEN_IN | TOKEN_LOOP | TOKEN_BREAK
  | TOKEN_CONTINUE | TOKEN_IMPORT | TOKEN_EXPORT | TOKEN_CLASS | TOKEN_THIS
  | TOKEN_TRY | TOKEN_CATCH | TOKEN_FINALLY
  (* Operators *)
  | TOKEN_PLUS | TOKEN_MINUS | TOKEN_STAR | TOKEN_SLASH | TOKEN_PERCENT
  | TOKEN_EQUAL | TOKEN_EQUAL_EQUAL | TOKEN_NOT_EQUAL | TOKEN_LESS
  | TOKEN_GREATER | TOKEN_LESS_EQUAL | TOKEN_GREATER_EQUAL | TOKEN_AND
  | TOKEN_OR | TOKEN_NOT | TOKEN_AMPERSAND | TOKEN_PIPE | TOKEN_CARET
  | TOKEN_TILDE | TOKEN_DOT_DOT | TOKEN_DOT_DOT_EQUAL
  (* Delimiters *)
  | TOKEN_LEFT_PAREN | TOKEN_RIGHT_PAREN | TOKEN_LEFT_BRACE | TOKEN_RIGHT_BRACE
  | TOKEN_LEFT_BRACKET | TOKEN_RIGHT_BRACKET | TOKEN_COMMA | TOKEN_COLON
  | TOKEN_DOT | TOKEN_ARROW
  (* Special *)
  | TOKEN_NEWLINE | TOKEN_EOF | TOKEN_ERROR.

Definition TokenType_eq_dec (a b : TokenType) : {a = b} + {a <> b}.
Proof. decide equality. Defined.

(** [a ==t b] is the C comparison [a == b] on token types. *)
Definition token_type_eqb (a b : TokenType) : bool :=
  if TokenType_eq_dec a b then true else false.

Infix "==t" := token_type_eqb (at level 70, no associativity).

(** [start]/[length] of the C struct are kept together as the lexeme text
    (for an error token: the message). *)
Record Token : Type := make_token {
  type : TokenType;
  start : string;
  line : Z;
  column : Z
}.

Definition error_token (message : string) (line column : Z) : Token :=
  make_token TOKEN_ERROR message line column.

(** [token_type_to_string]; its [default: return "UNKNOWN"] is for values
    outside the enumeration. *)
Definition token_type_to_string (t : TokenType) : string :=
  match t with
  | TOKEN_INT => "INT" | TOKEN_FLOAT => "FLOAT" | TOKEN_STRING => "STRING"
  | TOKEN_CHAR => "CHAR" | TOKEN_TRUE => "TRUE" | TOKEN_FALSE => "FALSE"
  | TOKEN_IDENTIFIER => "IDENTIFIER" | TOKEN_FUNC => "FUNC"
  | TOKEN_RETURN => "RETURN" | TOKEN_IF => "IF" | TOKEN_ELSE => "ELSE"
  | TOKEN_WHILE => "WHILE" | TOKEN_FOR => "FOR" | TOKEN_IN => "IN"
  | TOKEN_LOOP => "LOOP" | TOKEN_BREAK => "BREAK" | TOKEN_CONTINUE => "CONTINUE"
  | TOKEN_IMPORT => "IMPORT" | TOKEN_EXPORT => "EXPORT" | TOKEN_CLASS => "CLASS"
  | TOKEN_THIS => "THIS" | TOKEN_TRY => "TRY" | TOKEN_CATCH => "CATCH"
  | TOKEN_FINALLY => "FINALLY" | TOKEN_PLUS => "PLUS" | TOKEN_MINUS => "MINUS"
  | TOKEN_STAR => "STAR" | TOKEN_SLASH => "SLASH" | TOKEN_PERCENT => "PERCENT"
  | TOKEN_EQUAL => "EQUAL" | TOKEN_EQUAL_EQUAL => "EQUAL_EQUAL"
  | TOKEN_NOT_EQUAL => "NOT_EQUAL" | TOKEN_LESS => "LESS"
  | TOKEN_GREATER => "GREATER" | TOKEN_LESS_EQUAL => "LESS_EQUAL"
  | TOKEN_GREATER_EQUAL => "GREATER_EQUAL" | TOKEN_AND => "AND"
  | TOKEN_OR => "OR" | TOKEN_NOT => "NOT" | TOKEN_AMPERSAND => "AMPERSAND"
  | TOKEN_PIPE => "PIPE" | TOKEN_CARET => "CARET" | TOKEN_TILDE => "TILDE"
  | TOKEN_DOT_DOT => "DOT_DOT" | TOKEN_DOT_DOT_EQUAL => "DOT_DOT_EQUAL"
  | TOKEN_LEFT_PAREN => "LEFT_PAREN" | TOKEN_RIGHT_PAREN => "RIGHT_PAREN"
  | TOKEN_LEFT_BRACE => "LEFT_BRACE" | TOKEN_RIGHT_BRACE => "RIGHT_BRACE"
  | TOKEN_LEFT_BRACKET => "LEFT_BRACKET" | TOKEN_RIGHT_BRACKET => "RIGHT_BRACKET"
  | TOKEN_COMMA => "COMMA" | TOKEN_COLON => "COLON" | TOKEN_DOT => "DOT"
  | TOKEN_ARROW => "ARROW" | TOKEN_NEWLINE => "NEWLINE" | TOKEN_EOF => "EOF"
  | TOKEN_ERROR => "ERROR"
  end.

(* ================================================================= *)
(** ** Lexer ([lexer.h], [lexer.c]) *)

(** The lexer walks a NUL-terminated buffer.  [lex_start] is the text between
    the C pointers [start] and [current] (the lexeme scanned so far) and
    [lex_current] is the text from [current] up to the terminating NUL. *)
Record Lexer : Type := mkLexer {
  lex_start : string;
  lex_current : string;
  lex_line : Z;
  lex_column : Z
}.

Definition NUL : ascii := Ascii.zero.

Definition lexer_init (source : string) : Lexer :=
  mkLexer "" source 1 1.

Definition is_at_end (lexer : Lexer) : bool :=
  match lex_current lexer with EmptyString => true | _ => false end.

Definition peek (lexer : Lexer) : ascii :=
  match lex_current lexer with EmptyString => NUL | String c _ => c end.

Definition peek_next (lexer : Lexer) : ascii :=
  match lex_current lexer with
  | String _ (String c _) => c
  | _ => NUL
  end.

(** [advance] returns the character under the cursor and steps over it.  The
    source is only ever asked to step over the terminating NUL by [string]
    after a trailing backslash, where it leaves the buffer; the model stays
    on the terminator there. *)
Definition advance (lexer : Lexer) : ascii * Lexer :=
  match lex_current lexer with
  | EmptyString =>
      (NUL, mkLexer (lex_start lexer) "" (lex_line lexer) (lex_column lexer + 1))
  | String c rest =>
      (c, mkLexer (lex_start lexer ++ String c "") rest
                  (lex_line lexer) (lex_column lexer + 1))
  end.

Definition advance_ (lexer : Lexer) : Lexer := snd (advance lexer).

(** [match] of the source ([match] is reserved in Rocq). *)
Definition match_char (lexer : Lexer) (expected : ascii) : bool * Lexer :=
  match lex_current lexer with
  | EmptyString => (false, lexer)
  | String c rest =>
      if Ascii.eqb c expected
      then (true, mkLexer (lex_start lexer ++ String c "") rest
                          (lex_line lexer) (lex_column lexer + 1))
      else (false, lexer)
  end.

Definition set_line_column (lexer : Lexer) (l c : Z) : Lexer :=
  mkLexer (lex_start lexer) (lex_current lexer) l c.

Definition newline : ascii := "010"%char.

(** The body of a line comment: [while (peek != '\n' && !is_at_end) advance]. *)
Fixpoint skip_line_comment (fuel : nat) (lexer : Lexer) : Lexer :=
  match fuel with
  | O => lexer
  | S n =>
      if negb (Ascii.eqb (peek lexer) newline) && negb (is_at_end lexer)
      then skip_line_comment n (advance_ lexer)
      else lexer
  end.

(** The body of a block comment, after its opening has been consumed. *)
Fixpoint skip_block_comment (fuel : nat) (lexer : Lexer) : Lexer :=
  match fuel with
  | O => lexer
  | S n =>
      if is_at_end lexer then lexer
      else if Ascii.eqb (peek lexer) "*"%char && Ascii.eqb (peek_next lexer) "/"%char
      then advance_ (advance_ lexer)
      else
        let lexer :=
          if Ascii.eqb (peek lexer) newline
          then set_line_column lexer (lex_line lexer + 1) 0
          else lexer in
        skip_block_comment n (advance_ lexer)
  end.

Definition unread (lexer : Lexer) : nat := String.length (lex_current lexer).

Fixpoint skip_whitespace_loop (fuel : nat) (lexer : Lexer) : Lexer :=
  match fuel with
  | O => lexer
  | S n =>
      let c := peek lexer in
      if Ascii.eqb c " "%char || Ascii.eqb c "013"%char || Ascii.eqb c "009"%char
      then skip_whitespace_loop n (advance_ lexer)
      else if Ascii.eqb c newline
      then skip_whitespace_loop n
             (advance_ (set_line_column lexer (lex_line lexer + 1) 0))
      else if Ascii.eqb c "/"%char
      then
        if Ascii.eqb (peek_next lexer) "/"%char
        then skip_whitespace_loop n (skip_line_comment (unread lexer) lexer)
        else if Ascii.eqb (peek_next lexer) "*"%char
        then skip_whitespace_loop n
               (skip_block_comment (unread lexer) (advance_ (advance_ lexer)))
        else lexer
      else lexer
  end.

(** Every iteration of the three loops above that does not leave the loop
    steps over at least one character, so the number of unread characters is
    enough fuel (with none left unread, each loop exits as the source
    does). *)
Definition skip_whitespace (lexer : Lexer) : Lexer :=
  skip_whitespace_loop (S (unread lexer)) lexer.

Definition make_current_token (lexer : Lexer) (t : TokenType) : Token :=
  make_token t (lex_start lexer) (lex_line lexer) (lex_column lexer).

(** [check_keyword]: the lexeme has length [start + length] and its tail from
    offset [start] is [rest]. *)
Definition check_keyword (lexer : Lexer) (start length : nat) (rest : string)
    (t : TokenType) : TokenType :=
  if Nat.eqb (String.length (lex_start lexer)) (start + length)
     && String.eqb (substring start length (lex_start lexer)) rest
  then t else TOKEN_IDENTIFIER.

Definition char_at (n : nat) (s : string) : ascii :=
  match String.get n s with Some c => c | None => NUL end.

Definition identifier_type (lexer : Lexer) : TokenType :=
  let s := lex_start lexer in
  let len := String.length s in
  let c0 := char_at 0 s in
  let c1 := char_at 1 s in
  let c2 := char_at 2 s in
  if Ascii.eqb c0 "b" then check_keyword lexer 1 4 "reak" TOKEN_BREAK
  else if Ascii.eqb c0 "c" then
    if Nat.ltb 1 len then
      if Ascii.eqb c1 "a" then check_keyword lexer 2 3 "tch" TOKEN_CATCH
      else if Ascii.eqb c1 "l" then check_keyword lexer 2 3 "ass" TOKEN_CLASS
      else if Ascii.eqb c1 "o" then check_keyword lexer 2 6 "ntinue" TOKEN_CONTINUE
      else TOKEN_IDENTIFIER
    else TOKEN_IDENTIFIER
  else if Ascii.eqb c0 "e" then
    if Nat.ltb 1 len then
      if Ascii.eqb c1 "l" then check_keyword lexer 2 2 "se" TOKEN_ELSE
      else if Ascii.eqb c1 "x" then check_keyword lexer 2 4 "port" TOKEN_EXPORT
      else TOKEN_IDENTIFIER
    else TOKEN_IDENTIFIER
  else if Ascii.eqb c0 "f" then
    if Nat.ltb 1 len then
      if Ascii.eqb c1 "a" then check_keyword lexer 2 3 "lse" TOKEN_FALSE
      else if Ascii.eqb c1 "i" then check_keyword lexer 2 5 "nally" TOKEN_FINALLY
      else if Ascii.eqb c1 "o" then check_keyword lexer 2 1 "r" TOKEN_FOR
      else if Ascii.eqb c1 "u" then check_keyword lexer 2 2 "nc" TOKEN_FUNC
      else TOKEN_IDENTIFIER
    else TOKEN_IDENTIFIER
  else if Ascii.eqb c0 "i" then
    if Nat.ltb 1 len then
      if Ascii.eqb c1 "f" then check_keyword lexer 2 0 "" TOKEN_IF
      else if Ascii.eqb c1 "m" then check_keyword lexer 2 4 "port" TOKEN_IMPORT
      else if Ascii.eqb c1 "n" then check_keyword lexer 2 0 "" TOKEN_IN
      else TOKEN_IDENTIFIER
    else TOKEN_IDENTIFIER
  else if Ascii.eqb c0 "l" then check_keyword lexer 1 3 "oop" TOKEN_LOOP
  else if Ascii.eqb c0 "r" then check_keyword lexer 1 5 "eturn" TOKEN_RETURN
  else if Ascii.eqb c0 "t" then
    if Nat.ltb 1 len then
      if Ascii.eqb c1 "h" then check_keyword lexer 2 2 "is" TOKEN_THIS
      else if Ascii.eqb c1 "r" then
        if Nat.ltb 2 len then
          if Ascii.eqb c2 "u" then check_keyword lexer 3 1 "e" TOKEN_TRUE
          else if Ascii.eqb c2 "y" then check_keyword lexer 3 0 "" TOKEN_TRY
          else TOKEN_IDENTIFIER
        else TOKEN_IDENTIFIER
      else TOKEN_IDENTIFIER
    else TOKEN_IDENTIFIER
  else if Ascii.eqb c0 "w" then check_keyword lexer 1 4 "hile" TOKEN_WHILE
  else TOKEN_IDENTIFIER.

(** The character classes of <ctype.h> in the C locale. *)
Definition isdigit (c : ascii) : bool :=
  let n := nat_of_ascii c in Nat.leb 48 n && Nat.leb n 57.

Definition isalpha (c : ascii) : bool :=
  let n := nat_of_ascii c in
  (Nat.leb 65 n && Nat.leb n 90) || (Nat.leb 97 n && Nat.leb n 122).

Definition isalnum (c : ascii) : bool := isalpha c || isdigit c.

Definition isspace (c : ascii) : bool :=
  let n := nat_of_ascii c in Nat.eqb n 32 || (Nat.leb 9 n && Nat.leb n 13).

(** [while (pred(peek)) advance] *)
Fixpoint advance_while (pred : ascii -> bool) (fuel : nat) (lexer : Lexer) : Lexer :=
  match fuel with
  | O => lexer
  | S n => if pred (peek lexer) then advance_while pred n (advance_ lexer) else lexer
  end.

Definition identifier (lexer : Lexer) : Token * Lexer :=
  let lexer :=
    advance_while (fun c => isalnum c || Ascii.eqb c "_") (unread lexer) lexer in
  (make_current_token lexer (identifier_type lexer), lexer).

Definition number (lexer : Lexer) : Token * Lexer :=
  let lexer := advance_while isdigit (unread lexer) lexer in
  if Ascii.eqb (peek lexer) "." && isdigit (peek_next lexer)
  then
    let lexer := advance_ lexer in
    let lexer := advance_while isdigit (unread lexer) lexer in
    (make_current_token lexer TOKEN_FLOAT, lexer)
  else (make_current_token lexer TOKEN_INT, lexer).

(** [string] of the source (the name is taken by the type of strings). *)
Fixpoint scan_string_loop (quote : ascii) (fuel : nat) (lexer : Lexer) : Lexer :=
  match fuel with
  | O => lexer
  | S n =>
      if negb (Ascii.eqb (peek lexer) quote) && negb (is_at_end lexer)
      then
        let lexer :=
          if Ascii.eqb (peek lexer) newline
          then set_line_column lexer (lex_line lexer + 1) 0
          else lexer in
        let lexer :=
          if Ascii.eqb (peek lexer) "\"%char then advance_ lexer else lexer in
        scan_string_loop quote n (advance_ lexer)
      else lexer
  end.

Definition scan_string (lexer : Lexer) (quote : ascii) : Token * Lexer :=
  let lexer := scan_string_loop quote (unread lexer) lexer in
  if is_at_end lexer
  then (error_token "Unterminated string" (lex_line lexer) (lex_column lexer), lexer)
  else
    let lexer := advance_ lexer in
    (make_current_token lexer TOKEN_STRING, lexer).

Definition one (lexer : Lexer) (t : TokenType) : Token * Lexer :=
  (make_current_token lexer t, lexer).

(** [make_current_token(lexer, match(lexer, c) ? yes : no)] *)
Definition two (lexer : Lexer) (c : ascii) (yes no : TokenType) : Token * Lexer :=
  let '(m, lexer) := match_char lexer c in
  (make_current_token lexer (if m then yes else no), lexer).

Definition lexer_next_token (lexer : Lexer) : Token * Lexer :=
  let lexer := skip_whitespace lexer in
  let lexer := mkLexer "" (lex_current lexer) (lex_line lexer) (lex_column lexer) in
  if is_at_end lexer then (make_current_token lexer TOKEN_EOF, lexer)
  else
    let '(c, lexer) := advance lexer in
    if isalpha c || Ascii.eqb c "_" then identifier lexer
    else if isdigit c then number lexer
    else if Ascii.eqb c "(" then one lexer TOKEN_LEFT_PAREN
    else if Ascii.eqb c ")" then one lexer TOKEN_RIGHT_PAREN
    else if Ascii.eqb c "{" then one lexer TOKEN_LEFT_BRACE
    else if Ascii.eqb c "}" then one lexer TOKEN_RIGHT_BRACE
    else if Ascii.eqb c "[" then one lexer TOKEN_LEFT_BRACKET
    else if Ascii.eqb c "]" then one lexer TOKEN_RIGHT_BRACKET
    else if Ascii.eqb c "," then one lexer TOKEN_COMMA
    else if Ascii.eqb c ":" then one lexer TOKEN_COLON
    else if Ascii.eqb c "+" then one lexer TOKEN_PLUS
    else if Ascii.eqb c "%" then one lexer TOKEN_PERCENT
    else if Ascii.eqb c "^" then one lexer TOKEN_CARET
    else if Ascii.eqb c "~" then one lexer TOKEN_TILDE
    else if Ascii.eqb c "-" then two lexer ">" TOKEN_ARROW TOKEN_MINUS
    else if Ascii.eqb c "*" then one lexer TOKEN_STAR
    else if Ascii.eqb c "/" then one lexer TOKEN_SLASH
    else if Ascii.eqb c "!" then two lexer "=" TOKEN_NOT_EQUAL TOKEN_NOT
    else if Ascii.eqb c "=" then two lexer "=" TOKEN_EQUAL_EQUAL TOKEN_EQUAL
    else if Ascii.eqb c "<" then two lexer "=" TOKEN_LESS_EQUAL TOKEN_LESS
    else if Ascii.eqb c ">" then two lexer "=" TOKEN_GREATER_EQUAL TOKEN_GREATER
    else if Ascii.eqb c "&" then two lexer "&" TOKEN_AND TOKEN_AMPERSAND
    else if Ascii.eqb c "|" then two lexer "|" TOKEN_OR TOKEN_PIPE
    else if Ascii.eqb c "." then
      let '(m, lexer) := match_char lexer "." in
      if m then two lexer "=" TOKEN_DOT_DOT_EQUAL TOKEN_DOT_DOT
      else one lexer TOKEN_DOT
    else if Ascii.eqb c "034" (* double quote *) || Ascii.eqb c "'"
    then scan_string lexer c
    else (error_token "Unexpected character" (lex_line lexer) (lex_column lexer), lexer).

(* ================================================================= *)
(** ** Syntax tree ([ast.h], [ast.c]) *)

Inductive BinaryOp : Type :=
  | OP_ADD | OP_SUB | OP_MUL | OP_DIV | OP_MOD
  | OP_EQ | OP_NE | OP_LT | OP_GT | OP_LE | OP_GE
  | OP_AND | OP_OR
  | OP_BIT_AND | OP_BIT_OR | OP_BIT_XOR
  | OP_SHL | OP_SHR.

Inductive UnaryOp : Type := OP_NEG | OP_NOT | OP_BIT_NOT.

(** The literal payload: the tag [LiteralType] together with the member of
    the union it selects.  A [double] is kept as the text handed to [strtod];
    its numeric value is not modelled. *)
Inductive Literal : Type :=
  | LIT_INT (int_value : Z)
  | LIT_FLOAT (float_text : string)
  | LIT_STRING (string_value : string)
  | LIT_BOOL (bool_value : bool)
  | LIT_NULL.

(** [struct AstNode]: the constructor is the [type] tag, followed by [line]
    and [column] and then the member of the union [as] the tag selects. *)
#[warnings="-register-all"]
Inductive AstNode : Type :=
  | AST_BINARY_EXPR (line column : Z) (op : BinaryOp) (left right : option AstNode)
  | AST_UNARY_EXPR (line column : Z) (op : UnaryOp) (operand : option AstNode)
  | AST_LITERAL_EXPR (line column : Z) (literal : Literal)
  | AST_IDENTIFIER_EXPR (line column : Z) (identifier : string)
  | AST_CALL_EXPR (line column : Z) (callee : option AstNode)
                  (arguments : option (list (option AstNode)))
  | AST_INDEX_EXPR (line column : Z) (object index : option AstNode)
  | AST_MEMBER_EXPR (line column : Z) (object : option AstNode) (member : string)
  | AST_ARRAY_EXPR (line column : Z) (elements : option (list (option AstNode)))
  | AST_DICT_EXPR (line column : Z) (entries : option (list DictEntry))
  | AST_VAR_DECL (line column : Z) (name : string) (type_name : option string)
                 (initializer : option AstNode)
  | AST_ASSIGN_STMT (line column : Z) (target value : option AstNode)
  | AST_EXPR_STMT (line column : Z) (expr_stmt : option AstNode)
  | AST_IF_STMT (line column : Z) (condition then_branch else_branch : option AstNode)
  | AST_WHILE_STMT (line column : Z) (condition body : option AstNode)
  | AST_FOR_STMT (line column : Z) (variable : string) (iterable body : option AstNode)
                 (index_var : option string)
  | AST_LOOP_STMT (line column : Z) (body : option AstNode)
  | AST_RETURN_STMT (line column : Z) (value : option AstNode)
  | AST_BREAK_STMT (line column : Z)
  | AST_CONTINUE_STMT (line column : Z)
  | AST_BLOCK_STMT (line column : Z) (statements : option (list (option AstNode)))
  | AST_FUNCTION_DECL (line column : Z) (name : string)
                      (parameters : option (list FunctionParameter))
                      (body : option AstNode) (return_type : option string)
  | AST_CLASS_DECL (line column : Z) (name : string)
                   (methods fields : option (list (option AstNode)))
  | AST_IMPORT_STMT (line column : Z) (module_name : string)
  | AST_PROGRAM (line column : Z) (declarations : option (list (option AstNode)))
with FunctionParameter : Type :=   (* [Parameter] of the source *)
  | mkParameter (name : string) (type_name : option string)
                (default_value : option AstNode)
with DictEntry : Type :=
  | mkDictEntry (key value : option AstNode).

Definition node_line (node : AstNode) : Z :=
  match node with
  | AST_BINARY_EXPR l _ _ _ _ | AST_UNARY_EXPR l _ _ _ | AST_LITERAL_EXPR l _ _
  | AST_IDENTIFIER_EXPR l _ _ | AST_CALL_EXPR l _ _ _ | AST_INDEX_EXPR l _ _ _
  | AST_MEMBER_EXPR l _ _ _ | AST_ARRAY_EXPR l _ _ | AST_DICT_EXPR l _ _
  | AST_VAR_DECL l _ _ _ _ | AST_ASSIGN_STMT l _ _ _ | AST_EXPR_STMT l _ _
  | AST_IF_STMT l _ _ _ _ | AST_WHILE_STMT l _ _ _ | AST_FOR_STMT l _ _ _ _ _
  | AST_LOOP_STMT l _ _ | AST_RETURN_STMT l _ _ | AST_BREAK_STMT l _
  | AST_CONTINUE_STMT l _ | AST_BLOCK_STMT l _ _ | AST_FUNCTION_DECL l _ _ _ _ _
  | AST_CLASS_DECL l _ _ _ _ | AST_IMPORT_STMT l _ _ | AST_PROGRAM l _ _ => l
  end.

Definition node_column (node : AstNode) : Z :=
  match node with
  | AST_BINARY_EXPR _ c _ _ _ | AST_UNARY_EXPR _ c _ _ | AST_LITERAL_EXPR _ c _
  | AST_IDENTIFIER_EXPR _ c _ | AST_CALL_EXPR _ c _ _ | AST_INDEX_EXPR _ c _ _
  | AST_MEMBER_EXPR _ c _ _ | AST_ARRAY_EXPR _ c _ | AST_DICT_EXPR _ c _
  | AST_VAR_DECL _ c _ _ _ | AST_ASSIGN_STMT _ c _ _ | AST_EXPR_STMT _ c _
  | AST_IF_STMT _ c _ _ _ | AST_WHILE_STMT _ c _ _ | AST_FOR_STMT _ c _ _ _ _
  | AST_LOOP_STMT _ c _ | AST_RETURN_STMT _ c _ | AST_BREAK_STMT _ c
  | AST_CONTINUE_STMT _ c | AST_BLOCK_STMT _ c _ | AST_FUNCTION_DECL _ c _ _ _ _
  | AST_CLASS_DECL _ c _ _ _ | AST_IMPORT_STMT _ c _ | AST_PROGRAM _ c _ => c
  end.

(** *** AST lists *)

Definition ast_list_create {A : Type} : option (list A) := Some [].

(** [if (!list) return;] then the item is stored after the last one. *)
Definition ast_list_append {A : Type} (lst : option (list A)) (item : A)
    : option (list A) :=
  match lst with
  | None => None
  | Some items => Some (items ++ [item])%list
  end.

(** *** Constructors.  Each allocates a node, sets [type], [line] and
    [column] and fills the fields in. *)

Definition ast_create_binary op left right line col : AstNode :=
  AST_BINARY_EXPR line col op left right.
Definition ast_create_unary op operand line col : AstNode :=
  AST_UNARY_EXPR line col op operand.
Definition ast_create_literal_int value line col : AstNode :=
  AST_LITERAL_EXPR line col (LIT_INT value).
Definition ast_create_literal_float value line col : AstNode :=
  AST_LITERAL_EXPR line col (LIT_FLOAT value).
Definition ast_create_literal_string value line col : AstNode :=
  AST_LITERAL_EXPR line col (LIT_STRING value).
Definition ast_create_literal_bool value line col : AstNode :=
  AST_LITERAL_EXPR line col (LIT_BOOL value).
Definition ast_create_literal_null line col : AstNode :=
  AST_LITERAL_EXPR line col LIT_NULL.
Definition ast_create_identifier name line col : AstNode :=
  AST_IDENTIFIER_EXPR line col name.
Definition ast_create_call callee args line col : AstNode :=
  AST_CALL_EXPR line col callee args.
Definition ast_create_index object index line col : AstNode :=
  AST_INDEX_EXPR line col object index.
Definition ast_create_member object member line col : AstNode :=
  AST_MEMBER_EXPR line col object member.
Definition ast_create_array elements line col : AstNode :=
  AST_ARRAY_EXPR line col elements.
Definition ast_create_dict entries line col : AstNode :=
  AST_DICT_EXPR line col entries.
Definition ast_create_var_decl name type init line col : AstNode :=
  AST_VAR_DECL line col name type init.
Definition ast_create_assign target value line col : AstNode :=
  AST_ASSIGN_STMT line col target value.
Definition ast_create_expr_stmt expr line col : AstNode :=
  AST_EXPR_STMT line col expr.
Definition ast_create_if cond then_br else_br line col : AstNode :=
  AST_IF_STMT line col cond then_br else_br.
Definition ast_create_while cond body line col : AstNode :=
  AST_WHILE_STMT line col cond body.
Definition ast_create_for var iter body idx line col : AstNode :=
  AST_FOR_STMT line col var iter body idx.
Definition ast_create_loop body line col : AstNode :=
  AST_LOOP_STMT line col body.
Definition ast_create_return value line col : AstNode :=
  AST_RETURN_STMT line col value.
Definition ast_create_break line col : AstNode := AST_BREAK_STMT line col.
Definition ast_create_continue line col : AstNode := AST_CONTINUE_STMT line col.
Definition ast_create_block stmts line col : AstNode :=
  AST_BLOCK_STMT line col stmts.
Definition ast_create_function name params body ret_type line col : AstNode :=
  AST_FUNCTION_DECL line col name params body ret_type.
Definition ast_create_class name methods fields line col : AstNode :=
  AST_CLASS_DECL line col name methods fields.
Definition ast_create_import module line col : AstNode :=
  AST_IMPORT_STMT line col module.
Definition ast_create_program decls : AstNode :=
  AST_PROGRAM 1 1 decls.
Definition ast_create_parameter name type default_val : FunctionParameter :=
  mkParameter name type default_val.
Definition ast_create_dict_entry key value : DictEntry :=
  mkDictEntry key value.

(** *** The array behind an [AstList]

    [ast_list_append] above appends to a list.  The source keeps the
    items in an array that it enlarges when it is full; this is that code.
    [items] are the slots of the allocation, [None] for a slot that was
    never written; a write outside the allocation is [None]. *)
Module AstListArray.

Record AstList (A : Type) : Type := mkAstList {
  items : list (option A);
  count : nat;
  capacity : nat
}.
Arguments mkAstList {A}.
Arguments items {A}.
Arguments count {A}.
Arguments capacity {A}.

Definition ast_list_create {A : Type} : AstList A := mkAstList [] 0 0.

(** [realloc(items, new_capacity * sizeof(void* ))]: the old slots are
    kept, the new ones hold nothing yet. *)
Definition realloc {A : Type} (slots : list (option A)) (new_capacity : nat)
    : list (option A) :=
  firstn new_capacity
    (slots ++ repeat None (new_capacity - List.length slots))%list.

(** [slots[i] = item] *)
Fixpoint store {A : Type} (slots : list (option A)) (i : nat) (item : A)
    : option (list (option A)) :=
  match slots, i with
  | [], _ => None
  | _ :: rest, O => Some (Some item :: rest)
  | slot :: rest, S j =>
      match store rest j item with
      | Some rest' => Some (slot :: rest')
      | None => None
      end
  end.

Definition ast_list_append {A : Type} (lst : AstList A) (item : A)
    : option (AstList A) :=
  let lst :=
    if Nat.leb (capacity lst) (count lst)
    then
      let new_capacity :=
        if Nat.eqb (capacity lst) 0 then 8%nat else (capacity lst * 2)%nat in
      mkAstList (realloc (items lst) new_capacity) (count lst) new_capacity
    else lst in
  match store (items lst) (count lst) item with
  | Some slots => Some (mkAstList slots (S (count lst)) (capacity lst))
  | None => None
  end.

(** The list the array stands for: its first [count] items. *)
Definition contents {A : Type} (lst : AstList A) : list (option A) :=
  firstn (count lst) (items lst).

(** The array is as its fields say: [capacity] slots, the first [count]
    of them written. *)
Definition well_formed {A : Type} (lst : AstList A) : Prop :=
  List.length (items lst) = capacity lst
  /\ (count lst <= capacity lst)%nat
  /\ Forall (fun slot => slot <> None) (contents lst).

End AstListArray.

(** *** Utility functions: the names of the operators *)

Definition binary_op_name (op : BinaryOp) : string :=
  match op with
  | OP_ADD => "+" | OP_SUB => "-" | OP_MUL => "*" | OP_DIV => "/" | OP_MOD => "%"
  | OP_EQ => "==" | OP_NE => "!=" | OP_LT => "<" | OP_GT => ">"
  | OP_LE => "<=" | OP_GE => ">=" | OP_AND => "&&" | OP_OR => "||"
  | OP_BIT_AND => "&" | OP_BIT_OR => "|" | OP_BIT_XOR => "^"
  | OP_SHL => "<<" | OP_SHR => ">>"
  end.

Definition unary_op_name (op : UnaryOp) : string :=
  match op with OP_NEG => "-" | OP_NOT => "!" | OP_BIT_NOT => "~" end.

(* ================================================================= *)
(** ** Parser state and helpers ([parser.h], [parser.c]) *)

(** [stderr] is the sequence of diagnostics printed so far: each entry is
    the token and the message of one [parser_error_at] that was not
    suppressed. *)
Record Parser : Type := mkParser {
  lexer : Lexer;
  current : Token;
  previous : Token;
  had_error : bool;
  panic_mode : bool;
  stderr : list (Token * string)
}.

Definition set_lexer_current (parser : Parser) (lx : Lexer) (tok : Token) : Parser :=
  mkParser lx tok (previous parser) (had_error parser) (panic_mode parser)
           (stderr parser).

Definition set_previous (parser : Parser) (tok : Token) : Parser :=
  mkParser (lexer parser) (current parser) tok (had_error parser)
           (panic_mode parser) (stderr parser).

Definition set_panic_mode (parser : Parser) (b : bool) : Parser :=
  mkParser (lexer parser) (current parser) (previous parser) (had_error parser)
           b (stderr parser).

(** *** Error handling *)

Definition parser_error_at (parser : Parser) (token : Token) (message : string)
    : Parser :=
  if panic_mode parser then parser
  else mkParser (lexer parser) (current parser) (previous parser) true true
                (stderr parser ++ [(token, message)])%list.

Definition parser_error_at_current (parser : Parser) (message : string) : Parser :=
  parser_error_at parser (current parser) message.

Definition parser_error (parser : Parser) (message : string) : Parser :=
  parser_error_at parser (previous parser) message.

(** *** Cursor *)

(** The [for (;;)] of [parser_advance]: fetch tokens, reporting and dropping
    error tokens.  Every error token stands for at least one character the
    lexer stepped over, so with [fuel] at least the number of unread
    characters the loop is left through its [break] (see
    [parser_advance_not_error] below). *)
Fixpoint parser_advance_loop (fuel : nat) (parser : Parser) : Parser :=
  let '(tok, lx) := lexer_next_token (lexer parser) in
  let parser := set_lexer_current parser lx tok in
  if negb (type (current parser) ==t TOKEN_ERROR) then parser
  else
    let parser := parser_error_at_current parser (start (current parser)) in
    match fuel with
    | O => parser
    | S n => parser_advance_loop n parser
    end.

Definition parser_advance (parser : Parser) : Parser :=
  let parser := set_previous parser (current parser) in
  parser_advance_loop (unread (lexer parser)) parser.

Definition parser_check (parser : Parser) (t : TokenType) : bool :=
  type (current parser) ==t t.

Definition parser_match (parser : Parser) (t : TokenType) : bool * Parser :=
  if negb (parser_check parser t) then (false, parser)
  else (true, parser_advance parser).

Definition parser_expect (parser : Parser) (t : TokenType) (message : string)
    : Token * Parser :=
  if type (current parser) ==t t
  then (current parser, parser_advance parser)
  else
    let parser := parser_error_at_current parser message in
    (current parser, parser).

Definition parser_peek (parser : Parser) : Token := current parser.
Definition parser_previous (parser : Parser) : Token := previous parser.

Definition parser_is_at_end (parser : Parser) : bool :=
  type (current parser) ==t TOKEN_EOF.

(** [parser_match(a) || parser_match(b) || ...], left to right, stopping at
    the first that succeeds. *)
Fixpoint parser_match_any (parser : Parser) (types : list TokenType)
    : bool * Parser :=
  match types with
  | [] => (false, parser)
  | t :: rest =>
      let '(m, parser') := parser_match parser t in
      if m then (true, parser') else parser_match_any parser rest
  end.

(** [parser_init] receives the caller's (uninitialised) [Parser]; whatever
    its [current] field holds becomes [previous] when the first token is
    fetched. *)
Definition parser_init (parser : Parser) (lx : Lexer) : Parser :=
  parser_advance
    (mkParser lx (current parser) (previous parser) false false (stderr parser)).

(** *** Numeric literals: [strtol(text, NULL, 10)] for a 64-bit [long]. *)

Definition LONG_MAX : Z := 9223372036854775807.
Definition LONG_MIN : Z := -9223372036854775808.

Fixpoint strtol_digits (s : string) (acc : Z) : Z :=
  match s with
  | String c rest =>
      if isdigit c
      then strtol_digits rest (acc * 10 + (Z.of_nat (nat_of_ascii c) - 48))
      else acc
  | EmptyString => acc
  end.

Fixpoint strtol_skip_space (s : string) : string :=
  match s with
  | String c rest => if isspace c then strtol_skip_space rest else s
  | EmptyString => s
  end.

Definition strtol (s : string) : Z :=
  let s := strtol_skip_space s in
  let v :=
    match s with
    | String "-" rest => - strtol_digits rest 0
    | String "+" rest => strtol_digits rest 0
    | _ => strtol_digits s 0
    end in
  Z.max LONG_MIN (Z.min LONG_MAX v).

(** [string_dup_n(token.start + 1, token.length - 2)] *)
Definition strip_quotes (s : string) : string :=
  substring 1 (String.length s - 2) s.

(** An [option] stands for "returned" / "still running"; [let*] sequences
    two calls. *)
Notation "'let*' p ':=' e 'in' k" :=
  (match e with Some p => k | None => None end)
  (at level 10, p pattern, e at level 200, k at level 200, only parsing).

(* ================================================================= *)
(** ** Expression parsing *)

Definition Result : Type := option (option AstNode * Parser).

Fixpoint parser_parse_primary (fuel : nat) (parser : Parser) {struct fuel} : Result :=
  match fuel with O => None | S fuel =>
  (* Check for empty expression in parens or brackets *)
  if (type (current parser) ==t TOKEN_RIGHT_PAREN)
     || (type (current parser) ==t TOKEN_RIGHT_BRACKET)
     || (type (current parser) ==t TOKEN_EOF)
  then Some (None, parser)
  else
  (* Integer literal *)
  let '(m, parser) := parser_match parser TOKEN_INT in
  if m then
    let token := previous parser in
    let value := strtol (start token) in
    Some (Some (ast_create_literal_int value (line token) (column token)), parser)
  else
  (* Float literal *)
  let '(m, parser) := parser_match parser TOKEN_FLOAT in
  if m then
    let token := previous parser in
    Some (Some (ast_create_literal_float (start token) (line token) (column token)),
          parser)
  else
  (* String literal *)
  let '(m, parser) := parser_match parser TOKEN_STRING in
  if m then
    let token := previous parser in
    let str_value := strip_quotes (start token) in
    Some (Some (ast_create_literal_string str_value (line token) (column token)),
          parser)
  else
  (* Boolean literals *)
  let '(m, parser) := parser_match parser TOKEN_TRUE in
  if m then
    let token := previous parser in
    Some (Some (ast_create_literal_bool true (line token) (column token)), parser)
  else
  let '(m, parser) := parser_match parser TOKEN_FALSE in
  if m then
    let token := previous parser in
    Some (Some (ast_create_literal_bool false (line token) (column token)), parser)
  else
  (* Identifier *)
  let '(m, parser) := parser_match parser TOKEN_IDENTIFIER in
  if m then
    let token := previous parser in
    Some (Some (ast_create_identifier (start token) (line token) (column token)),
          parser)
  else
  (* Grouped expression *)
  let '(m, parser) := parser_match parser TOKEN_LEFT_PAREN in
  if m then
    let* (expr, parser) := parser_parse_expression fuel parser in
    match expr with
    | None => Some (None, parser_error parser "Expected expression after '('")
    | Some _ =>
        let '(_, parser) :=
          parser_expect parser TOKEN_RIGHT_PAREN "Expected ')' after expression" in
        Some (expr, parser)
    end
  else
  (* Array literal *)
  let '(m, parser) := parser_match parser TOKEN_LEFT_BRACKET in
  if m then
    let start_token := previous parser in
    let elements := ast_list_create in
    let* (elements, parser) :=
      if negb (parser_check parser TOKEN_RIGHT_BRACKET)
      then parse_expression_list fuel elements parser
      else Some (elements, parser) in
    let '(_, parser) :=
      parser_expect parser TOKEN_RIGHT_BRACKET "Expected ']' after array elements" in
    Some (Some (ast_create_array elements (line start_token) (column start_token)),
          parser)
  else
  Some (None, parser_error_at_current parser "Expected expression")
  end

(** [do { item = parser_parse_expression(parser); ast_list_append(list, item); }
     while (parser_match(parser, TOKEN_COMMA));] -- the loop that collects
    array elements in [parser_parse_primary] and call arguments in
    [parse_postfix] and [parse_postfix_continue]. *)
with parse_expression_list (fuel : nat) (items : option (list (option AstNode)))
    (parser : Parser) {struct fuel} : option (option (list (option AstNode)) * Parser) :=
  match fuel with O => None | S fuel =>
  let* (item, parser) := parser_parse_expression fuel parser in
  let items := ast_list_append items item in
  let '(m, parser) := parser_match parser TOKEN_COMMA in
  if m then parse_expression_list fuel items parser
  else Some (items, parser)
  end

(** Continue parsing postfix operations on an already-parsed expression: one
    call is one turn of the [for (;;)]. *)
with parse_postfix_continue (fuel : nat) (parser : Parser) (expr : option AstNode)
    {struct fuel} : Result :=
  match fuel with O => None | S fuel =>
  (* Function call *)
  let '(m, parser) := parser_match parser TOKEN_LEFT_PAREN in
  if m then
    let args := ast_list_create in
    let* (args, parser) :=
      if negb (parser_check parser TOKEN_RIGHT_PAREN)
      then parse_expression_list fuel args parser
      else Some (args, parser) in
    let '(paren, parser) :=
      parser_expect parser TOKEN_RIGHT_PAREN "Expected ')' after arguments" in
    parse_postfix_continue fuel parser
      (Some (ast_create_call expr args (line paren) (column paren)))
  else
  (* Array indexing *)
  let '(m, parser) := parser_match parser TOKEN_LEFT_BRACKET in
  if m then
    let* (index, parser) := parser_parse_expression fuel parser in
    let '(bracket, parser) :=
      parser_expect parser TOKEN_RIGHT_BRACKET "Expected ']' after index" in
    parse_postfix_continue fuel parser
      (Some (ast_create_index expr index (line bracket) (column bracket)))
  else
  (* Member access *)
  let '(m, parser) := parser_match parser TOKEN_DOT in
  if m then
    let '(member, parser) :=
      parser_expect parser TOKEN_IDENTIFIER "Expected property name after '.'" in
    parse_postfix_continue fuel parser
      (Some (ast_create_member expr (start member) (line member) (column member)))
  else
  Some (expr, parser)
  end

(** Postfix operators (call, index, member).  The [for (;;)] of the source
    is, statement for statement, the one of [parse_postfix_continue]. *)
with parse_postfix (fuel : nat) (parser : Parser) {struct fuel} : Result :=
  match fuel with O => None | S fuel =>
  let* (expr, parser) := parser_parse_primary fuel parser in
  parse_postfix_continue fuel parser expr
  end

(** Unary operators: -, !, ~ *)
with parse_unary (fuel : nat) (parser : Parser) {struct fuel} : Result :=
  match fuel with O => None | S fuel =>
  let '(m, parser) := parser_match parser TOKEN_MINUS in
  if m then
    let op := previous parser in
    let* (operand, parser) := parse_unary fuel parser in
    Some (Some (ast_create_unary OP_NEG operand (line op) (column op)), parser)
  else
  let '(m, parser) := parser_match parser TOKEN_NOT in
  if m then
    let op := previous parser in
    let* (operand, parser) := parse_unary fuel parser in
    Some (Some (ast_create_unary OP_NOT operand (line op) (column op)), parser)
  else
  let '(m, parser) := parser_match parser TOKEN_TILDE in
  if m then
    let op := previous parser in
    let* (operand, parser) := parse_unary fuel parser in
    Some (Some (ast_create_unary OP_BIT_NOT operand (line op) (column op)), parser)
  else
  parse_postfix fuel parser
  end

(** Multiplicative operators: *, /, % *)
with parse_factor (fuel : nat) (parser : Parser) {struct fuel} : Result :=
  match fuel with O => None | S fuel =>
  let* (expr, parser) := parse_unary fuel parser in
  parse_factor_loop fuel parser expr
  end

with parse_factor_loop (fuel : nat) (parser : Parser) (expr : option AstNode)
    {struct fuel} : Result :=
  match fuel with O => None | S fuel =>
  let '(m, parser) :=
    parser_match_any parser [TOKEN_STAR; TOKEN_SLASH; TOKEN_PERCENT] in
  if m then
    let op := previous parser in
    let* (right_, parser) := parse_unary fuel parser in
    let bin_op :=
      if type op ==t TOKEN_STAR then OP_MUL
      else if type op ==t TOKEN_SLASH then OP_DIV
      else OP_MOD in
    parse_factor_loop fuel parser
      (Some (ast_create_binary bin_op expr right_ (line op) (column op)))
  else Some (expr, parser)
  end

(** Additive operators: +, - *)
with parse_term (fuel : nat) (parser : Parser) {struct fuel} : Result :=
  match fuel with O => None | S fuel =>
  let* (expr, parser) := parse_factor fuel parser in
  parse_term_loop fuel parser expr
  end

with parse_term_loop (fuel : nat) (parser : Parser) (expr : option AstNode)
    {struct fuel} : Result :=
  match fuel with O => None | S fuel =>
  let '(m, parser) := parser_match_any parser [TOKEN_PLUS; TOKEN_MINUS] in
  if m then
    let op := previous parser in
    let* (right_, parser) := parse_factor fuel parser in
    let bin_op := if type op ==t TOKEN_PLUS then OP_ADD else OP_SUB in
    parse_term_loop fuel parser
      (Some (ast_create_binary bin_op expr right_ (line op) (column op)))
  else Some (expr, parser)
  end

(** Comparison operators: <, >, <=, >= *)
with parse_comparison (fuel : nat) (parser : Parser) {struct fuel} : Result :=
  match fuel with O => None | S fuel =>
  let* (expr, parser) := parse_term fuel parser in
  parse_comparison_loop fuel parser expr
  end

with parse_comparison_loop (fuel : nat) (parser : Parser) (expr : option AstNode)
    {struct fuel} : Result :=
  match fuel with O => None | S fuel =>
  let '(m, parser) :=
    parser_match_any parser
      [TOKEN_LESS; TOKEN_GREATER; TOKEN_LESS_EQUAL; TOKEN_GREATER_EQUAL] in
  if m then
    let op := previous parser in
    let* (right_, parser) := parse_term fuel parser in
    let bin_op :=
      match type op with
      | TOKEN_LESS => OP_LT
      | TOKEN_GREATER => OP_GT
      | TOKEN_LESS_EQUAL => OP_LE
      | TOKEN_GREATER_EQUAL => OP_GE
      | _ => OP_LT (* Should never happen *)
      end in
    parse_comparison_loop fuel parser
      (Some (ast_create_binary bin_op expr right_ (line op) (column op)))
  else Some (expr, parser)
  end

(** Equality operators: ==, != *)
with parse_equality (fuel : nat) (parser : Parser) {struct fuel} : Result :=
  match fuel with O => None | S fuel =>
  let* (expr, parser) := parse_comparison fuel parser in
  parse_equality_loop fuel parser expr
  end

with parse_equality_loop (fuel : nat) (parser : Parser) (expr : option AstNode)
    {struct fuel} : Result :=
  match fuel with O => None | S fuel =>
  let '(m, parser) :=
    parser_match_any parser [TOKEN_EQUAL_EQUAL; TOKEN_NOT_EQUAL] in
  if m then
    let op := previous parser in
    let* (right_, parser) := parse_comparison fuel parser in
    let bin_op := if type op ==t TOKEN_EQUAL_EQUAL then OP_EQ else OP_NE in
    parse_equality_loop fuel parser
      (Some (ast_create_binary bin_op expr right_ (line op) (column op)))
  else Some (expr, parser)
  end

(** Logical AND: && *)
with parse_logical_and (fuel : nat) (parser : Parser) {struct fuel} : Result :=
  match fuel with O => None | S fuel =>
  let* (expr, parser) := parse_equality fuel parser in
  parse_logical_and_loop fuel parser expr
  end

with parse_logical_and_loop (fuel : nat) (parser : Parser) (expr : option AstNode)
    {struct fuel} : Result :=
  match fuel with O => None | S fuel =>
  let '(m, parser) := parser_match parser TOKEN_AND in
  if m then
    let op := previous parser in
    let* (right_, parser) := parse_equality fuel parser in
    parse_logical_and_loop fuel parser
      (Some (ast_create_binary OP_AND expr right_ (line op) (column op)))
  else Some (expr, parser)
  end

(** Logical OR: || *)
with parse_logical_or (fuel : nat) (parser : Parser) {struct fuel} : Result :=
  match fuel with O => None | S fuel =>
  let* (expr, parser) := parse_logical_and fuel parser in
  parse_logical_or_loop fuel parser expr
  end

with parse_logical_or_loop (fuel : nat) (parser : Parser) (expr : option AstNode)
    {struct fuel} : Result :=
  match fuel with O => None | S fuel =>
  let '(m, parser) := parser_match parser TOKEN_OR in
  if m then
    let op := previous parser in
    let* (right_, parser) := parse_logical_and fuel parser in
    parse_logical_or_loop fuel parser
      (Some (ast_create_binary OP_OR expr right_ (line op) (column op)))
  else Some (expr, parser)
  end

with parser_parse_expression (fuel : nat) (parser : Parser) {struct fuel} : Result :=
  match fuel with O => None | S fuel =>
  parse_logical_or fuel parser
  end.

(* ================================================================= *)
(** ** Statement parsing *)

(** The body of [parser_synchronize]'s [while]: one call is one test of the
    loop condition. *)
Fixpoint parser_synchronize_loop (fuel : nat) (parser : Parser) {struct fuel}
    : option Parser :=
  match fuel with O => None | S fuel =>
  if negb (type (current parser) ==t TOKEN_EOF) then
    (* Synchronize at statement boundaries *)
    if type (previous parser) ==t TOKEN_NEWLINE then Some parser
    else
      match type (current parser) with
      | TOKEN_FUNC | TOKEN_IF | TOKEN_WHILE | TOKEN_FOR | TOKEN_LOOP
      | TOKEN_RETURN | TOKEN_IMPORT | TOKEN_CLASS => Some parser
      | _ => parser_synchronize_loop fuel (parser_advance parser)
      end
  else Some parser
  end.

Definition parser_synchronize (fuel : nat) (parser : Parser) : option Parser :=
  parser_synchronize_loop fuel (set_panic_mode parser false).

(** Parse return statement: return or return expr *)
Definition parse_return_statement (fuel : nat) (parser : Parser) : Result :=
  match fuel with O => None | S fuel =>
  let return_token := previous parser in
  (* Check if there's a return value *)
  let* (value, parser) :=
    if negb (parser_check parser TOKEN_RIGHT_BRACE)
       && negb (parser_check parser TOKEN_EOF)
       && negb (parser_is_at_end parser)
    then parser_parse_expression fuel parser
    else Some (None, parser) in
  Some (Some (ast_create_return value (line return_token) (column return_token)),
        parser)
  end.

(** Parse a block of statements (for function bodies, control flow, etc.) *)
Fixpoint parse_block_statement (fuel : nat) (parser : Parser) {struct fuel} : Result :=
  match fuel with O => None | S fuel =>
  let '(brace, parser) :=
    parser_expect parser TOKEN_LEFT_BRACE "Expected '{' to begin block" in
  let statements := ast_list_create in
  let* (statements, parser) := parse_block_loop fuel statements parser in
  let '(_, parser) :=
    parser_expect parser TOKEN_RIGHT_BRACE "Expected '}' after block" in
  Some (Some (ast_create_block statements (line brace) (column brace)), parser)
  end

(** [while (!parser_check(parser, TOKEN_RIGHT_BRACE) && !parser_is_at_end(parser))] *)
with parse_block_loop (fuel : nat) (statements : option (list (option AstNode)))
    (parser : Parser) {struct fuel}
    : option (option (list (option AstNode)) * Parser) :=
  match fuel with O => None | S fuel =>
  if negb (parser_check parser TOKEN_RIGHT_BRACE) && negb (parser_is_at_end parser)
  then
    let* (stmt, parser) := parser_parse_statement fuel parser in
    let statements :=
      match stmt with
      | Some _ => ast_list_append statements stmt
      | None => statements
      end in
    parse_block_loop fuel statements parser
  else Some (statements, parser)
  end

(** Parse if statement: if condition { ... } else if condition { ... } else { ... } *)
with parse_if_statement (fuel : nat) (parser : Parser) {struct fuel} : Result :=
  match fuel with O => None | S fuel =>
  let if_token := previous parser in
  (* Parse condition *)
  let* (condition, parser) := parser_parse_expression fuel parser in
  match condition with
  | None =>
      Some (None, parser_error parser "Expected condition in if statement")
  | Some _ =>
      (* Parse then branch *)
      let* (then_branch, parser) :=
        if parser_check parser TOKEN_LEFT_BRACE
        then parse_block_statement fuel parser
        else (* Single statement without braces *)
             parser_parse_statement fuel parser in
      (* Parse else branch (optional) *)
      let '(m, parser) := parser_match parser TOKEN_ELSE in
      let* (else_branch, parser) :=
        if m then
          if parser_check parser TOKEN_IF then
            (* else if - parse as another if statement *)
            parse_if_statement fuel (parser_advance parser)
          else if parser_check parser TOKEN_LEFT_BRACE then
            parse_block_statement fuel parser
          else
            parser_parse_statement fuel parser
        else Some (None, parser) in
      Some (Some (ast_create_if condition then_branch else_branch
                                (line if_token) (column if_token)), parser)
  end
  end

(** Parse while loop: while condition { ... } *)
with parse_while_statement (fuel : nat) (parser : Parser) {struct fuel} : Result :=
  match fuel with O => None | S fuel =>
  let while_token := previous parser in
  let* (condition, parser) := parser_parse_expression fuel parser in
  match condition with
  | None =>
      Some (None, parser_error parser "Expected condition in while statement")
  | Some _ =>
      let* (body, parser) :=
        if parser_check parser TOKEN_LEFT_BRACE
        then parse_block_statement fuel parser
        else parser_parse_statement fuel parser in
      Some (Some (ast_create_while condition body
                                   (line while_token) (column while_token)), parser)
  end
  end

(** Parse for loop: for i in 0..10 { ... } or for item in array { ... } *)
with parse_for_statement (fuel : nat) (parser : Parser) {struct fuel} : Result :=
  match fuel with O => None | S fuel =>
  let for_token := previous parser in
  (* Parse iterator variable(s) *)
  let '(var, parser) :=
    parser_expect parser TOKEN_IDENTIFIER "Expected variable name in for loop" in
  let var_name := start var in
  (* Check for index variable: for i, item in array *)
  let index_var : option string := None in
  let '(m, parser) := parser_match parser TOKEN_COMMA in
  let '(var_name, index_var, parser) :=
    if m then
      let index_var := Some var_name in
      let '(value_var, parser) :=
        parser_expect parser TOKEN_IDENTIFIER "Expected value variable after ','" in
      (start value_var, index_var, parser)
    else (var_name, index_var, parser) in
  (* Expect 'in' keyword *)
  let '(_, parser) := parser_expect parser TOKEN_IN "Expected 'in' in for loop" in
  (* Parse iterable expression *)
  let* (iterable, parser) := parser_parse_expression fuel parser in
  match iterable with
  | None =>
      Some (None, parser_error parser "Expected iterable expression in for loop")
  | Some _ =>
      (* Parse body *)
      let* (body, parser) :=
        if parser_check parser TOKEN_LEFT_BRACE
        then parse_block_statement fuel parser
        else parser_parse_statement fuel parser in
      Some (Some (ast_create_for var_name iterable body index_var
                                 (line for_token) (column for_token)), parser)
  end
  end

(** Parse infinite loop: loop { ... } *)
with parse_loop_statement (fuel : nat) (parser : Parser) {struct fuel} : Result :=
  match fuel with O => None | S fuel =>
  let loop_token := previous parser in
  let* (body, parser) :=
    if parser_check parser TOKEN_LEFT_BRACE
    then parse_block_statement fuel parser
    else parser_parse_statement fuel parser in
  Some (Some (ast_create_loop body (line loop_token) (column loop_token)), parser)
  end

with parser_parse_statement (fuel : nat) (parser : Parser) {struct fuel} : Result :=
  match fuel with O => None | S fuel =>
  (* Variable declaration: identifier = expr OR identifier: type = expr *)
  if parser_check parser TOKEN_IDENTIFIER then
    let name_token := current parser in
    let parser := parser_advance parser in
    (* Check for type annotation (x: type = value) *)
    if parser_check parser TOKEN_COLON then
      let parser := parser_advance parser in
      let '(type_token, parser) :=
        parser_expect parser TOKEN_IDENTIFIER "Expected type name" in
      let type_name := start type_token in
      let '(_, parser) := parser_expect parser TOKEN_EQUAL "Expected '=' after type" in
      let* (init, parser) := parser_parse_expression fuel parser in
      let var_name := start name_token in
      Some (Some (ast_create_var_decl var_name (Some type_name) init
                                      (line name_token) (column name_token)), parser)
    (* Simple assignment: x = value (treat as variable declaration) *)
    else if parser_check parser TOKEN_EQUAL then
      let parser := parser_advance parser in
      let* (value, parser) := parser_parse_expression fuel parser in
      let var_name := start name_token in
      Some (Some (ast_create_var_decl var_name None value
                                      (line name_token) (column name_token)), parser)
    else
      (* We already consumed the identifier, so create it manually and then
         continue parsing postfix expressions *)
      let id_name := start name_token in
      let expr := ast_create_identifier id_name (line name_token) (column name_token) in
      (* Now parse any postfix operations (calls, indexing, member access) *)
      let* (expr, parser) := parse_postfix_continue fuel parser (Some expr) in
      (* [expr->line] is read without a test: on a NULL [expr] the call does
         not return.  [parse_postfix_continue] never yields NULL from a node
         (lemma [parse_postfix_continue_node]). *)
      match expr with
      | Some e =>
          Some (Some (ast_create_expr_stmt expr (node_line e) (node_column e)), parser)
      | None => None
      end
  else
  (* If statement *)
  let '(m, parser) := parser_match parser TOKEN_IF in
  if m then parse_if_statement fuel parser else
  (* While loop *)
  let '(m, parser) := parser_match parser TOKEN_WHILE in
  if m then parse_while_statement fuel parser else
  (* For loop *)
  let '(m, parser) := parser_match parser TOKEN_FOR in
  if m then parse_for_statement fuel parser else
  (* Infinite loop *)
  let '(m, parser) := parser_match parser TOKEN_LOOP in
  if m then parse_loop_statement fuel parser else
  (* Return statement *)
  let '(m, parser) := parser_match parser TOKEN_RETURN in
  if m then parse_return_statement fuel parser else
  (* Break statement *)
  let '(m, parser) := parser_match parser TOKEN_BREAK in
  if m then
    let tok := previous parser in
    Some (Some (ast_create_break (line tok) (column tok)), parser)
  else
  (* Continue statement *)
  let '(m, parser) := parser_match parser TOKEN_CONTINUE in
  if m then
    let tok := previous parser in
    Some (Some (ast_create_continue (line tok) (column tok)), parser)
  else
  (* Default: expression statement *)
  let* (expr, parser) := parser_parse_expression fuel parser in
  match expr with
  | None => Some (None, parser)
  | Some e =>
      Some (Some (ast_create_expr_stmt expr (node_line e) (node_column e)), parser)
  end
  end.

(** The [do { ... } while (parser_match(parser, TOKEN_COMMA))] that collects
    the parameters of a function declaration. *)
Fixpoint parse_parameter_list (fuel : nat) (params : option (list FunctionParameter))
    (parser : Parser) {struct fuel}
    : option (option (list FunctionParameter) * Parser) :=
  match fuel with O => None | S fuel =>
  let '(param, parser) :=
    parser_expect parser TOKEN_IDENTIFIER "Expected parameter name" in
  let param_name := start param in
  (* Check for type annotation: param: type *)
  let '(m, parser) := parser_match parser TOKEN_COLON in
  let '(param_type, parser) :=
    if m then
      let '(type_token, parser) :=
        parser_expect parser TOKEN_IDENTIFIER "Expected parameter type" in
      (Some (start type_token), parser)
    else (None, parser) in
  (* Create parameter object *)
  let param_obj := ast_create_parameter param_name param_type None in
  let params := ast_list_append params param_obj in
  let '(m, parser) := parser_match parser TOKEN_COMMA in
  if m then parse_parameter_list fuel params parser
  else Some (params, parser)
  end.

(** Parse function declaration: func name(params) { ... } or
    func name(params) -> type { ... } *)
Definition parse_function_declaration (fuel : nat) (parser : Parser) : Result :=
  match fuel with O => None | S fuel =>
  let func_token := previous parser in
  (* Parse function name *)
  let '(name_token, parser) :=
    parser_expect parser TOKEN_IDENTIFIER "Expected function name" in
  let func_name := start name_token in
  (* Parse parameter list *)
  let '(_, parser) :=
    parser_expect parser TOKEN_LEFT_PAREN "Expected '(' after function name" in
  let params := ast_list_create in
  let* (params, parser) :=
    if negb (parser_check parser TOKEN_RIGHT_PAREN)
    then parse_parameter_list fuel params parser
    else Some (params, parser) in
  let '(_, parser) :=
    parser_expect parser TOKEN_RIGHT_PAREN "Expected ')' after parameters" in
  (* Check for return type annotation: -> type *)
  let '(m, parser) := parser_match parser TOKEN_ARROW in
  let '(return_type, parser) :=
    if m then
      let '(type_token, parser) :=
        parser_expect parser TOKEN_IDENTIFIER "Expected return type" in
      (Some (start type_token), parser)
    else (None, parser) in
  (* Parse function body *)
  let* (body, parser) := parse_block_statement fuel parser in
  Some (Some (ast_create_function func_name params body return_type
                                  (line func_token) (column func_token)), parser)
  end.

Definition parser_parse_declaration (fuel : nat) (parser : Parser) : Result :=
  match fuel with O => None | S fuel =>
  (* Function declaration *)
  let '(m, parser) := parser_match parser TOKEN_FUNC in
  if m then parse_function_declaration fuel parser
  else (* Otherwise, parse as statement *)
       parser_parse_statement fuel parser
  end.

(* ================================================================= *)
(** ** Main parse function *)

(** [while (!parser_is_at_end(parser))] of [parser_parse]. *)
Fixpoint parser_parse_loop (fuel : nat) (declarations : option (list (option AstNode)))
    (parser : Parser) {struct fuel}
    : option (option (list (option AstNode)) * Parser) :=
  match fuel with O => None | S fuel =>
  if negb (parser_is_at_end parser) then
    let* (decl, parser) := parser_parse_declaration fuel parser in
    let declarations :=
      match decl with
      | Some _ => ast_list_append declarations decl
      | None => declarations
      end in
    let* parser :=
      if panic_mode parser then parser_synchronize fuel parser else Some parser in
    parser_parse_loop fuel declarations parser
  else Some (declarations, parser)
  end.

(** On error the declarations are freed and NULL is returned; otherwise the
    list is handed to the program node. *)
Definition parser_parse (fuel : nat) (parser : Parser) : Result :=
  let declarations := ast_list_create in
  let* (declarations, parser) := parser_parse_loop fuel declarations parser in
  if had_error parser then Some (None, parser)
  else Some (Some (ast_create_program declarations), parser).

(* ================================================================= *)
(** ** Running the parser on source text *)

(** The contents of a [Parser] variable before [parser_init]: nothing that
    is read depends on it except [previous] right after initialisation,
    whose type [parser_synchronize] looks at.  This is the variable in
    zeroed memory; [parser_after] below is the parser for other
    contents. *)
Definition uninitialised : Parser :=
  mkParser (lexer_init "") (make_token TOKEN_EOF "" 0 0)
           (make_token TOKEN_EOF "" 0 0) false false [].

Definition parser_on (source : string) : Parser :=
  parser_init uninitialised (lexer_init source).

(** The parser of a source text when the [current] field of the caller's
    variable, which [parser_init] does not set and copies into [previous],
    held the token [garbage]. *)
Definition parser_after (garbage : Token) (source : string) : Parser :=
  parser_init
    (mkParser (lexer_init "") garbage (make_token TOKEN_EOF "" 0 0) false false [])
    (lexer_init source).

(** The tokens [lexer_next_token] hands out for a source text, up to and
    including the end-of-file token. *)
Fixpoint tokens_from (fuel : nat) (lx : Lexer) : list Token :=
  let '(tok, lx) := lexer_next_token lx in
  if type tok ==t TOKEN_EOF then [tok]
  else match fuel with
       | O => [tok]
       | S n => tok :: tokens_from n lx
       end.

Definition tokens_of (source : string) : list Token :=
  tokens_from (String.length source) (lexer_init source).

(** A string holding one double quote character. *)
Definition dquote : string := String "034"%char EmptyString.

(** The source text [print("Hello")]. *)
Definition print_hello : string := "print(" ++ dquote ++ "Hello" ++ dquote ++ ")".

(* ================================================================= *)
(** ** The lexer test program ([test_lexer.c])

    [do { token = lexer_next_token(&lexer); print the token }
     while (token.type != TOKEN_EOF && token.type != TOKEN_ERROR);]
    The result is the list of the tokens printed, one line each. *)
Fixpoint test_lexer_loop (fuel : nat) (lx : Lexer) {struct fuel}
    : option (list Token) :=
  match fuel with O => None | S fuel =>
  let '(token, lx) := lexer_next_token lx in
  if negb (type token ==t TOKEN_EOF) && negb (type token ==t TOKEN_ERROR)
  then
    match test_lexer_loop fuel lx with
    | Some tokens => Some (token :: tokens)
    | None => None
    end
  else Some [token]
  end.

(* ================================================================= *)
(** ** Vocabulary of the properties *)

(** The tokens still to be looked at: the unread characters, and the current
    token unless it is the end of the file. *)
Definition remaining (p : Parser) : nat :=
  (unread (lexer p) + (if type (current p) ==t TOKEN_EOF then 0 else 1))%nat.

(** Two parser states have the same cursor when they differ at most in the
    flags and in what has been printed. *)
Definition same_cursor (p q : Parser) : Prop :=
  lexer p = lexer q /\ current p = current q /\ previous p = previous q.

(** In every state the parser gets into, panic mode implies that an error
    has been flagged. *)
Definition consistent (p : Parser) : Prop :=
  panic_mode p = true -> had_error p = true.

(** [continues p p']: going from state [p] to state [p'] keeps a set
    [had_error] set, only adds to what has been printed, and keeps the
    state consistent. *)
Definition continues (p p' : Parser) : Prop :=
  (had_error p = true -> had_error p' = true)
  /\ (exists more, stderr p' = (stderr p ++ more)%list)
  /\ (consistent p -> consistent p').

(** Bookkeeping for proofs: [reached p q] records that the computation
    under study, started in [p], has got to state [q]. *)
Definition reached (p q : Parser) : Prop := continues p q.

(** [returns call p]: the call returns from state [p], and leaves no more
    tokens to look at than it found. *)
Definition returns {A : Type} (call : Parser -> option (A * Parser)) (p : Parser)
    : Prop :=
  exists r p', call p = Some (r, p') /\ (remaining p' <= remaining p)%nat.

(** Fuel that is enough for a function of call depth [rank] in state [p]. *)
Definition enough (rank : nat) (p : Parser) (fuel : nat) : Prop :=
  (rank + 12 * remaining p <= fuel)%nat.

(** The tokens that open a postfix operation. *)
Definition opens_postfix (t : TokenType) : bool :=
  match t with
  | TOKEN_LEFT_PAREN | TOKEN_LEFT_BRACKET | TOKEN_DOT => true
  | _ => false
  end.

(** The tokens [parser_parse_statement] dispatches on before it falls back
    to an expression. *)
Definition statement_keyword (t : TokenType) : bool :=
  match t with
  | TOKEN_IDENTIFIER | TOKEN_IF | TOKEN_WHILE | TOKEN_FOR | TOKEN_LOOP
  | TOKEN_RETURN | TOKEN_BREAK | TOKEN_CONTINUE => true
  | _ => false
  end.

(** The tokens [parser_parse_primary] accepts. *)
Definition starts_primary (t : TokenType) : bool :=
  match t with
  | TOKEN_INT | TOKEN_FLOAT | TOKEN_STRING | TOKEN_TRUE | TOKEN_FALSE
  | TOKEN_IDENTIFIER | TOKEN_LEFT_PAREN | TOKEN_LEFT_BRACKET => true
  | _ => false
  end.

(** The tokens [parser_parse_primary] tests for first: on these it returns
    NULL at once, without a diagnostic. *)
Definition closes_or_ends (t : TokenType) : bool :=
  match t with
  | TOKEN_RIGHT_PAREN | TOKEN_RIGHT_BRACKET | TOKEN_EOF => true
  | _ => false
  end.

(** The tokens on which the expression parser does something: those that
    start a primary, the prefix operators, the binary operators, and the
    member-access dot (taken by the postfix loop even after a missing
    primary). *)
Definition expression_token (t : TokenType) : bool :=
  match t with
  | TOKEN_INT | TOKEN_FLOAT | TOKEN_STRING | TOKEN_TRUE | TOKEN_FALSE
  | TOKEN_IDENTIFIER | TOKEN_LEFT_PAREN | TOKEN_LEFT_BRACKET
  | TOKEN_MINUS | TOKEN_NOT | TOKEN_TILDE
  | TOKEN_STAR | TOKEN_SLASH | TOKEN_PERCENT | TOKEN_PLUS
  | TOKEN_LESS | TOKEN_GREATER | TOKEN_LESS_EQUAL | TOKEN_GREATER_EQUAL
  | TOKEN_EQUAL_EQUAL | TOKEN_NOT_EQUAL | TOKEN_AND | TOKEN_OR
  | TOKEN_DOT => true
  | _ => false
  end.

(** A closing parenthesis or bracket. *)
Definition stray_closer (t : TokenType) : bool :=
  match t with
  | TOKEN_RIGHT_PAREN | TOKEN_RIGHT_BRACKET => true
  | _ => false
  end.

(** The tokens at which [parser_synchronize] stops. *)
Definition starts_construct (t : TokenType) : bool :=
  match t with
  | TOKEN_FUNC | TOKEN_IF | TOKEN_WHILE | TOKEN_FOR | TOKEN_LOOP
  | TOKEN_RETURN | TOKEN_IMPORT | TOKEN_CLASS => true
  | _ => false
  end.

(** The states in which the loop of [parser_synchronize] stops: at the end
    of the input, after a newline token, or on a token that starts a
    construct. *)
Definition resynchronised (p : Parser) : bool :=
  (type (current p) ==t TOKEN_EOF)
  || (type (previous p) ==t TOKEN_NEWLINE)
  || starts_construct (type (current p)).

(** [import] and [class] start no statement the parser knows, yet
    [parser_synchronize] stops on them. *)
Definition unparsed_construct (t : TokenType) : bool :=
  match t with
  | TOKEN_IMPORT | TOKEN_CLASS => true
  | _ => false
  end.

(** [postfix_chain base e]: [e] is [base] wrapped in calls, index
    operations and member accesses, [base] innermost. *)
Inductive postfix_chain (base : AstNode) : AstNode -> Prop :=
  | chain_base : postfix_chain base base
  | chain_call e args l c :
      postfix_chain base e ->
      postfix_chain base (AST_CALL_EXPR l c (Some e) args)
  | chain_index e index l c :
      postfix_chain base e ->
      postfix_chain base (AST_INDEX_EXPR l c (Some e) index)
  | chain_member e member l c :
      postfix_chain base e ->
      postfix_chain base (AST_MEMBER_EXPR l c (Some e) member).

(** A call that, if it returns at all, returns NULL in the state [p] it was
    made in. *)
Definition idles {A : Type} (r : option (option A * Parser)) (p : Parser) : Prop :=
  r = None \/ r = Some (None, p).

(** The state in which [parse_for_statement] looks for [in]: after one
    name, or after a name, a comma and what should be a second name. *)
Definition for_after_names (p : Parser) : Parser :=
  let '(_, p) :=
    parser_expect p TOKEN_IDENTIFIER "Expected variable name in for loop" in
  let '(m, p) := parser_match p TOKEN_COMMA in
  if m then snd (parser_expect p TOKEN_IDENTIFIER "Expected value variable after ','")
  else p.

(** The statements about all the functions of a mutual definition at once,
    as the inductions on the fuel need them. *)
Definition expression_parsers_return (n : nat) : Prop :=
  (forall p, enough 1 p n -> returns (parser_parse_primary n) p)
  /\ (forall items p, enough 11 p n -> returns (parse_expression_list n items) p)
  /\ (forall e p, enough 1 p n -> returns (fun p => parse_postfix_continue n p e) p)
  /\ (forall p, enough 2 p n -> returns (parse_postfix n) p)
  /\ (forall p, enough 3 p n -> returns (parse_unary n) p)
  /\ (forall p, enough 4 p n -> returns (parse_factor n) p)
  /\ (forall e p, enough 1 p n -> returns (fun p => parse_factor_loop n p e) p)
  /\ (forall p, enough 5 p n -> returns (parse_term n) p)
  /\ (forall e p, enough 1 p n -> returns (fun p => parse_term_loop n p e) p)
  /\ (forall p, enough 6 p n -> returns (parse_comparison n) p)
  /\ (forall e p, enough 1 p n -> returns (fun p => parse_comparison_loop n p e) p)
  /\ (forall p, enough 7 p n -> returns (parse_equality n) p)
  /\ (forall e p, enough 1 p n -> returns (fun p => parse_equality_loop n p e) p)
  /\ (forall p, enough 8 p n -> returns (parse_logical_and n) p)
  /\ (forall e p, enough 1 p n -> returns (fun p => parse_logical_and_loop n p e) p)
  /\ (forall p, enough 9 p n -> returns (parse_logical_or n) p)
  /\ (forall e p, enough 1 p n -> returns (fun p => parse_logical_or_loop n p e) p)
  /\ (forall p, enough 10 p n -> returns (parser_parse_expression n) p).

Definition expression_parsers_continue (n : nat) : Prop :=
  (forall p r p', parser_parse_primary n p = Some (r, p') -> continues p p')
  /\ (forall items p r p',
        parse_expression_list n items p = Some (r, p') -> continues p p')
  /\ (forall p e r p',
        parse_postfix_continue n p e = Some (r, p') -> continues p p')
  /\ (forall p r p', parse_postfix n p = Some (r, p') -> continues p p')
  /\ (forall p r p', parse_unary n p = Some (r, p') -> continues p p')
  /\ (forall p r p', parse_factor n p = Some (r, p') -> continues p p')
  /\ (forall p e r p', parse_factor_loop n p e = Some (r, p') -> continues p p')
  /\ (forall p r p', parse_term n p = Some (r, p') -> continues p p')
  /\ (forall p e r p', parse_term_loop n p e = Some (r, p') -> continues p p')
  /\ (forall p r p', parse_comparison n p = Some (r, p') -> continues p p')
  /\ (forall p e r p',
        parse_comparison_loop n p e = Some (r, p') -> continues p p')
  /\ (forall p r p', parse_equality n p = Some (r, p') -> continues p p')
  /\ (forall p e r p', parse_equality_loop n p e = Some (r, p') -> continues p p')
  /\ (forall p r p', parse_logical_and n p = Some (r, p') -> continues p p')
  /\ (forall p e r p',
        parse_logical_and_loop n p e = Some (r, p') -> continues p p')
  /\ (forall p r p', parse_logical_or n p = Some (r, p') -> continues p p')
  /\ (forall p e r p',
        parse_logical_or_loop n p e = Some (r, p') -> continues p p')
  /\ (forall p r p', parser_parse_expression n p = Some (r, p') -> continues p p').

Definition statement_parsers_continue (n : nat) : Prop :=
  (forall p r p', parse_block_statement n p = Some (r, p') -> continues p p')
  /\ (forall stmts p r p',
        parse_block_loop n stmts p = Some (r, p') -> continues p p')
  /\ (forall p r p', parse_if_statement n p = Some (r, p') -> continues p p')
  /\ (forall p r p', parse_while_statement n p = Some (r, p') -> continues p p')
  /\ (forall p r p', parse_for_statement n p = Some (r, p') -> continues p p')
  /\ (forall p r p', parse_loop_statement n p = Some (r, p') -> continues p p')
  /\ (forall p r p', parser_parse_statement n p = Some (r, p') -> continues p p').

Definition expression_parsers_grow (n m : nat) : Prop :=
  (forall p r, parser_parse_primary n p = Some r -> parser_parse_primary m p = Some r)
  /\ (forall items p r,
        parse_expression_list n items p = Some r ->
        parse_expression_list m items p = Some r)
  /\ (forall p e r,
        parse_postfix_continue n p e = Some r -> parse_postfix_continue m p e = Some r)
  /\ (forall p r, parse_postfix n p = Some r -> parse_postfix m p = Some r)
  /\ (forall p r, parse_unary n p = Some r -> parse_unary m p = Some r)
  /\ (forall p r, parse_factor n p = Some r -> parse_factor m p = Some r)
  /\ (forall p e r,
        parse_factor_loop n p e = Some r -> parse_factor_loop m p e = Some r)
  /\ (forall p r, parse_term n p = Some r -> parse_term m p = Some r)
  /\ (forall p e r, parse_term_loop n p e = Some r -> parse_term_loop m p e = Some r)
  /\ (forall p r, parse_comparison n p = Some r -> parse_comparison m p = Some r)
  /\ (forall p e r,
        parse_comparison_loop n p e = Some r -> parse_comparison_loop m p e = Some r)
  /\ (forall p r, parse_equality n p = Some r -> parse_equality m p = Some r)
  /\ (forall p e r,
        parse_equality_loop n p e = Some r -> parse_equality_loop m p e = Some r)
  /\ (forall p r, parse_logical_and n p = Some r -> parse_logical_and m p = Some r)
  /\ (forall p e r,
        parse_logical_and_loop n p e = Some r ->
        parse_logical_and_loop m p e = Some r)
  /\ (forall p r, parse_logical_or n p = Some r -> parse_logical_or m p = Some r)
  /\ (forall p e r,
        parse_logical_or_loop n p e = Some r -> parse_logical_or_loop m p e = Some r)
  /\ (forall p r,
        parser_parse_expression n p = Some r -> parser_parse_expression m p = Some r).

Definition statement_parsers_grow (n m : nat) : Prop :=
  (forall p r, parse_block_statement n p = Some r -> parse_block_statement m p = Some r)
  /\ (forall stmts p r,
        parse_block_loop n stmts p = Some r -> parse_block_loop m stmts p = Some r)
  /\ (forall p r, parse_if_statement n p = Some r -> parse_if_statement m p = Some r)
  /\ (forall p r,
        parse_while_statement n p = Some r -> parse_while_statement m p = Some r)
  /\ (forall p r, parse_for_statement n p = Some r -> parse_for_statement m p = Some r)
  /\ (forall p r,
        parse_loop_statement n p = Some r -> parse_loop_statement m p = Some r)
  /\ (forall p r,
        parser_parse_statement n p = Some r -> parser_parse_statement m p = Some r).

(** *** Vocabulary of the lexer properties *)

(** [scans lx lx']: the lexer has gone from [lx] to [lx'] by stepping over
    characters, each of which went from the unread text to the lexeme. *)
Definition scans (lx lx' : Lexer) : Prop :=
  exists s, lex_start lx' = lex_start lx ++ s
            /\ lex_current lx = s ++ lex_current lx'.

(** The characters [skip_whitespace] steps over one at a time. *)
Definition blank (c : ascii) : bool :=
  Ascii.eqb c " " || Ascii.eqb c "013" || Ascii.eqb c "009" || Ascii.eqb c newline.

(** The lexer stands where a token starts (or at the end of the text):
    not on a blank and not on the opening of a comment. *)
Definition at_token_start (lx : Lexer) : bool :=
  negb (blank (peek lx))
  && negb (Ascii.eqb (peek lx) "/"
           && (Ascii.eqb (peek_next lx) "/" || Ascii.eqb (peek_next lx) "*")).

(** The lexer between the white space and the token: the state after
    [lexer->start = lexer->current] in [lexer_next_token]. *)
Definition token_start (lx : Lexer) : Lexer :=
  let l := skip_whitespace lx in
  mkLexer "" (lex_current l) (lex_line l) (lex_column l).

(** The lexer right after the first character [c] of a token. *)
Definition after_first (lx : Lexer) (c : ascii) (rest : string) : Lexer :=
  mkLexer (String c "") rest (lex_line (token_start lx))
          (lex_column (token_start lx) + 1).

(** The operator and delimiter tokens. *)
Definition symbol_token (t : TokenType) : bool :=
  match t with
  | TOKEN_PLUS | TOKEN_MINUS | TOKEN_STAR | TOKEN_SLASH | TOKEN_PERCENT
  | TOKEN_EQUAL | TOKEN_EQUAL_EQUAL | TOKEN_NOT_EQUAL | TOKEN_LESS
  | TOKEN_GREATER | TOKEN_LESS_EQUAL | TOKEN_GREATER_EQUAL | TOKEN_AND
  | TOKEN_OR | TOKEN_NOT | TOKEN_AMPERSAND | TOKEN_PIPE | TOKEN_CARET
  | TOKEN_TILDE | TOKEN_DOT_DOT | TOKEN_DOT_DOT_EQUAL
  | TOKEN_LEFT_PAREN | TOKEN_RIGHT_PAREN | TOKEN_LEFT_BRACE | TOKEN_RIGHT_BRACE
  | TOKEN_LEFT_BRACKET | TOKEN_RIGHT_BRACKET | TOKEN_COMMA | TOKEN_COLON
  | TOKEN_DOT | TOKEN_ARROW => true
  | _ => false
  end.

(** The two characters that open a string. *)
Definition is_quote (c : ascii) : bool := Ascii.eqb c "034" || Ascii.eqb c "'".

(** The token types [identifier_type] chooses from. *)
Definition word_token (t : TokenType) : bool :=
  match t with
  | TOKEN_IDENTIFIER | TOKEN_TRUE | TOKEN_FALSE
  | TOKEN_FUNC | TOKEN_RETURN | TOKEN_IF | TOKEN_ELSE | TOKEN_WHILE | TOKEN_FOR
  | TOKEN_IN | TOKEN_LOOP | TOKEN_BREAK | TOKEN_CONTINUE | TOKEN_IMPORT
  | TOKEN_EXPORT | TOKEN_CLASS | TOKEN_THIS | TOKEN_TRY | TOKEN_CATCH
  | TOKEN_FINALLY => true
  | _ => false
  end.

(** The branches of [lexer_next_token], and the one a token of a given
    type comes from; no branch makes a [TOKEN_CHAR] or a [TOKEN_NEWLINE]. *)
Inductive TokenClass : Type :=
  | CLASS_EOF | CLASS_WORD | CLASS_NUMBER | CLASS_STRING | CLASS_SYMBOL | CLASS_ERROR.

Definition token_class (t : TokenType) : option TokenClass :=
  match t with
  | TOKEN_EOF => Some CLASS_EOF
  | TOKEN_INT | TOKEN_FLOAT => Some CLASS_NUMBER
  | TOKEN_STRING => Some CLASS_STRING
  | TOKEN_ERROR => Some CLASS_ERROR
  | TOKEN_CHAR | TOKEN_NEWLINE => None
  | _ => if word_token t then Some CLASS_WORD else Some CLASS_SYMBOL
  end.

(** The text holds the two characters that close a block comment. *)
Fixpoint closes_comment (s : string) : bool :=
  match s with
  | EmptyString => false
  | String c rest =>
      (Ascii.eqb c "*"
       && match rest with String d _ => Ascii.eqb d "/" | EmptyString => false end)
      || closes_comment rest
  end.

(** The words [identifier_type] tells from identifiers, as its
    [check_keyword] calls spell them. *)
Definition keywords : list (string * TokenType) :=
  [ ("break", TOKEN_BREAK); ("catch", TOKEN_CATCH); ("class", TOKEN_CLASS);
    ("continue", TOKEN_CONTINUE); ("else", TOKEN_ELSE); ("export", TOKEN_EXPORT);
    ("false", TOKEN_FALSE); ("finally", TOKEN_FINALLY); ("for", TOKEN_FOR);
    ("func", TOKEN_FUNC); ("if", TOKEN_IF); ("import", TOKEN_IMPORT);
    ("in", TOKEN_IN); ("loop", TOKEN_LOOP); ("return", TOKEN_RETURN);
    ("this", TOKEN_THIS); ("true", TOKEN_TRUE); ("try", TOKEN_TRY);
    ("while", TOKEN_WHILE) ].

Fixpoint lookup_keyword (table : list (string * TokenType)) (word : string)
    : TokenType :=
  match table with
  | [] => TOKEN_IDENTIFIER
  | (spelling, t) :: rest =>
      if String.eqb spelling word then t else lookup_keyword rest word
  end.

(** The type of a word: the keyword it spells, or an identifier. *)
Definition keyword_of (word : string) : TokenType := lookup_keyword keywords word.

(** [isalnum(c) || c == '_'], the characters an identifier goes on with. *)
Definition word_char (c : ascii) : bool := isalnum c || Ascii.eqb c "_".

(** Every character of the text passes the test. *)
Definition all_chars (test : ascii -> bool) (s : string) : bool :=
  forallb test (list_ascii_of_string s).

(** The text ends in a backslash.  After a backslash [string] steps over
    the next character without looking at it; when that is the terminating
    NUL the source leaves the buffer, which the model does not follow (see
    [advance]).  A text that does not end in a backslash keeps the source
    inside the buffer. *)
Fixpoint ends_in_backslash (s : string) : bool :=
  match s with
  | EmptyString => false
  | String c EmptyString => Ascii.eqb c "\"
  | String _ rest => ends_in_backslash rest
  end.

(** The token that ends the output of the lexer test program. *)
Definition ends_dump (t : TokenType) : bool :=
  (t ==t TOKEN_EOF) || (t ==t TOKEN_ERROR).

(** *** Vocabulary of the parser properties *)

(** [parser_steps p q]: state [q] comes from state [p] by fetching tokens
    and reporting errors, and by nothing else. *)
Inductive parser_steps (p : Parser) : Parser -> Prop :=
  | steps_none : parser_steps p p
  | steps_advance q : parser_steps p q -> parser_steps p (parser_advance q)
  | steps_error_at q tok msg :
      parser_steps p q -> parser_steps p (parser_error_at q tok msg).

(** [reports_at_most_once p q]: from [p] to [q] either the flags and the
    diagnostics are untouched, or exactly one diagnostic was printed, which
    took the parser from normal mode into panic mode and set [had_error]. *)
Definition reports_at_most_once (p q : Parser) : Prop :=
  (panic_mode q = panic_mode p /\ had_error q = had_error p
   /\ stderr q = stderr p)
  \/ (panic_mode p = false /\ panic_mode q = true /\ had_error q = true
      /\ exists tok msg, stderr q = (stderr p ++ [(tok, msg)])%list).

(** The unread text of [q] is the end of the unread text of [p]. *)
Definition reads_forward (p q : Parser) : Prop :=
  exists text, lex_current (lexer p) = text ++ lex_current (lexer q).

(** The diagnostics and the flags agree: [had_error] is set exactly when
    something has been printed, and panic mode is only on after an error. *)
Definition flags_agree (p : Parser) : Prop :=
  (had_error p = true <-> stderr p <> [])
  /\ (panic_mode p = true -> had_error p = true).

(** *** The tokens each level of the grammar starts on *)

Definition prefix_operator (t : TokenType) : bool :=
  match t with TOKEN_MINUS | TOKEN_NOT | TOKEN_TILDE => true | _ => false end.

Definition factor_operator (t : TokenType) : bool :=
  match t with TOKEN_STAR | TOKEN_SLASH | TOKEN_PERCENT => true | _ => false end.

Definition term_operator (t : TokenType) : bool :=
  match t with TOKEN_PLUS | TOKEN_MINUS => true | _ => false end.

Definition comparison_operator (t : TokenType) : bool :=
  match t with
  | TOKEN_LESS | TOKEN_GREATER | TOKEN_LESS_EQUAL | TOKEN_GREATER_EQUAL => true
  | _ => false
  end.

Definition equality_operator (t : TokenType) : bool :=
  match t with TOKEN_EQUAL_EQUAL | TOKEN_NOT_EQUAL => true | _ => false end.

Definition and_operator (t : TokenType) : bool :=
  match t with TOKEN_AND => true | _ => false end.

Definition or_operator (t : TokenType) : bool :=
  match t with TOKEN_OR => true | _ => false end.

Definition comma (t : TokenType) : bool :=
  match t with TOKEN_COMMA => true | _ => false end.

(** The tokens of the binary operators of the expression grammar. *)
Definition binary_operator (t : TokenType) : bool :=
  factor_operator t || term_operator t || comparison_operator t
  || equality_operator t || and_operator t || or_operator t.

(** The operators [parse_term_loop] and [parse_factor_loop] make of the
    token they have matched ([bin_op] of the source). *)
Definition additive (t : TokenType) : BinaryOp :=
  if t ==t TOKEN_PLUS then OP_ADD else OP_SUB.

Definition multiplicative (t : TokenType) : BinaryOp :=
  if t ==t TOKEN_STAR then OP_MUL
  else if t ==t TOKEN_SLASH then OP_DIV
  else OP_MOD.

(** The node of a binary operation, at the position of its operator
    token. *)
Definition binary_at (tok : Token) (op : BinaryOp) (lhs rhs : option AstNode)
    : option AstNode :=
  Some (ast_create_binary op lhs rhs (line tok) (column tok)).

Definition starts_postfix t := starts_primary t || opens_postfix t.
Definition starts_unary t := prefix_operator t || starts_postfix t.
Definition starts_factor t := starts_unary t || factor_operator t.
Definition starts_term t := starts_factor t || term_operator t.
Definition starts_comparison t := starts_term t || comparison_operator t.
Definition starts_equality t := starts_comparison t || equality_operator t.
Definition starts_logical_and t := starts_equality t || and_operator t.
Definition starts_logical_or t := starts_logical_and t || or_operator t.
Definition starts_expression_list t := starts_logical_or t || comma t.

(** The tokens a statement and a declaration start on. *)
Definition starts_statement (t : TokenType) : bool :=
  statement_keyword t || starts_logical_or t.

Definition func_keyword (t : TokenType) : bool :=
  match t with TOKEN_FUNC => true | _ => false end.

Definition starts_declaration (t : TokenType) : bool :=
  func_keyword t || starts_statement t.

(** The tokens on which one turn of the loop of [parser_parse] gets
    nowhere. *)
Definition stalls (t : TokenType) : bool := stray_closer t || unparsed_construct t.

(** The state a parse that finds no construct leaves: untouched on [)],
    []] and the end of the input, with "Expected expression" reported
    otherwise. *)
Definition found_nothing (p : Parser) : Parser :=
  if closes_or_ends (type (current p)) then p
  else parser_error_at_current p "Expected expression".

(** [consumes_from set p r p']: a call made in state [p] that returned [r]
    in state [p'] has used up at least one token if the current token of
    [p] is in [set]; otherwise it has returned NULL with the cursor where
    it was. *)
Definition consumes_from (set : TokenType -> bool) (p : Parser)
    (r : option AstNode) (p' : Parser) : Prop :=
  ((remaining p' < remaining p)%nat /\ set (type (current p)) = true)
  \/ (same_cursor p' p /\ r = None /\ set (type (current p)) = false).

(** The same for the loop of a binary operator, which is handed the left
    operand [e]: on a token that is none of its operators it returns [e]
    in the state it was called in. *)
Definition continues_from (set : TokenType -> bool) (p : Parser)
    (e r : option AstNode) (p' : Parser) : Prop :=
  ((remaining p' < remaining p)%nat /\ set (type (current p)) = true)
  \/ (p' = p /\ r = e /\ set (type (current p)) = false).

(** *** The shape of the trees the parser builds *)

(** The binary operators the expression parser makes nodes for. *)
Definition parsed_operator (op : BinaryOp) : bool :=
  match op with
  | OP_BIT_AND | OP_BIT_OR | OP_BIT_XOR | OP_SHL | OP_SHR => false
  | _ => true
  end.

Definition is_some {A : Type} (o : option A) : bool :=
  match o with Some _ => true | None => false end.

Definition no_default (param : FunctionParameter) : bool :=
  match param with mkParameter _ _ default_value => negb (is_some default_value) end.

(** [parsed_form node]: the shape of the trees the parser builds. *)
Fixpoint parsed_form (node : AstNode) : bool :=
  let child (o : option AstNode) :=
    match o with Some n => parsed_form n | None => true end in
  let children (l : option (list (option AstNode))) :=
    match l with Some items => forallb child items | None => false end in
  match node with
  | AST_BINARY_EXPR _ _ op lhs rhs =>
      parsed_operator op && child lhs && child rhs
  | AST_UNARY_EXPR _ _ _ operand => child operand
  | AST_LITERAL_EXPR _ _ literal =>
      match literal with LIT_NULL => false | _ => true end
  | AST_IDENTIFIER_EXPR _ _ _ => true
  | AST_CALL_EXPR _ _ callee arguments => child callee && children arguments
  | AST_INDEX_EXPR _ _ object index => child object && child index
  | AST_MEMBER_EXPR _ _ object _ => child object
  | AST_ARRAY_EXPR _ _ elements => children elements
  | AST_VAR_DECL _ _ _ _ initializer => child initializer
  | AST_EXPR_STMT _ _ expr => is_some expr && child expr
  | AST_IF_STMT _ _ condition then_branch else_branch =>
      is_some condition && child condition && child then_branch && child else_branch
  | AST_WHILE_STMT _ _ condition body =>
      is_some condition && child condition && child body
  | AST_FOR_STMT _ _ _ iterable body _ =>
      is_some iterable && child iterable && child body
  | AST_LOOP_STMT _ _ body => child body
  | AST_RETURN_STMT _ _ value => child value
  | AST_BREAK_STMT _ _ | AST_CONTINUE_STMT _ _ => true
  | AST_BLOCK_STMT _ _ statements =>
      children statements
      && match statements with Some items => forallb is_some items | None => false end
  | AST_FUNCTION_DECL _ _ _ parameters body _ =>
      match parameters with Some params => forallb no_default params | None => false end
      && is_some body && child body
  | AST_DICT_EXPR _ _ _ | AST_ASSIGN_STMT _ _ _ _ | AST_CLASS_DECL _ _ _ _ _
  | AST_IMPORT_STMT _ _ _ | AST_PROGRAM _ _ _ => false
  end.

Definition parsed_child (o : option AstNode) : bool :=
  match o with Some n => parsed_form n | None => true end.

Definition parsed_children (l : option (list (option AstNode))) : bool :=
  match l with Some items => forallb parsed_child items | None => false end.

Definition parsed_statements (l : option (list (option AstNode))) : bool :=
  parsed_children l
  && match l with Some items => forallb is_some items | None => false end.

Definition parsed_parameters (l : option (list FunctionParameter)) : bool :=
  match l with Some params => forallb no_default params | None => false end.

(** *** The statements about the mutual definitions, all functions at once *)

Definition expression_parsers_step (n : nat) : Prop :=
  (forall p r p', parser_parse_primary n p = Some (r, p') -> parser_steps p p')
  /\ (forall items p r p',
        parse_expression_list n items p = Some (r, p') -> parser_steps p p')
  /\ (forall p e r p',
        parse_postfix_continue n p e = Some (r, p') -> parser_steps p p')
  /\ (forall p r p', parse_postfix n p = Some (r, p') -> parser_steps p p')
  /\ (forall p r p', parse_unary n p = Some (r, p') -> parser_steps p p')
  /\ (forall p r p', parse_factor n p = Some (r, p') -> parser_steps p p')
  /\ (forall p e r p', parse_factor_loop n p e = Some (r, p') -> parser_steps p p')
  /\ (forall p r p', parse_term n p = Some (r, p') -> parser_steps p p')
  /\ (forall p e r p', parse_term_loop n p e = Some (r, p') -> parser_steps p p')
  /\ (forall p r p', parse_comparison n p = Some (r, p') -> parser_steps p p')
  /\ (forall p e r p',
        parse_comparison_loop n p e = Some (r, p') -> parser_steps p p')
  /\ (forall p r p', parse_equality n p = Some (r, p') -> parser_steps p p')
  /\ (forall p e r p', parse_equality_loop n p e = Some (r, p') -> parser_steps p p')
  /\ (forall p r p', parse_logical_and n p = Some (r, p') -> parser_steps p p')
  /\ (forall p e r p',
        parse_logical_and_loop n p e = Some (r, p') -> parser_steps p p')
  /\ (forall p r p', parse_logical_or n p = Some (r, p') -> parser_steps p p')
  /\ (forall p e r p',
        parse_logical_or_loop n p e = Some (r, p') -> parser_steps p p')
  /\ (forall p r p', parser_parse_expression n p = Some (r, p') -> parser_steps p p').

Definition statement_parsers_step (n : nat) : Prop :=
  (forall p r p', parse_block_statement n p = Some (r, p') -> parser_steps p p')
  /\ (forall stmts p r p',
        parse_block_loop n stmts p = Some (r, p') -> parser_steps p p')
  /\ (forall p r p', parse_if_statement n p = Some (r, p') -> parser_steps p p')
  /\ (forall p r p', parse_while_statement n p = Some (r, p') -> parser_steps p p')
  /\ (forall p r p', parse_for_statement n p = Some (r, p') -> parser_steps p p')
  /\ (forall p r p', parse_loop_statement n p = Some (r, p') -> parser_steps p p')
  /\ (forall p r p', parser_parse_statement n p = Some (r, p') -> parser_steps p p').

Definition expression_parsers_form (n : nat) : Prop :=
  (forall p r p', parser_parse_primary n p = Some (r, p') -> parsed_child r = true)
  /\ (forall items p r p',
        parse_expression_list n items p = Some (r, p') ->
        parsed_children items = true -> parsed_children r = true)
  /\ (forall p e r p',
        parse_postfix_continue n p e = Some (r, p') ->
        parsed_child e = true -> parsed_child r = true)
  /\ (forall p r p', parse_postfix n p = Some (r, p') -> parsed_child r = true)
  /\ (forall p r p', parse_unary n p = Some (r, p') -> parsed_child r = true)
  /\ (forall p r p', parse_factor n p = Some (r, p') -> parsed_child r = true)
  /\ (forall p e r p',
        parse_factor_loop n p e = Some (r, p') ->
        parsed_child e = true -> parsed_child r = true)
  /\ (forall p r p', parse_term n p = Some (r, p') -> parsed_child r = true)
  /\ (forall p e r p',
        parse_term_loop n p e = Some (r, p') ->
        parsed_child e = true -> parsed_child r = true)
  /\ (forall p r p', parse_comparison n p = Some (r, p') -> parsed_child r = true)
  /\ (forall p e r p',
        parse_comparison_loop n p e = Some (r, p') ->
        parsed_child e = true -> parsed_child r = true)
  /\ (forall p r p', parse_equality n p = Some (r, p') -> parsed_child r = true)
  /\ (forall p e r p',
        parse_equality_loop n p e = Some (r, p') ->
        parsed_child e = true -> parsed_child r = true)
  /\ (forall p r p', parse_logical_and n p = Some (r, p') -> parsed_child r = true)
  /\ (forall p e r p',
        parse_logical_and_loop n p e = Some (r, p') ->
        parsed_child e = true -> parsed_child r = true)
  /\ (forall p r p', parse_logical_or n p = Some (r, p') -> parsed_child r = true)
  /\ (forall p e r p',
        parse_logical_or_loop n p e = Some (r, p') ->
        parsed_child e = true -> parsed_child r = true)
  /\ (forall p r p',
        parser_parse_expression n p = Some (r, p') -> parsed_child r = true).

Definition statement_parsers_form (n : nat) : Prop :=
  (forall p r p',
      parse_block_statement n p = Some (r, p') ->
      is_some r = true /\ parsed_child r = true)
  /\ (forall stmts p r p',
        parse_block_loop n stmts p = Some (r, p') ->
        parsed_statements stmts = true -> parsed_statements r = true)
  /\ (forall p r p', parse_if_statement n p = Some (r, p') -> parsed_child r = true)
  /\ (forall p r p', parse_while_statement n p = Some (r, p') -> parsed_child r = true)
  /\ (forall p r p', parse_for_statement n p = Some (r, p') -> parsed_child r = true)
  /\ (forall p r p', parse_loop_statement n p = Some (r, p') -> parsed_child r = true)
  /\ (forall p r p', parser_parse_statement n p = Some (r, p') -> parsed_child r = true).

Definition expression_parsers_consume (n : nat) : Prop :=
  (forall p r p',
      parser_parse_primary n p = Some (r, p') -> consumes_from starts_primary p r p')
  /\ (forall items p r p',
        parse_expression_list n items p = Some (r, p') ->
        ((remaining p' < remaining p)%nat
         /\ starts_expression_list (type (current p)) = true)
        \/ (same_cursor p' p /\ r = ast_list_append items None
            /\ starts_expression_list (type (current p)) = false))
  /\ (forall p e r p',
        parse_postfix_continue n p e = Some (r, p') ->
        continues_from opens_postfix p e r p')
  /\ (forall p r p',
        parse_postfix n p = Some (r, p') -> consumes_from starts_postfix p r p')
  /\ (forall p r p',
        parse_unary n p = Some (r, p') -> consumes_from starts_unary p r p')
  /\ (forall p r p',
        parse_factor n p = Some (r, p') -> consumes_from starts_factor p r p')
  /\ (forall p e r p',
        parse_factor_loop n p e = Some (r, p') ->
        continues_from factor_operator p e r p')
  /\ (forall p r p',
        parse_term n p = Some (r, p') -> consumes_from starts_term p r p')
  /\ (forall p e r p',
        parse_term_loop n p e = Some (r, p') ->
        continues_from term_operator p e r p')
  /\ (forall p r p',
        parse_comparison n p = Some (r, p') ->
        consumes_from starts_comparison p r p')
  /\ (forall p e r p',
        parse_comparison_loop n p e = Some (r, p') ->
        continues_from comparison_operator p e r p')
  /\ (forall p r p',
        parse_equality n p = Some (r, p') -> consumes_from starts_equality p r p')
  /\ (forall p e r p',
        parse_equality_loop n p e = Some (r, p') ->
        continues_from equality_operator p e r p')
  /\ (forall p r p',
        parse_logical_and n p = Some (r, p') ->
        consumes_from starts_logical_and p r p')
  /\ (forall p e r p',
        parse_logical_and_loop n p e = Some (r, p') ->
        continues_from and_operator p e r p')
  /\ (forall p r p',
        parse_logical_or n p = Some (r, p') ->
        consumes_from starts_logical_or p r p')
  /\ (forall p e r p',
        parse_logical_or_loop n p e = Some (r, p') ->
        continues_from or_operator p e r p')
  /\ (forall p r p',
        parser_parse_expression n p = Some (r, p') ->
        consumes_from starts_logical_or p r p').

(** [follows run1 run2]: if the first run returns, the second returns the
    same result, in a state with the same lexer, current and previous
    token. *)
Definition follows {A : Type} (run1 run2 : option (A * Parser)) : Prop :=
  match run1 with
  | Some (r, p') =>
      match run2 with
      | Some (r2, q') => r2 = r /\ same_cursor p' q'
      | None => False
      end
  | None => True
  end.

(** Every parsing function, run from two states with the same cursor. *)
Definition expression_parsers_follow (n : nat) : Prop :=
  (forall p q, same_cursor p q ->
     follows (parser_parse_primary n p) (parser_parse_primary n q))
  /\ (forall items p q, same_cursor p q ->
        follows (parse_expression_list n items p) (parse_expression_list n items q))
  /\ (forall e p q, same_cursor p q ->
        follows (parse_postfix_continue n p e) (parse_postfix_continue n q e))
  /\ (forall p q, same_cursor p q -> follows (parse_postfix n p) (parse_postfix n q))
  /\ (forall p q, same_cursor p q -> follows (parse_unary n p) (parse_unary n q))
  /\ (forall p q, same_cursor p q -> follows (parse_factor n p) (parse_factor n q))
  /\ (forall e p q, same_cursor p q ->
        follows (parse_factor_loop n p e) (parse_factor_loop n q e))
  /\ (forall p q, same_cursor p q -> follows (parse_term n p) (parse_term n q))
  /\ (forall e p q, same_cursor p q ->
        follows (parse_term_loop n p e) (parse_term_loop n q e))
  /\ (forall p q, same_cursor p q ->
        follows (parse_comparison n p) (parse_comparison n q))
  /\ (forall e p q, same_cursor p q ->
        follows (parse_comparison_loop n p e) (parse_comparison_loop n q e))
  /\ (forall p q, same_cursor p q -> follows (parse_equality n p) (parse_equality n q))
  /\ (forall e p q, same_cursor p q ->
        follows (parse_equality_loop n p e) (parse_equality_loop n q e))
  /\ (forall p q, same_cursor p q ->
        follows (parse_logical_and n p) (parse_logical_and n q))
  /\ (forall e p q, same_cursor p q ->
        follows (parse_logical_and_loop n p e) (parse_logical_and_loop n q e))
  /\ (forall p q, same_cursor p q ->
        follows (parse_logical_or n p) (parse_logical_or n q))
  /\ (forall e p q, same_cursor p q ->
        follows (parse_logical_or_loop n p e) (parse_logical_or_loop n q e))
  /\ (forall p q, same_cursor p q ->
        follows (parser_parse_expression n p) (parser_parse_expression n q)).

Definition statement_parsers_follow (n : nat) : Prop :=
  (forall p q, same_cursor p q ->
     follows (parse_block_statement n p) (parse_block_statement n q))
  /\ (forall stmts p q, same_cursor p q ->
        follows (parse_block_loop n stmts p) (parse_block_loop n stmts q))
  /\ (forall p q, same_cursor p q ->
        follows (parse_if_statement n p) (parse_if_statement n q))
  /\ (forall p q, same_cursor p q ->
        follows (parse_while_statement n p) (parse_while_statement n q))
  /\ (forall p q, same_cursor p q ->
        follows (parse_for_statement n p) (parse_for_statement n q))
  /\ (forall p q, same_cursor p q ->
        follows (parse_loop_statement n p) (parse_loop_statement n q))
  /\ (forall p q, same_cursor p q ->
        follows (parser_parse_statement n p) (parser_parse_statement n q)).


(* ================================================================= *)
(** * Properties *)

(** ** The lexer always makes progress *)

Lemma unread_advance_ lx : unread (advance_ lx) = pred (unread lx).
Proof.
  unfold advance_, advance, unread. destruct (lex_current lx); reflexivity.
Qed.

Lemma unread_set_line_column lx l c : unread (set_line_column lx l c) = unread lx.
Proof. reflexivity. Qed.

Lemma unread_advance_while pred fuel lx :
  (unread (advance_while pred fuel lx) <= unread lx)%nat.
Proof.
  revert lx. induction fuel as [|n IH]; intros lx; simpl; [lia|].
  destruct (pred (peek lx)); [|lia].
  specialize (IH (advance_ lx)). rewrite unread_advance_ in IH. lia.
Qed.

Lemma unread_skip_line_comment fuel lx :
  (unread (skip_line_comment fuel lx) <= unread lx)%nat.
Proof.
  revert lx. induction fuel as [|n IH]; intros lx; simpl; [lia|].
  destruct (_ && _); [|lia].
  specialize (IH (advance_ lx)). rewrite unread_advance_ in IH. lia.
Qed.

Lemma unread_skip_block_comment fuel lx :
  (unread (skip_block_comment fuel lx) <= unread lx)%nat.
Proof.
  revert lx. induction fuel as [|n IH]; intros lx; simpl; [lia|].
  destruct (is_at_end lx); [lia|].
  destruct (_ && _).
  - rewrite !unread_advance_. lia.
  - match goal with |- context [advance_ ?l] => specialize (IH (advance_ l)) end.
    rewrite unread_advance_ in IH.
    destruct (Ascii.eqb (peek lx) newline);
      rewrite ?unread_set_line_column in IH; lia.
Qed.

Lemma unread_skip_whitespace_loop fuel lx :
  (unread (skip_whitespace_loop fuel lx) <= unread lx)%nat.
Proof.
  revert lx. induction fuel as [|n IH]; intros lx; simpl; [lia|].
  repeat match goal with
         | |- context [if ?b then _ else _] => destruct b
         end; try lia;
  match goal with
  | |- context [skip_whitespace_loop n ?l] => specialize (IH l)
  end.
  - rewrite unread_advance_ in IH. lia.
  - rewrite unread_advance_, unread_set_line_column in IH. lia.
  - pose proof (unread_skip_line_comment (unread lx) lx). lia.
  - pose proof (unread_skip_block_comment (unread lx) (advance_ (advance_ lx))) as H.
    rewrite !unread_advance_ in H. lia.
Qed.

Lemma unread_scan_string_loop quote fuel lx :
  (unread (scan_string_loop quote fuel lx) <= unread lx)%nat.
Proof.
  revert lx. induction fuel as [|n IH]; intros lx; simpl; [lia|].
  destruct (_ && _); [|lia].
  match goal with |- context [scan_string_loop quote n ?l] => specialize (IH l) end.
  rewrite unread_advance_ in IH.
  repeat match goal with
         | H : context [if ?b then _ else _] |- _ => destruct b
         end;
  rewrite ?unread_advance_, ?unread_set_line_column in IH; lia.
Qed.

Lemma unread_match_char lx c :
  (unread (snd (match_char lx c)) <= unread lx)%nat.
Proof.
  unfold match_char, unread. destruct (lex_current lx) eqn:E; simpl.
  - rewrite E. simpl. lia.
  - destruct (Ascii.eqb _ _); simpl; rewrite ?E; simpl; lia.
Qed.

Lemma unread_two lx c yes no : (unread (snd (two lx c yes no)) <= unread lx)%nat.
Proof.
  unfold two. pose proof (unread_match_char lx c).
  destruct (match_char lx c); assumption.
Qed.

Lemma unread_identifier lx : (unread (snd (identifier lx)) <= unread lx)%nat.
Proof. apply unread_advance_while. Qed.

Lemma unread_number lx : (unread (snd (number lx)) <= unread lx)%nat.
Proof.
  unfold number.
  pose proof (unread_advance_while isdigit (unread lx) lx) as H1.
  set (l1 := advance_while isdigit (unread lx) lx) in *.
  destruct (_ && _); cbn [snd]; [|assumption].
  pose proof (unread_advance_while isdigit (unread (advance_ l1)) (advance_ l1)) as H2.
  rewrite unread_advance_ in H2 at 2. lia.
Qed.

Lemma unread_scan_string lx q : (unread (snd (scan_string lx q)) <= unread lx)%nat.
Proof.
  unfold scan_string.
  pose proof (unread_scan_string_loop q (unread lx) lx).
  destruct (is_at_end _); simpl; [assumption|].
  rewrite unread_advance_. lia.
Qed.

(** A call of [lexer_next_token] either steps over at least one character
    or, with nothing but white space and comments left, yields the
    end-of-file token. *)
Lemma lexer_next_token_progress lx :
  (unread (snd (lexer_next_token lx)) < unread lx)%nat
  \/ (type (fst (lexer_next_token lx)) = TOKEN_EOF
      /\ (unread (snd (lexer_next_token lx)) <= unread lx)%nat).
Proof.
  unfold lexer_next_token.
  pose proof (unread_skip_whitespace_loop (S (unread lx)) lx) as Hws.
  fold (skip_whitespace lx) in Hws.
  set (l0 := mkLexer "" _ _ _).
  assert (H0 : unread l0 = unread (skip_whitespace lx)) by reflexivity.
  destruct (is_at_end l0) eqn:Hend.
  - right. split; [reflexivity|simpl; lia].
  - assert (Hpos : (0 < unread l0)%nat).
    { unfold is_at_end in Hend. unfold unread.
      destruct (lex_current l0); [discriminate|simpl; lia]. }
    pose proof (unread_advance_ l0) as Hadv. unfold advance_ in Hadv.
    destruct (advance l0) as [c l1]. simpl in Hadv.
    assert (Hl1 : (unread l1 < unread lx)%nat) by lia.
    pose proof (unread_match_char l1 "."%char) as Hm.
    destruct (match_char l1 "."%char) as [m l2]; simpl in Hm.
    left. eapply Nat.le_lt_trans; [|exact Hl1].
    repeat match goal with
           | |- context [if ?b then _ else _] => destruct b
           end;
    first [ apply unread_identifier | apply unread_number
          | apply unread_two | apply unread_scan_string
          | simpl; lia
          | etransitivity; [apply unread_two|exact Hm] ].
Qed.

Lemma lexer_next_token_le lx :
  (unread (snd (lexer_next_token lx)) <= unread lx)%nat.
Proof. destruct (lexer_next_token_progress lx) as [H|[_ H]]; lia. Qed.

Lemma lexer_next_token_lt lx :
  type (fst (lexer_next_token lx)) <> TOKEN_EOF ->
  (unread (snd (lexer_next_token lx)) < unread lx)%nat.
Proof.
  intros Hne. destruct (lexer_next_token_progress lx) as [H|[H _]];
    [assumption|contradiction].
Qed.

(* ================================================================= *)
(** ** Parser helpers *)

Lemma token_type_eqb_refl t : (t ==t t) = true.
Proof. unfold token_type_eqb. destruct (TokenType_eq_dec t t); congruence. Qed.

Lemma token_type_eqb_eq a b : (a ==t b) = true <-> a = b.
Proof.
  unfold token_type_eqb. destruct (TokenType_eq_dec a b); split; congruence.
Qed.

Lemma token_type_eqb_neq a b : (a ==t b) = false <-> a <> b.
Proof.
  unfold token_type_eqb. destruct (TokenType_eq_dec a b); split; congruence.
Qed.

Lemma parser_error_at_cursor p tok msg : same_cursor (parser_error_at p tok msg) p.
Proof. unfold parser_error_at, same_cursor. destruct (panic_mode p); auto. Qed.

Lemma parser_error_at_flags p tok msg :
  had_error (parser_error_at p tok msg) = (had_error p || negb (panic_mode p))
  /\ panic_mode (parser_error_at p tok msg) = true.
Proof.
  unfold parser_error_at.
  destruct (panic_mode p) eqn:E; simpl; rewrite ?E; destruct (had_error p); auto.
Qed.

Lemma parser_error_at_stderr p tok msg :
  stderr (parser_error_at p tok msg) =
  if panic_mode p then stderr p else (stderr p ++ [(tok, msg)])%list.
Proof. unfold parser_error_at. destruct (panic_mode p); reflexivity. Qed.

Lemma remaining_same_cursor p q : same_cursor p q -> remaining p = remaining q.
Proof. intros (Hl & Hc & _). unfold remaining. rewrite Hl, Hc. reflexivity. Qed.

Lemma remaining_parser_error_at p tok msg :
  remaining (parser_error_at p tok msg) = remaining p.
Proof. apply remaining_same_cursor, parser_error_at_cursor. Qed.

Lemma remaining_parser_error p msg : remaining (parser_error p msg) = remaining p.
Proof. apply remaining_parser_error_at. Qed.

Lemma remaining_parser_error_at_current p msg :
  remaining (parser_error_at_current p msg) = remaining p.
Proof. apply remaining_parser_error_at. Qed.

Lemma remaining_set_lexer_current p lx tok :
  type tok = TOKEN_EOF \/ (unread lx < unread (lexer p))%nat ->
  (unread lx <= unread (lexer p))%nat ->
  (remaining (set_lexer_current p lx tok) <= unread (lexer p))%nat.
Proof.
  intros H Hle. unfold remaining; simpl.
  destruct (type tok ==t TOKEN_EOF) eqn:E; [lia|].
  apply token_type_eqb_neq in E. destruct H; [congruence|lia].
Qed.

Lemma parser_advance_loop_remaining fuel p :
  (remaining (parser_advance_loop fuel p) <= unread (lexer p))%nat.
Proof.
  revert p. induction fuel as [|n IH]; intros p; simpl;
    pose proof (lexer_next_token_progress (lexer p)) as H;
    destruct (lexer_next_token (lexer p)) as [tok lx]; simpl in *;
    assert (Hq : (remaining (set_lexer_current p lx tok) <= unread (lexer p))%nat)
      by (apply remaining_set_lexer_current; intuition lia);
    destruct (type tok ==t TOKEN_ERROR) eqn:E; simpl; try exact Hq.
  - rewrite remaining_parser_error_at_current. exact Hq.
  - match goal with |- context [parser_advance_loop n ?q] =>
      specialize (IH q); assert (Hl : lexer q = lx) end.
    { unfold parser_error_at_current.
      match goal with |- lexer (parser_error_at ?a ?b ?c) = _ =>
        destruct (parser_error_at_cursor a b c) as (-> & _) end.
      reflexivity. }
    rewrite Hl in IH. destruct H as [H|[_ H]]; lia.
Qed.

(** Fetching a token never puts tokens back, and uses one up unless the
    parser already stands at the end of the file. *)
Lemma parser_advance_remaining p :
  (remaining (parser_advance p) <= unread (lexer p))%nat.
Proof. unfold parser_advance. apply (parser_advance_loop_remaining _ (set_previous p _)). Qed.

Lemma parser_advance_remaining_le p :
  (remaining (parser_advance p) <= remaining p)%nat.
Proof. pose proof (parser_advance_remaining p). unfold remaining at 2. lia. Qed.

Lemma parser_advance_remaining_lt p :
  type (current p) <> TOKEN_EOF ->
  (remaining (parser_advance p) < remaining p)%nat.
Proof.
  intros H. pose proof (parser_advance_remaining p). unfold remaining at 2.
  apply token_type_eqb_neq in H. rewrite H. lia.
Qed.

(** The loop of [parser_advance] is always left through its [break]: the
    token the parser ends up on is never an error token. *)
Lemma parser_advance_loop_not_error fuel p :
  (unread (lexer p) <= fuel)%nat ->
  type (current (parser_advance_loop fuel p)) <> TOKEN_ERROR.
Proof.
  revert p. induction fuel as [|n IH]; intros p Hf; simpl;
    pose proof (lexer_next_token_progress (lexer p)) as H;
    destruct (lexer_next_token (lexer p)) as [tok lx]; simpl in *;
    destruct (type tok ==t TOKEN_ERROR) eqn:E; simpl;
    try (apply token_type_eqb_neq in E; exact E).
  - apply token_type_eqb_eq in E. destruct H as [H|[H _]]; [lia|congruence].
  - apply IH. apply token_type_eqb_eq in E.
    unfold parser_error_at_current.
    match goal with |- context [parser_error_at ?a ?b ?c] =>
      destruct (parser_error_at_cursor a b c) as (-> & _) end.
    simpl. destruct H as [H|[H _]]; [lia|congruence].
Qed.

Lemma parser_advance_not_error p : type (current (parser_advance p)) <> TOKEN_ERROR.
Proof. unfold parser_advance. apply parser_advance_loop_not_error. simpl. lia. Qed.

Lemma parser_check_true p t : type (current p) = t -> parser_check p t = true.
Proof. intros <-. apply token_type_eqb_refl. Qed.

Lemma parser_check_false p t : type (current p) <> t -> parser_check p t = false.
Proof. intros H. apply token_type_eqb_neq, H. Qed.

Lemma parser_match_true p t :
  type (current p) = t -> parser_match p t = (true, parser_advance p).
Proof. intros H. unfold parser_match. rewrite parser_check_true; auto. Qed.

Lemma parser_match_false p t :
  type (current p) <> t -> parser_match p t = (false, p).
Proof. intros H. unfold parser_match. rewrite parser_check_false; auto. Qed.

Lemma parser_match_cases p t :
  (type (current p) = t /\ parser_match p t = (true, parser_advance p))
  \/ (type (current p) <> t /\ parser_match p t = (false, p)).
Proof.
  destruct (TokenType_eq_dec (type (current p)) t) as [H|H];
    [left|right]; split; auto using parser_match_true, parser_match_false.
Qed.

Lemma parser_match_any_cases p ts :
  (In (type (current p)) ts /\ parser_match_any p ts = (true, parser_advance p))
  \/ (~ In (type (current p)) ts /\ parser_match_any p ts = (false, p)).
Proof.
  induction ts as [|t ts IH]; unfold parser_match_any; fold parser_match_any.
  - right. split; auto.
  - destruct (parser_match_cases p t) as [[H ->]|[H ->]].
    + left. split; [left; auto|reflexivity].
    + destruct IH as [[H1 ->]|[H1 ->]]; [left|right]; split; simpl; auto.
      intros [?|?]; [congruence|contradiction].
Qed.

Lemma parser_expect_cases p t msg :
  (type (current p) = t /\ parser_expect p t msg = (current p, parser_advance p))
  \/ (type (current p) <> t
      /\ parser_expect p t msg = (current p, parser_error_at_current p msg)).
Proof.
  unfold parser_expect.
  destruct (TokenType_eq_dec (type (current p)) t) as [H|H]; [left|right]; split; auto.
  - rewrite <- H, token_type_eqb_refl. reflexivity.
  - apply token_type_eqb_neq in H. rewrite H.
    unfold parser_error_at_current.
    destruct (parser_error_at_cursor p (current p) msg) as (_ & -> & _).
    reflexivity.
Qed.

Lemma parser_expect_remaining p t msg :
  (remaining (snd (parser_expect p t msg)) <= remaining p)%nat.
Proof.
  destruct (parser_expect_cases p t msg) as [[_ ->]|[_ ->]]; simpl.
  - apply parser_advance_remaining_le.
  - rewrite remaining_parser_error_at_current. lia.
Qed.

Lemma previous_parser_advance_loop fuel :
  forall p, previous (parser_advance_loop fuel p) = previous p.
Proof.
  induction fuel as [|n IH]; intros p; simpl;
    destruct (lexer_next_token (lexer p)) as [tok lx]; simpl;
    destruct (type tok ==t TOKEN_ERROR); simpl; auto;
    unfold parser_error_at_current;
    match goal with |- context [parser_error_at ?a ?b ?c] =>
      destruct (parser_error_at_cursor a b c) as (_ & _ & E) end.
  - rewrite E. reflexivity.
  - rewrite IH, E. reflexivity.
Qed.

Lemma previous_parser_advance p : previous (parser_advance p) = current p.
Proof. unfold parser_advance. rewrite previous_parser_advance_loop. reflexivity. Qed.

(* ================================================================= *)
(** ** Expression parsing always returns

    An expression parser called with [rank + 12 * remaining] units of fuel
    returns, and leaves no more tokens to look at than it found.  [rank] is
    the depth of the calls the function makes without a token being
    consumed in between. *)

Ltac returned :=
  eexists _, _; split;
  [ reflexivity
  | simpl; rewrite ?remaining_parser_error, ?remaining_parser_error_at_current; lia ].

Ltac not_eof H :=
  first [ rewrite H; discriminate
        | let E := fresh in
          intro E; rewrite E in H; simpl in H; intuition discriminate ].

(** One step through the body of a parsing function: decide the outermost
    call of a helper, or use the induction hypothesis [IH] for the outermost
    recursive call [f n q]. *)
Ltac helper_step :=
  match goal with
  | |- context [parser_match ?p ?t] =>
      let H := fresh "Hty" in
      destruct (parser_match_cases p t) as [[H ->]|[H ->]];
      [ pose proof (parser_advance_remaining_lt p ltac:(not_eof H)) | ]
  | |- context [parser_match_any ?p ?ts] =>
      let H := fresh "Hty" in
      destruct (parser_match_any_cases p ts) as [[H ->]|[H ->]];
      [ pose proof (parser_advance_remaining_lt p ltac:(not_eof H)) | ]
  | |- context [parser_expect ?p ?t ?m] =>
      pose proof (parser_expect_remaining p t m);
      destruct (parser_expect p t m) as [? ?]
  | |- context [parser_check ?p ?t] => destruct (parser_check p t)
  | |- context [parser_is_at_end ?p] => destruct (parser_is_at_end p)
  | |- context [match ?x with Some _ => _ | None => _ end] => is_var x; destruct x
  end; cbn beta iota zeta delta [fst snd negb andb orb ast_list_create] in *.

Ltac use_IH IH f n :=
  match goal with
  | |- context [f n ?q] =>
      let Hle := fresh "Hle" in
      destruct (IH q) as (? & ? & -> & Hle); [unfold enough in *; lia|]
  | |- context [f n ?q ?e] =>
      let Hle := fresh "Hle" in
      destruct (IH e q) as (? & ? & -> & Hle); [unfold enough in *; lia|]
  | |- context [f n ?e ?q] =>
      let Hle := fresh "Hle" in
      destruct (IH e q) as (? & ? & -> & Hle); [unfold enough in *; lia|]
  end; cbn beta iota zeta in *.

Section ExpressionStep.
Variable n : nat.
Hypothesis IHprimary :
  forall p, enough 1 p n -> returns (parser_parse_primary n) p.
Hypothesis IHlist :
  forall items p, enough 11 p n -> returns (parse_expression_list n items) p.
Hypothesis IHcontinue :
  forall e p, enough 1 p n -> returns (fun p => parse_postfix_continue n p e) p.
Hypothesis IHpostfix : forall p, enough 2 p n -> returns (parse_postfix n) p.
Hypothesis IHunary : forall p, enough 3 p n -> returns (parse_unary n) p.
Hypothesis IHfactor : forall p, enough 4 p n -> returns (parse_factor n) p.
Hypothesis IHfactor_loop :
  forall e p, enough 1 p n -> returns (fun p => parse_factor_loop n p e) p.
Hypothesis IHterm : forall p, enough 5 p n -> returns (parse_term n) p.
Hypothesis IHterm_loop :
  forall e p, enough 1 p n -> returns (fun p => parse_term_loop n p e) p.
Hypothesis IHcomparison : forall p, enough 6 p n -> returns (parse_comparison n) p.
Hypothesis IHcomparison_loop :
  forall e p, enough 1 p n -> returns (fun p => parse_comparison_loop n p e) p.
Hypothesis IHequality : forall p, enough 7 p n -> returns (parse_equality n) p.
Hypothesis IHequality_loop :
  forall e p, enough 1 p n -> returns (fun p => parse_equality_loop n p e) p.
Hypothesis IHand : forall p, enough 8 p n -> returns (parse_logical_and n) p.
Hypothesis IHand_loop :
  forall e p, enough 1 p n -> returns (fun p => parse_logical_and_loop n p e) p.
Hypothesis IHor : forall p, enough 9 p n -> returns (parse_logical_or n) p.
Hypothesis IHor_loop :
  forall e p, enough 1 p n -> returns (fun p => parse_logical_or_loop n p e) p.
Hypothesis IHexpression :
  forall p, enough 10 p n -> returns (parser_parse_expression n) p.

Ltac recursive_step :=
  first
    [ use_IH IHexpression parser_parse_expression n
    | use_IH IHlist parse_expression_list n
    | use_IH IHcontinue parse_postfix_continue n
    | use_IH IHprimary parser_parse_primary n
    | use_IH IHpostfix parse_postfix n
    | use_IH IHunary parse_unary n
    | use_IH IHfactor_loop parse_factor_loop n
    | use_IH IHfactor parse_factor n
    | use_IH IHterm_loop parse_term_loop n
    | use_IH IHterm parse_term n
    | use_IH IHcomparison_loop parse_comparison_loop n
    | use_IH IHcomparison parse_comparison n
    | use_IH IHequality_loop parse_equality_loop n
    | use_IH IHequality parse_equality n
    | use_IH IHand_loop parse_logical_and_loop n
    | use_IH IHand parse_logical_and n
    | use_IH IHor_loop parse_logical_or_loop n
    | use_IH IHor parse_logical_or n ].

Ltac run := repeat first [ helper_step | recursive_step ]; try returned.

Lemma primary_returns p :
  enough 1 p (S n) -> returns (parser_parse_primary (S n)) p.
Proof.
  intros Hn. unfold returns, enough in *. simpl.
  destruct (_ || _); [returned|]. run.
Qed.

Lemma expression_list_returns items p :
  enough 11 p (S n) -> returns (parse_expression_list (S n) items) p.
Proof. intros Hn. unfold returns, enough in *. simpl. run. Qed.

Lemma postfix_continue_returns e p :
  enough 1 p (S n) -> returns (fun p => parse_postfix_continue (S n) p e) p.
Proof. intros Hn. unfold returns, enough in *. simpl. run. Qed.

Lemma postfix_returns p : enough 2 p (S n) -> returns (parse_postfix (S n)) p.
Proof. intros Hn. unfold returns, enough in *. simpl. run. Qed.

Lemma unary_returns p : enough 3 p (S n) -> returns (parse_unary (S n)) p.
Proof. intros Hn. unfold returns, enough in *. simpl. run. Qed.

Lemma factor_returns p : enough 4 p (S n) -> returns (parse_factor (S n)) p.
Proof. intros Hn. unfold returns, enough in *. simpl. run. Qed.

Lemma factor_loop_returns e p :
  enough 1 p (S n) -> returns (fun p => parse_factor_loop (S n) p e) p.
Proof. intros Hn. unfold returns, enough in *. simpl. run. Qed.

Lemma term_returns p : enough 5 p (S n) -> returns (parse_term (S n)) p.
Proof. intros Hn. unfold returns, enough in *. simpl. run. Qed.

Lemma term_loop_returns e p :
  enough 1 p (S n) -> returns (fun p => parse_term_loop (S n) p e) p.
Proof. intros Hn. unfold returns, enough in *. simpl. run. Qed.

Lemma comparison_returns p :
  enough 6 p (S n) -> returns (parse_comparison (S n)) p.
Proof. intros Hn. unfold returns, enough in *. simpl. run. Qed.

Lemma comparison_loop_returns e p :
  enough 1 p (S n) -> returns (fun p => parse_comparison_loop (S n) p e) p.
Proof. intros Hn. unfold returns, enough in *. simpl. run. Qed.

Lemma equality_returns p : enough 7 p (S n) -> returns (parse_equality (S n)) p.
Proof. intros Hn. unfold returns, enough in *. simpl. run. Qed.

Lemma equality_loop_returns e p :
  enough 1 p (S n) -> returns (fun p => parse_equality_loop (S n) p e) p.
Proof. intros Hn. unfold returns, enough in *. simpl. run. Qed.

Lemma logical_and_returns p :
  enough 8 p (S n) -> returns (parse_logical_and (S n)) p.
Proof. intros Hn. unfold returns, enough in *. simpl. run. Qed.

Lemma logical_and_loop_returns e p :
  enough 1 p (S n) -> returns (fun p => parse_logical_and_loop (S n) p e) p.
Proof. intros Hn. unfold returns, enough in *. simpl. run. Qed.

Lemma logical_or_returns p :
  enough 9 p (S n) -> returns (parse_logical_or (S n)) p.
Proof. intros Hn. unfold returns, enough in *. simpl. run. Qed.

Lemma logical_or_loop_returns e p :
  enough 1 p (S n) -> returns (fun p => parse_logical_or_loop (S n) p e) p.
Proof. intros Hn. unfold returns, enough in *. simpl. run. Qed.

Lemma expression_returns p :
  enough 10 p (S n) -> returns (parser_parse_expression (S n)) p.
Proof. intros Hn. unfold returns, enough in *. simpl. run. Qed.

End ExpressionStep.

Lemma expression_parsers_return_all n : expression_parsers_return n.
Proof.
  induction n as [|n IH].
  - unfold expression_parsers_return, enough. repeat split; intros; lia.
  - unfold expression_parsers_return in *.
    destruct IH as (I1 & I2 & I3 & I4 & I5 & I6 & I7 & I8 & I9 & I10 & I11
                    & I12 & I13 & I14 & I15 & I16 & I17 & I18).
    repeat match goal with |- _ /\ _ => split end; intros.
    + apply primary_returns; assumption.
    + apply expression_list_returns; assumption.
    + apply postfix_continue_returns; assumption.
    + apply postfix_returns; assumption.
    + apply unary_returns; assumption.
    + apply factor_returns; assumption.
    + apply factor_loop_returns; assumption.
    + apply term_returns; assumption.
    + apply term_loop_returns; assumption.
    + apply comparison_returns; assumption.
    + apply comparison_loop_returns; assumption.
    + apply equality_returns; assumption.
    + apply equality_loop_returns; assumption.
    + apply logical_and_returns; assumption.
    + apply logical_and_loop_returns; assumption.
    + apply logical_or_returns; assumption.
    + apply logical_or_loop_returns; assumption.
    + apply expression_returns; assumption.
Qed.

(** [parser_parse_expression] returns on every parser state, given fuel
    linear in the number of tokens left. *)
Lemma parser_parse_expression_returns fuel p :
  (10 + 12 * remaining p <= fuel)%nat ->
  exists r p', parser_parse_expression fuel p = Some (r, p')
               /\ (remaining p' <= remaining p)%nat.
Proof. apply expression_parsers_return_all. Qed.

Lemma parse_postfix_continue_returns fuel p e :
  (1 + 12 * remaining p <= fuel)%nat ->
  exists r p', parse_postfix_continue fuel p e = Some (r, p')
               /\ (remaining p' <= remaining p)%nat.
Proof. apply (expression_parsers_return_all fuel). Qed.

(* ================================================================= *)
(** ** Statement disambiguation on [print("Hello")] *)

Example print_hello_tokens :
  map (fun t => (type t, start t)) (tokens_of print_hello) =
  [ (TOKEN_IDENTIFIER, "print"); (TOKEN_LEFT_PAREN, "(");
    (TOKEN_STRING, dquote ++ "Hello" ++ dquote); (TOKEN_RIGHT_PAREN, ")");
    (TOKEN_EOF, EmptyString) ].
Proof. reflexivity. Qed.

(** C1.  Parsing [print("Hello")] as a standalone statement returns, for
    every amount of fuel from 13 on, an expression statement wrapping a call
    whose callee is the identifier [print] and whose argument list holds
    exactly one string literal with payload [Hello] (quotes stripped).  No
    error is flagged or printed, and the whole input is consumed. *)
Theorem print_hello_is_call_statement :
  forall k, exists p',
    parser_parse_statement (13 + k) (parser_on print_hello) =
      Some (Some (AST_EXPR_STMT 1 15
                    (Some (AST_CALL_EXPR 1 15
                             (Some (AST_IDENTIFIER_EXPR 1 6 "print"))
                             (Some [Some (AST_LITERAL_EXPR 1 14
                                            (LIT_STRING "Hello"))])))),
            p')
    /\ had_error p' = false
    /\ panic_mode p' = false
    /\ stderr p' = []
    /\ type (current p') = TOKEN_EOF.
Proof.
  intros k. eexists. split; [vm_compute; reflexivity|].
  repeat split; reflexivity.
Qed.

(* ================================================================= *)
(** ** Postfix chains *)

(** Resuming the postfix loop on a node yields a node again: a chain over
    the given one, ending before a token that opens no further postfix
    operation. *)
Lemma parse_postfix_continue_node base fuel :
  forall p e r p',
    postfix_chain base e ->
    parse_postfix_continue fuel p (Some e) = Some (r, p') ->
    exists e', r = Some e' /\ postfix_chain base e'
               /\ opens_postfix (type (current p')) = false.
Proof.
  induction fuel as [|n IH]; intros p e r p' Hc H; [discriminate|].
  simpl in H.
  destruct (parser_match_cases p TOKEN_LEFT_PAREN) as [[Ht E]|[Ht1 E]];
    rewrite E in H; clear E; cbn beta iota in H.
  { destruct (if negb _ then _ else _) as [[args q]|]; [|discriminate].
    destruct (parser_expect q _ _) as [paren q'].
    eapply IH in H; [exact H|]. apply chain_call, Hc. }
  destruct (parser_match_cases p TOKEN_LEFT_BRACKET) as [[Ht E]|[Ht2 E]];
    rewrite E in H; clear E; cbn beta iota in H.
  { destruct (parser_parse_expression n _) as [[index q]|]; [|discriminate].
    destruct (parser_expect q _ _) as [bracket q'].
    eapply IH in H; [exact H|]. apply chain_index, Hc. }
  destruct (parser_match_cases p TOKEN_DOT) as [[Ht E]|[Ht3 E]];
    rewrite E in H; clear E; cbn beta iota in H.
  { destruct (parser_expect _ _ _) as [member q'].
    eapply IH in H; [exact H|]. apply chain_member, Hc. }
  injection H as <- <-. exists e. repeat split; auto.
  destruct (type (current p)); try reflexivity; congruence.
Qed.


(* ================================================================= *)
(** ** The error flag is sticky

    No parsing function clears [had_error] or takes back a diagnostic:
    every one of them, when it returns, leaves a state that [continues]
    the state it was called in. *)

Lemma continues_refl p : continues p p.
Proof. repeat split; auto. exists []. symmetry. apply app_nil_r. Qed.

Lemma continues_trans p q r : continues p q -> continues q r -> continues p r.
Proof.
  intros (H1 & [m1 E1] & C1) (H2 & [m2 E2] & C2). repeat split; auto.
  exists (m1 ++ m2)%list. rewrite E2, E1, app_assoc. reflexivity.
Qed.

Lemma continues_flags p q :
  had_error q = had_error p -> panic_mode q = panic_mode p ->
  stderr q = stderr p -> continues p q.
Proof.
  intros Hh Hp Hs. unfold continues, consistent. rewrite Hh, Hp, Hs.
  repeat split; auto. exists []. symmetry. apply app_nil_r.
Qed.

Lemma continues_parser_error_at p tok msg : continues p (parser_error_at p tok msg).
Proof.
  unfold parser_error_at. destruct (panic_mode p); [apply continues_refl|].
  unfold continues, consistent; simpl. repeat split; eauto.
Qed.

Lemma continues_parser_error p msg : continues p (parser_error p msg).
Proof. apply continues_parser_error_at. Qed.

Lemma continues_parser_error_at_current p msg :
  continues p (parser_error_at_current p msg).
Proof. apply continues_parser_error_at. Qed.

Lemma continues_set_panic_mode p : continues p (set_panic_mode p false).
Proof.
  unfold continues, consistent; simpl. repeat split; auto; try discriminate.
  exists []. symmetry. apply app_nil_r.
Qed.

Lemma continues_parser_advance_loop fuel p :
  continues p (parser_advance_loop fuel p).
Proof.
  revert p. induction fuel as [|n IH]; intros p; simpl;
    destruct (lexer_next_token (lexer p)) as [tok lx]; simpl;
    (assert (H0 : continues p (set_lexer_current p lx tok))
      by (apply continues_flags; reflexivity));
    destruct (type tok ==t TOKEN_ERROR); simpl; auto;
    (eapply continues_trans; [exact H0|]).
  - apply continues_parser_error_at_current.
  - eapply continues_trans; [apply continues_parser_error_at_current|apply IH].
Qed.

Lemma continues_parser_advance p : continues p (parser_advance p).
Proof.
  unfold parser_advance.
  eapply continues_trans; [|apply continues_parser_advance_loop].
  apply continues_flags; reflexivity.
Qed.

Lemma continues_parser_expect p t msg : continues p (snd (parser_expect p t msg)).
Proof.
  destruct (parser_expect_cases p t msg) as [[_ ->]|[_ ->]]; simpl.
  - apply continues_parser_advance.
  - apply continues_parser_error_at_current.
Qed.

(** Reporting an error always leaves the flag set. *)
Lemma had_error_parser_error_at p tok msg :
  consistent p -> had_error (parser_error_at p tok msg) = true.
Proof.
  unfold parser_error_at, consistent.
  destruct (panic_mode p); simpl; auto.
Qed.

Ltac extend_to Hstep :=
  lazymatch type of Hstep with
  | continues ?q ?q1 =>
      lazymatch goal with
      | _ : reached _ q1 |- _ => idtac
      | Hacc : reached ?p q |- _ =>
          pose proof (continues_trans p q q1 Hacc Hstep : reached p q1)
      end
  end.

Ltac ensure_state q :=
  lazymatch goal with
  | _ : reached _ q |- _ => idtac
  | _ =>
      lazymatch q with
      | parser_advance ?q0 =>
          ensure_state q0; extend_to (continues_parser_advance q0)
      | parser_error ?q0 ?m =>
          ensure_state q0; extend_to (continues_parser_error q0 m)
      | parser_error_at_current ?q0 ?m =>
          ensure_state q0; extend_to (continues_parser_error_at_current q0 m)
      | set_panic_mode ?q0 false =>
          ensure_state q0; extend_to (continues_set_panic_mode q0)
      end
  end.

(** The call the computation [X] is waiting for: the innermost scrutinee at
    its head. *)
Ltac scrutinee X :=
  lazymatch X with
  | match ?s with _ => _ end => scrutinee s
  | negb ?b => scrutinee b
  | andb ?a _ => scrutinee a
  | orb ?a _ => scrutinee a
  | _ => X
  end.

Ltac continue_step H IHtac :=
  lazymatch type of H with
  | ?X = Some _ =>
      let s := scrutinee X in
      lazymatch s with
      | Some _ => fail
      | parser_match ?q ?t =>
          let E := fresh "E" in
          ensure_state q;
          destruct (parser_match_cases q t) as [[_ E]|[_ E]];
          rewrite E in H; clear E
      | parser_match_any ?q ?ts =>
          let E := fresh "E" in
          ensure_state q;
          destruct (parser_match_any_cases q ts) as [[_ E]|[_ E]];
          rewrite E in H; clear E
      | parser_expect ?q ?t ?m =>
          let Hs := fresh "Hs" in
          ensure_state q;
          pose proof (continues_parser_expect q t m) as Hs;
          destruct (parser_expect q t m) as [? ?]; cbn [snd] in Hs;
          extend_to Hs; clear Hs
      | _ =>
          first
            [ is_var s; destruct s
            | let T := type of s in
              let T := eval hnf in T in
              lazymatch T with
              | option (_ * Parser)%type =>
                  let E := fresh "E" in
                  destruct s as [[? ?]|] eqn:E; [|discriminate H];
                  IHtac E;
                  lazymatch type of E with
                  | continues ?q _ => ensure_state q
                  end;
                  extend_to E; clear E
              | option Parser =>
                  let E := fresh "E" in
                  destruct s as [?|] eqn:E; [|discriminate H];
                  IHtac E;
                  lazymatch type of E with
                  | continues ?q _ => ensure_state q
                  end;
                  extend_to E; clear E
              | _ => destruct s
              end ]
      end
  end; cbn beta iota zeta delta [fst snd negb andb orb ast_list_create] in H.

Ltac continue_done H IHtac :=
  first
    [ discriminate H
    | injection H as <- <-;
      lazymatch goal with
      | |- continues ?p ?q => ensure_state q; change (reached p q); assumption
      end
    | IHtac H;
      lazymatch type of H with
      | continues ?q _ => ensure_state q
      end;
      extend_to H; assumption ].

Ltac continue_run H IHtac :=
  repeat continue_step H IHtac; continue_done H IHtac.

(** Use whichever hypothesis of the context turns [E : call = Some _] into a
    [continues] fact. *)
Ltac by_hypothesis E :=
  match goal with
  | I : _ |- _ =>
      apply I in E; lazymatch type of E with continues _ _ => idtac end
  end.

Ltac continue_goal :=
  intros;
  match goal with
  | H : _ = Some _ |- continues ?p _ =>
      simpl in H; pose proof (continues_refl p : reached p p);
      continue_run H by_hypothesis
  end.

Lemma expression_parsers_continue_all n : expression_parsers_continue n.
Proof.
  induction n as [|n IH].
  - unfold expression_parsers_continue. repeat split; intros; discriminate.
  - unfold expression_parsers_continue in *.
    destruct IH as (I1 & I2 & I3 & I4 & I5 & I6 & I7 & I8 & I9 & I10 & I11
                    & I12 & I13 & I14 & I15 & I16 & I17 & I18).
    repeat match goal with |- _ /\ _ => split end; continue_goal.
Qed.

Lemma parser_parse_expression_continues n p r p' :
  parser_parse_expression n p = Some (r, p') -> continues p p'.
Proof. apply expression_parsers_continue_all. Qed.

Lemma parse_postfix_continue_continues n p e r p' :
  parse_postfix_continue n p e = Some (r, p') -> continues p p'.
Proof. apply (expression_parsers_continue_all n). Qed.

Lemma parse_return_statement_continues n p r p' :
  parse_return_statement n p = Some (r, p') -> continues p p'.
Proof.
  destruct n; [discriminate|].
  pose proof parser_parse_expression_continues. continue_goal.
Qed.

Lemma statement_parsers_continue_all n : statement_parsers_continue n.
Proof.
  induction n as [|n IH].
  - unfold statement_parsers_continue. repeat split; intros; discriminate.
  - unfold statement_parsers_continue in *.
    destruct IH as (I1 & I2 & I3 & I4 & I5 & I6 & I7).
    pose proof parser_parse_expression_continues.
    pose proof parse_postfix_continue_continues.
    pose proof parse_return_statement_continues.
    repeat match goal with |- _ /\ _ => split end; continue_goal.
Qed.

Lemma parser_parse_statement_continues n p r p' :
  parser_parse_statement n p = Some (r, p') -> continues p p'.
Proof. apply statement_parsers_continue_all. Qed.

Lemma parse_block_statement_continues n p r p' :
  parse_block_statement n p = Some (r, p') -> continues p p'.
Proof. apply statement_parsers_continue_all. Qed.

Lemma parse_parameter_list_continues n :
  forall params p r p',
    parse_parameter_list n params p = Some (r, p') -> continues p p'.
Proof.
  induction n as [|n IH]; [discriminate|]. continue_goal.
Qed.

Lemma parse_function_declaration_continues n p r p' :
  parse_function_declaration n p = Some (r, p') -> continues p p'.
Proof.
  destruct n; [discriminate|].
  pose proof parse_parameter_list_continues.
  pose proof parse_block_statement_continues.
  continue_goal.
Qed.

Lemma parser_parse_declaration_continues n p r p' :
  parser_parse_declaration n p = Some (r, p') -> continues p p'.
Proof.
  destruct n; [discriminate|].
  pose proof parse_function_declaration_continues.
  pose proof parser_parse_statement_continues.
  continue_goal.
Qed.

Lemma parser_synchronize_loop_continues n :
  forall p p', parser_synchronize_loop n p = Some p' -> continues p p'.
Proof.
  induction n as [|n IH]; [discriminate|]. intros p p' H. simpl in H.
  destruct (negb _).
  - destruct (_ ==t _); [injection H as <-; apply continues_refl|].
    destruct (type (current p));
      try (injection H as <-; apply continues_refl);
      (eapply continues_trans; [apply continues_parser_advance|apply IH, H]).
  - injection H as <-. apply continues_refl.
Qed.

Lemma parser_synchronize_continues n p p' :
  parser_synchronize n p = Some p' -> continues p p'.
Proof.
  intros H. eapply continues_trans; [apply (continues_set_panic_mode p)|].
  eapply parser_synchronize_loop_continues, H.
Qed.

Lemma parser_parse_loop_continues n :
  forall decls p r p',
    parser_parse_loop n decls p = Some (r, p') -> continues p p'.
Proof.
  induction n as [|n IH]; [discriminate|].
  pose proof parser_parse_declaration_continues.
  pose proof parser_synchronize_continues.
  continue_goal.
Qed.

(** No parser operation clears [had_error]: whatever [parser_parse] does
    from a state in which the flag is set, it is still set in the state it
    returns in. *)
Lemma parser_parse_continues n p r p' :
  parser_parse n p = Some (r, p') -> continues p p'.
Proof.
  unfold parser_parse. intros H.
  destruct (parser_parse_loop n _ p) as [[decls q]|] eqn:E; [|discriminate].
  apply parser_parse_loop_continues in E.
  destruct (had_error q); injection H as <- <-; exact E.
Qed.

(* ================================================================= *)
(** ** More fuel never changes a result

    A call that has returned with some fuel returns the same with any
    larger amount: the fuel only decides whether the model has got to the
    end of a run, never what the run does. *)

Ltac more_fuel_step H n :=
  lazymatch type of H with
  | ?X = Some _ =>
      let s := scrutinee X in
      lazymatch s with
      | Some _ => fail
      | _ =>
          first
            [ is_var s; destruct s
            | let T := type of s in
              let T := eval hnf in T in
              lazymatch T with
              | option _ =>
                  let E := fresh "E" in
                  destruct s as [?|] eqn:E; [|discriminate H];
                  match goal with
                  | I : _ |- _ => apply I in E; rewrite E
                  end; clear E
              | _ => destruct s
              end ]
      end
  end; cbn beta iota zeta delta [fst snd negb andb orb ast_list_create] in H |- *.

Ltac more_fuel_done H :=
  first
    [ discriminate H
    | exact H
    | match goal with I : _ |- _ => apply I; exact H end ].

Ltac more_fuel_goal n :=
  intros;
  match goal with
  | H : _ = Some _ |- _ = Some _ =>
      simpl in H |- *; repeat more_fuel_step H n; more_fuel_done H
  end.

Lemma expression_parsers_grow_step n m :
  expression_parsers_grow n m -> expression_parsers_grow (S n) (S m).
Proof.
  intros IH. unfold expression_parsers_grow in *.
  destruct IH as (I1 & I2 & I3 & I4 & I5 & I6 & I7 & I8 & I9 & I10 & I11
                  & I12 & I13 & I14 & I15 & I16 & I17 & I18).
  repeat match goal with |- _ /\ _ => split end; more_fuel_goal n.
Qed.

Lemma expression_parsers_grow_all n : forall m, (n <= m)%nat -> expression_parsers_grow n m.
Proof.
  induction n as [|n IH]; intros m Hm.
  - unfold expression_parsers_grow. repeat split; intros; discriminate.
  - destruct m as [|m]; [lia|].
    apply expression_parsers_grow_step, IH. lia.
Qed.

Lemma parser_parse_expression_more_fuel n m p r :
  (n <= m)%nat ->
  parser_parse_expression n p = Some r -> parser_parse_expression m p = Some r.
Proof. intros H. apply (expression_parsers_grow_all n m H). Qed.

Lemma parse_postfix_continue_more_fuel n m p e r :
  (n <= m)%nat ->
  parse_postfix_continue n p e = Some r -> parse_postfix_continue m p e = Some r.
Proof. intros H. apply (expression_parsers_grow_all n m H). Qed.

Lemma parse_return_statement_more_fuel n m p r :
  (n <= m)%nat ->
  parse_return_statement n p = Some r -> parse_return_statement m p = Some r.
Proof.
  intros Hm. destruct n as [|n]; [discriminate|]. destruct m as [|m]; [lia|].
  pose proof (parser_parse_expression_more_fuel n m) as I.
  specialize (fun p r => I p r ltac:(lia)).
  more_fuel_goal n.
Qed.

Lemma statement_parsers_grow_all n :
  forall m, (n <= m)%nat -> statement_parsers_grow n m.
Proof.
  induction n as [|n IH]; intros m Hm.
  - unfold statement_parsers_grow. repeat split; intros; discriminate.
  - destruct m as [|m]; [lia|].
    specialize (IH m ltac:(lia)). unfold statement_parsers_grow in *.
    destruct IH as (I1 & I2 & I3 & I4 & I5 & I6 & I7).
    pose proof (fun p r => parser_parse_expression_more_fuel n m p r ltac:(lia)).
    pose proof (fun p e r => parse_postfix_continue_more_fuel n m p e r ltac:(lia)).
    pose proof (fun p r => parse_return_statement_more_fuel n m p r ltac:(lia)).
    repeat match goal with |- _ /\ _ => split end; more_fuel_goal n.
Qed.

Lemma parser_parse_statement_more_fuel n m p r :
  (n <= m)%nat ->
  parser_parse_statement n p = Some r -> parser_parse_statement m p = Some r.
Proof. intros H. apply (statement_parsers_grow_all n m H). Qed.

Lemma parse_block_statement_more_fuel n m p r :
  (n <= m)%nat ->
  parse_block_statement n p = Some r -> parse_block_statement m p = Some r.
Proof. intros H. apply (statement_parsers_grow_all n m H). Qed.

Lemma parse_parameter_list_more_fuel n :
  forall m params p r,
    (n <= m)%nat ->
    parse_parameter_list n params p = Some r ->
    parse_parameter_list m params p = Some r.
Proof.
  induction n as [|n IH]; intros m params p r Hm; [discriminate|].
  destruct m as [|m]; [lia|].
  specialize (fun params p r => IH m params p r ltac:(lia)).
  revert params p r. more_fuel_goal n.
Qed.

Lemma parse_function_declaration_more_fuel n m p r :
  (n <= m)%nat ->
  parse_function_declaration n p = Some r ->
  parse_function_declaration m p = Some r.
Proof.
  intros Hm. destruct n as [|n]; [discriminate|]. destruct m as [|m]; [lia|].
  pose proof (fun params p r => parse_parameter_list_more_fuel n m params p r ltac:(lia)).
  pose proof (fun p r => parse_block_statement_more_fuel n m p r ltac:(lia)).
  more_fuel_goal n.
Qed.

Lemma parser_parse_declaration_more_fuel n m p r :
  (n <= m)%nat ->
  parser_parse_declaration n p = Some r -> parser_parse_declaration m p = Some r.
Proof.
  intros Hm. destruct n as [|n]; [discriminate|]. destruct m as [|m]; [lia|].
  pose proof (fun p r => parse_function_declaration_more_fuel n m p r ltac:(lia)).
  pose proof (fun p r => parser_parse_statement_more_fuel n m p r ltac:(lia)).
  more_fuel_goal n.
Qed.

Lemma parser_synchronize_loop_more_fuel n :
  forall m p r,
    (n <= m)%nat ->
    parser_synchronize_loop n p = Some r -> parser_synchronize_loop m p = Some r.
Proof.
  induction n as [|n IH]; intros m p r Hm; [discriminate|].
  destruct m as [|m]; [lia|].
  specialize (fun p r => IH m p r ltac:(lia)).
  revert p r. more_fuel_goal n.
Qed.

Lemma parser_synchronize_more_fuel n m p r :
  (n <= m)%nat ->
  parser_synchronize n p = Some r -> parser_synchronize m p = Some r.
Proof. apply parser_synchronize_loop_more_fuel. Qed.

Lemma parser_parse_loop_more_fuel n :
  forall m decls p r,
    (n <= m)%nat ->
    parser_parse_loop n decls p = Some r -> parser_parse_loop m decls p = Some r.
Proof.
  induction n as [|n IH]; intros m decls p r Hm; [discriminate|].
  destruct m as [|m]; [lia|].
  specialize (fun decls p r => IH m decls p r ltac:(lia)).
  pose proof (fun p r => parser_parse_declaration_more_fuel n m p r ltac:(lia)).
  pose proof (fun p r => parser_synchronize_more_fuel n m p r ltac:(lia)).
  revert decls p r. more_fuel_goal n.
Qed.

(** A parse that has returned returns the same with any more fuel. *)
Lemma parser_parse_more_fuel n m p r :
  (n <= m)%nat -> parser_parse n p = Some r -> parser_parse m p = Some r.
Proof.
  intros Hm. unfold parser_parse. intros H.
  destruct (parser_parse_loop n _ p) as [[decls q]|] eqn:E; [|discriminate].
  rewrite (parser_parse_loop_more_fuel n m _ _ _ Hm E). exact H.
Qed.

Lemma parser_init_consistent p lx : consistent (parser_init p lx).
Proof.
  unfold parser_init.
  apply (continues_parser_advance
           (mkParser lx (current p) (previous p) false false (stderr p))).
  unfold consistent; simpl. discriminate.
Qed.

Lemma had_error_parser_error_at_current p msg :
  consistent p -> had_error (parser_error_at_current p msg) = true.
Proof. apply had_error_parser_error_at. Qed.

Lemma had_error_parser_error p msg :
  consistent p -> had_error (parser_error p msg) = true.
Proof. apply had_error_parser_error_at. Qed.

(* ================================================================= *)
(** ** Precedence

    Each level of the chain parses its operands at the next level and
    folds them to the left; a loop that does not find one of its own
    operators returns what it was given. *)

Lemma parse_unary_grows n p r :
  parse_unary n p = Some r -> forall m, (n <= m)%nat -> parse_unary m p = Some r.
Proof. intros H m Hm. exact (proj1 (proj2 (proj2 (proj2 (proj2
         (expression_parsers_grow_all n m Hm))))) p r H). Qed.

Lemma parser_parse_expression_grows n p r :
  parser_parse_expression n p = Some r ->
  forall m, (n <= m)%nat -> parser_parse_expression m p = Some r.
Proof. intros H m Hm. exact (parser_parse_expression_more_fuel n m p r Hm H). Qed.

Lemma parse_factor_loop_stops n p e :
  factor_operator (type (current p)) = false ->
  parse_factor_loop (S n) p e = Some (e, p).
Proof.
  intros H. cbn [parse_factor_loop].
  destruct (parser_match_any_cases p [TOKEN_STAR; TOKEN_SLASH; TOKEN_PERCENT])
    as [[Hin _]|[_ ->]]; [|reflexivity].
  exfalso. simpl in Hin.
  destruct Hin as [E|[E|[E|[]]]]; rewrite <- E in H; discriminate H.
Qed.

Lemma parse_factor_loop_step n p e r q :
  factor_operator (type (current p)) = true ->
  parse_unary n (parser_advance p) = Some (r, q) ->
  parse_factor_loop (S n) p e =
    parse_factor_loop n q (binary_at (current p) (multiplicative (type (current p))) e r).
Proof.
  intros H E. cbn [parse_factor_loop].
  destruct (parser_match_any_cases p [TOKEN_STAR; TOKEN_SLASH; TOKEN_PERCENT])
    as [[_ ->]|[Hin _]].
  - rewrite E, previous_parser_advance. reflexivity.
  - exfalso. apply Hin. simpl.
    destruct (type (current p)); try discriminate H; auto.
Qed.

Lemma parse_term_loop_stops n p e :
  term_operator (type (current p)) = false ->
  parse_term_loop (S n) p e = Some (e, p).
Proof.
  intros H. cbn [parse_term_loop].
  destruct (parser_match_any_cases p [TOKEN_PLUS; TOKEN_MINUS])
    as [[Hin _]|[_ ->]]; [|reflexivity].
  exfalso. simpl in Hin.
  destruct Hin as [E|[E|[]]]; rewrite <- E in H; discriminate H.
Qed.

Lemma parse_term_loop_step n p e r q :
  term_operator (type (current p)) = true ->
  parse_factor n (parser_advance p) = Some (r, q) ->
  parse_term_loop (S n) p e =
    parse_term_loop n q (binary_at (current p) (additive (type (current p))) e r).
Proof.
  intros H E. cbn [parse_term_loop].
  destruct (parser_match_any_cases p [TOKEN_PLUS; TOKEN_MINUS])
    as [[_ ->]|[Hin _]].
  - rewrite E, previous_parser_advance. reflexivity.
  - exfalso. apply Hin. simpl.
    destruct (type (current p)); try discriminate H; auto.
Qed.

Lemma parse_comparison_loop_stops n p e :
  comparison_operator (type (current p)) = false ->
  parse_comparison_loop (S n) p e = Some (e, p).
Proof.
  intros H. cbn [parse_comparison_loop].
  destruct (parser_match_any_cases p
              [TOKEN_LESS; TOKEN_GREATER; TOKEN_LESS_EQUAL; TOKEN_GREATER_EQUAL])
    as [[Hin _]|[_ ->]]; [|reflexivity].
  exfalso. simpl in Hin.
  destruct Hin as [E|[E|[E|[E|[]]]]]; rewrite <- E in H; discriminate H.
Qed.

Lemma parse_equality_loop_stops n p e :
  equality_operator (type (current p)) = false ->
  parse_equality_loop (S n) p e = Some (e, p).
Proof.
  intros H. cbn [parse_equality_loop].
  destruct (parser_match_any_cases p [TOKEN_EQUAL_EQUAL; TOKEN_NOT_EQUAL])
    as [[Hin _]|[_ ->]]; [|reflexivity].
  exfalso. simpl in Hin.
  destruct Hin as [E|[E|[]]]; rewrite <- E in H; discriminate H.
Qed.

Lemma parse_logical_and_loop_stops n p e :
  and_operator (type (current p)) = false ->
  parse_logical_and_loop (S n) p e = Some (e, p).
Proof.
  intros H. cbn [parse_logical_and_loop].
  rewrite parser_match_false; [reflexivity|].
  intros E. rewrite E in H. discriminate H.
Qed.

Lemma parse_logical_or_loop_stops n p e :
  or_operator (type (current p)) = false ->
  parse_logical_or_loop (S n) p e = Some (e, p).
Proof.
  intros H. cbn [parse_logical_or_loop].
  rewrite parser_match_false; [reflexivity|].
  intros E. rewrite E in H. discriminate H.
Qed.

(** Above [parse_term] nothing happens to a term that no comparison,
    equality or logical operator follows. *)
Lemma term_is_the_expression n p e q :
  parse_term n p = Some (e, q) ->
  comparison_operator (type (current q)) = false ->
  equality_operator (type (current q)) = false ->
  and_operator (type (current q)) = false ->
  or_operator (type (current q)) = false ->
  parser_parse_expression (5 + n) p = Some (e, q).
Proof.
  intros H H1 H2 H3 H4. destruct n as [|n]; [discriminate H|].
  cbn [Nat.add parser_parse_expression parse_logical_or parse_logical_and
       parse_equality parse_comparison].
  rewrite H.
  rewrite parse_comparison_loop_stops by exact H1.
  rewrite parse_equality_loop_stops by exact H2.
  rewrite parse_logical_and_loop_stops by exact H3.
  rewrite parse_logical_or_loop_stops by exact H4.
  reflexivity.
Qed.

Lemma binary_operator_false t :
  binary_operator t = false ->
  factor_operator t = false /\ term_operator t = false
  /\ comparison_operator t = false /\ equality_operator t = false
  /\ and_operator t = false /\ or_operator t = false.
Proof. destruct t; cbn; intros H; try discriminate H; repeat split. Qed.

Lemma term_operator_no_factor_operator t :
  term_operator t = true -> factor_operator t = false.
Proof. destruct t; cbn; intros H; try discriminate H; reflexivity. Qed.

(** [a + b * c] at the level of [parse_term]. *)
Lemma parse_term_sum_of_product n p a p1 b p2 c p3 :
  parse_unary n p = Some (a, p1) ->
  term_operator (type (current p1)) = true ->
  parse_unary n (parser_advance p1) = Some (b, p2) ->
  factor_operator (type (current p2)) = true ->
  parse_unary n (parser_advance p2) = Some (c, p3) ->
  factor_operator (type (current p3)) = false ->
  term_operator (type (current p3)) = false ->
  parse_term (4 + n) p =
    Some (binary_at (current p1) (additive (type (current p1))) a
            (binary_at (current p2) (multiplicative (type (current p2))) b c),
          p3).
Proof.
  intros Ha H1 Hb H2 Hc H3 H4. destruct n as [|n]; [discriminate Ha|].
  cbn [Nat.add parse_term parse_factor].
  rewrite (parse_unary_grows _ _ _ Ha) by lia.
  rewrite parse_factor_loop_stops by (apply term_operator_no_factor_operator, H1).
  assert (Hf : parse_factor (S (S (S n))) (parser_advance p1) =
               Some (binary_at (current p2) (multiplicative (type (current p2))) b c,
                     p3)).
  { cbn [parse_factor].
    rewrite (parse_unary_grows _ _ _ Hb) by lia.
    rewrite (parse_factor_loop_step _ _ _ _ _ H2 Hc).
    apply parse_factor_loop_stops, H3. }
  rewrite (parse_term_loop_step _ _ _ _ _ H1 Hf).
  apply parse_term_loop_stops, H4.
Qed.

(** [a * b + c] at the level of [parse_term]. *)
Lemma parse_term_product_in_sum n p a p1 b p2 c p3 :
  parse_unary n p = Some (a, p1) ->
  factor_operator (type (current p1)) = true ->
  parse_unary n (parser_advance p1) = Some (b, p2) ->
  term_operator (type (current p2)) = true ->
  parse_unary n (parser_advance p2) = Some (c, p3) ->
  factor_operator (type (current p3)) = false ->
  term_operator (type (current p3)) = false ->
  parse_term (4 + n) p =
    Some (binary_at (current p2) (additive (type (current p2)))
            (binary_at (current p1) (multiplicative (type (current p1))) a b) c,
          p3).
Proof.
  intros Ha H1 Hb H2 Hc H3 H4. destruct n as [|n]; [discriminate Ha|].
  cbn [Nat.add parse_term parse_factor].
  rewrite (parse_unary_grows _ _ _ Ha) by lia.
  rewrite (parse_factor_loop_step (S (S n)) _ _ b p2 H1)
    by (apply (parse_unary_grows _ _ _ Hb); lia).
  rewrite parse_factor_loop_stops by (apply term_operator_no_factor_operator, H2).
  assert (Hf : parse_factor (S (S (S n))) (parser_advance p2) = Some (c, p3)).
  { cbn [parse_factor].
    rewrite (parse_unary_grows _ _ _ Hc) by lia.
    apply parse_factor_loop_stops, H3. }
  rewrite (parse_term_loop_step _ _ _ _ _ H2 Hf).
  apply parse_term_loop_stops, H4.
Qed.

(** [a + b] at the level of [parse_term]. *)
Lemma parse_term_sum n p a p1 b p2 :
  parse_unary n p = Some (a, p1) ->
  term_operator (type (current p1)) = true ->
  parse_unary n (parser_advance p1) = Some (b, p2) ->
  factor_operator (type (current p2)) = false ->
  term_operator (type (current p2)) = false ->
  parse_term (4 + n) p =
    Some (binary_at (current p1) (additive (type (current p1))) a b, p2).
Proof.
  intros Ha H1 Hb H3 H4. destruct n as [|n]; [discriminate Ha|].
  cbn [Nat.add parse_term parse_factor].
  rewrite (parse_unary_grows _ _ _ Ha) by lia.
  rewrite parse_factor_loop_stops by (apply term_operator_no_factor_operator, H1).
  assert (Hf : parse_factor (S (S (S n))) (parser_advance p1) = Some (b, p2)).
  { cbn [parse_factor].
    rewrite (parse_unary_grows _ _ _ Hb) by lia.
    apply parse_factor_loop_stops, H3. }
  rewrite (parse_term_loop_step _ _ _ _ _ H1 Hf).
  apply parse_term_loop_stops, H4.
Qed.

(** An expression in parentheses is an operand: [parse_unary] returns the
    tree of the expression between them. *)
Lemma parse_unary_group n p e q :
  type (current p) = TOKEN_LEFT_PAREN ->
  parser_parse_expression n (parser_advance p) = Some (Some e, q) ->
  type (current q) = TOKEN_RIGHT_PAREN ->
  opens_postfix (type (current (parser_advance q))) = false ->
  parse_unary (4 + n) p = Some (Some e, parser_advance q).
Proof.
  intros Ht He Hq Hp.
  cbn [Nat.add parse_unary].
  rewrite !parser_match_false by (rewrite Ht; discriminate).
  cbn [parse_postfix parser_parse_primary].
  rewrite Ht. cbn [token_type_eqb orb].
  replace (TOKEN_LEFT_PAREN ==t TOKEN_RIGHT_PAREN) with false by reflexivity.
  replace (TOKEN_LEFT_PAREN ==t TOKEN_RIGHT_BRACKET) with false by reflexivity.
  replace (TOKEN_LEFT_PAREN ==t TOKEN_EOF) with false by reflexivity.
  cbn [orb].
  rewrite !parser_match_false by (rewrite Ht; discriminate).
  rewrite parser_match_true by exact Ht.
  rewrite (parser_parse_expression_grows _ _ _ He) by lia.
  destruct (parser_expect_cases q TOKEN_RIGHT_PAREN "Expected ')' after expression")
    as [[_ ->]|[Hn _]]; [|contradiction].
  cbn [parse_postfix_continue].
  rewrite !parser_match_false; [reflexivity| | |];
    intros E; rewrite E in Hp; discriminate Hp.
Qed.

(** [a * c] at the level of [parse_term]. *)
Lemma parse_term_product n p a p1 c p3 :
  parse_unary n p = Some (a, p1) ->
  factor_operator (type (current p1)) = true ->
  parse_unary n (parser_advance p1) = Some (c, p3) ->
  factor_operator (type (current p3)) = false ->
  term_operator (type (current p3)) = false ->
  parse_term (4 + n) p =
    Some (binary_at (current p1) (multiplicative (type (current p1))) a c, p3).
Proof.
  intros Ha H1 Hc H3 H4. destruct n as [|n]; [discriminate Ha|].
  cbn [Nat.add parse_term parse_factor].
  rewrite (parse_unary_grows _ _ _ Ha) by lia.
  rewrite (parse_factor_loop_step (S (S n)) _ _ c p3 H1)
    by (apply (parse_unary_grows _ _ _ Hc); lia).
  rewrite parse_factor_loop_stops by exact H3.
  apply parse_term_loop_stops, H4.
Qed.

(** C4.  Multiplicative operators bind tighter than additive ones, and
    parentheses override that, whatever the operands are.  Let [a], [b]
    and [c] be what [parse_unary] makes of three operands (literals,
    names, calls, prefix operations, expressions in parentheses, ...) and
    let no binary operator follow the last.
    - [a + b * c] (or [-] for [+], [/] or [%] for [*]): the expression is
      the additive node, at the position of its operator, over [a] and the
      multiplicative node over [b] and [c].
    - [a * b + c]: the additive node over the multiplicative node of [a]
      and [b], and [c].
    - [(a + b) * c]: the multiplicative node over the additive node of [a]
      and [b], and [c].
    In particular [2 + 3 * 4] parses to an addition whose right child is
    the multiplication, and [(2 + 3) * 4] to a multiplication whose left
    child is the addition; neither parse flags an error. *)
Theorem multiplication_binds_tighter_than_addition :
  (forall n k p a p1 b p2 c p3,
      parse_unary n p = Some (a, p1) ->
      term_operator (type (current p1)) = true ->
      parse_unary n (parser_advance p1) = Some (b, p2) ->
      factor_operator (type (current p2)) = true ->
      parse_unary n (parser_advance p2) = Some (c, p3) ->
      binary_operator (type (current p3)) = false ->
      parser_parse_expression (9 + n + k) p =
        Some (binary_at (current p1) (additive (type (current p1))) a
                (binary_at (current p2) (multiplicative (type (current p2))) b c),
              p3))
  /\ (forall n k p a p1 b p2 c p3,
         parse_unary n p = Some (a, p1) ->
         factor_operator (type (current p1)) = true ->
         parse_unary n (parser_advance p1) = Some (b, p2) ->
         term_operator (type (current p2)) = true ->
         parse_unary n (parser_advance p2) = Some (c, p3) ->
         binary_operator (type (current p3)) = false ->
         parser_parse_expression (9 + n + k) p =
           Some (binary_at (current p2) (additive (type (current p2)))
                   (binary_at (current p1) (multiplicative (type (current p1))) a b)
                   c,
                 p3))
  /\ (forall n k p a p1 b p2 c p3,
         type (current p) = TOKEN_LEFT_PAREN ->
         parse_unary n (parser_advance p) = Some (a, p1) ->
         term_operator (type (current p1)) = true ->
         parse_unary n (parser_advance p1) = Some (b, p2) ->
         type (current p2) = TOKEN_RIGHT_PAREN ->
         factor_operator (type (current (parser_advance p2))) = true ->
         parse_unary n (parser_advance (parser_advance p2)) = Some (c, p3) ->
         binary_operator (type (current p3)) = false ->
         parser_parse_expression (22 + n + k) p =
           Some (binary_at (current (parser_advance p2))
                   (multiplicative (type (current (parser_advance p2))))
                   (binary_at (current p1) (additive (type (current p1))) a b)
                   c,
                 p3))
  /\ (forall k,
        (exists p',
            parser_parse_expression (12 + k) (parser_on "2 + 3 * 4") =
              Some (Some (AST_BINARY_EXPR 1 4 OP_ADD
                            (Some (AST_LITERAL_EXPR 1 2 (LIT_INT 2)))
                            (Some (AST_BINARY_EXPR 1 8 OP_MUL
                                     (Some (AST_LITERAL_EXPR 1 6 (LIT_INT 3)))
                                     (Some (AST_LITERAL_EXPR 1 10 (LIT_INT 4)))))),
                    p')
            /\ had_error p' = false /\ type (current p') = TOKEN_EOF)
        /\ (exists p',
            parser_parse_expression (21 + k) (parser_on "(2 + 3) * 4") =
              Some (Some (AST_BINARY_EXPR 1 10 OP_MUL
                            (Some (AST_BINARY_EXPR 1 5 OP_ADD
                                     (Some (AST_LITERAL_EXPR 1 3 (LIT_INT 2)))
                                     (Some (AST_LITERAL_EXPR 1 7 (LIT_INT 3)))))
                            (Some (AST_LITERAL_EXPR 1 12 (LIT_INT 4)))),
                    p')
            /\ had_error p' = false /\ type (current p') = TOKEN_EOF)).
Proof.
  split; [|split; [|split]].
  - intros n k p a p1 b p2 c p3 Ha H1 Hb H2 Hc H3.
    apply binary_operator_false in H3.
    destruct H3 as (F1 & F2 & F3 & F4 & F5 & F6).
    pose proof (parse_term_sum_of_product n p a p1 b p2 c p3 Ha H1 Hb H2 Hc F1 F2)
      as Ht.
    apply (parser_parse_expression_grows (5 + (4 + n))); [|lia].
    apply term_is_the_expression; assumption.
  - intros n k p a p1 b p2 c p3 Ha H1 Hb H2 Hc H3.
    apply binary_operator_false in H3.
    destruct H3 as (F1 & F2 & F3 & F4 & F5 & F6).
    pose proof (parse_term_product_in_sum n p a p1 b p2 c p3 Ha H1 Hb H2 Hc F1 F2)
      as Ht.
    apply (parser_parse_expression_grows (5 + (4 + n))); [|lia].
    apply term_is_the_expression; assumption.
  - intros n k p a p1 b p2 c p3 Hp Ha H1 Hb H2 H3 Hc H4.
    apply binary_operator_false in H4.
    destruct H4 as (F1 & F2 & F3 & F4 & F5 & F6).
    assert (Hin : parser_parse_expression (5 + (4 + n)) (parser_advance p) =
                  Some (binary_at (current p1) (additive (type (current p1))) a b,
                        p2)).
    { apply term_is_the_expression;
        [apply parse_term_sum; try assumption| | | |];
        rewrite H2; reflexivity. }
    assert (Hg : parse_unary (4 + (5 + (4 + n))) p =
                 Some (binary_at (current p1) (additive (type (current p1))) a b,
                       parser_advance p2)).
    { apply parse_unary_group; try assumption.
      destruct (type (current (parser_advance p2))); try discriminate H3;
        reflexivity. }
    apply (parser_parse_expression_grows (5 + (4 + (4 + (5 + (4 + n)))))); [|lia].
    apply term_is_the_expression; try assumption.
    apply parse_term_product; try assumption.
    apply (parse_unary_grows _ _ _ Hc). lia.
  - intros k. split; eexists; (split; [vm_compute; reflexivity|]);
      split; reflexivity.
Qed.

(** Put the value a call has returned in the place of its name. *)
Ltac evaluated E :=
  let E' := fresh "E" in
  pose proof E as E'; vm_compute in E'; injection E' as <- <-.

(** The three shapes at [x - f(1) % -y], [x / f(1) + -y] and
    [(x + f(1)) * -y]. *)
Lemma precedence_witness :
  (exists x f1 y p',
      parser_parse_expression 40 (parser_on "x - f(1) % -y")
      = Some (Some (AST_BINARY_EXPR 1 4 OP_SUB x
                      (Some (AST_BINARY_EXPR 1 11 OP_MOD f1 y))), p'))
  /\ (exists x f1 y p',
         parser_parse_expression 40 (parser_on "x / f(1) + -y")
         = Some (Some (AST_BINARY_EXPR 1 11 OP_ADD
                         (Some (AST_BINARY_EXPR 1 4 OP_DIV x f1)) y), p'))
  /\ (exists x f1 y p',
         parser_parse_expression 50 (parser_on "(x + f(1)) * -y")
         = Some (Some (AST_BINARY_EXPR 1 13 OP_MUL
                         (Some (AST_BINARY_EXPR 1 5 OP_ADD x f1)) y), p')).
Proof.
  destruct multiplication_binds_tighter_than_addition as (T1 & T2 & T3 & _).
  split; [|split].
  - destruct (parse_unary 20 (parser_on "x - f(1) % -y")) as [[a p1]|] eqn:Ea;
      [|vm_compute in Ea; discriminate Ea].
    destruct (parse_unary 20 (parser_advance p1)) as [[b p2]|] eqn:Eb;
      [|evaluated Ea; vm_compute in Eb; discriminate Eb].
    destruct (parse_unary 20 (parser_advance p2)) as [[c p3]|] eqn:Ec;
      [|evaluated Ea; evaluated Eb; vm_compute in Ec; discriminate Ec].
    exists a, b, c, p3.
    etransitivity;
      [apply (T1 20%nat 11%nat _ a p1 b p2 c p3 Ea); try assumption|];
      evaluated Ea; evaluated Eb; evaluated Ec; reflexivity.
  - destruct (parse_unary 20 (parser_on "x / f(1) + -y")) as [[a p1]|] eqn:Ea;
      [|vm_compute in Ea; discriminate Ea].
    destruct (parse_unary 20 (parser_advance p1)) as [[b p2]|] eqn:Eb;
      [|evaluated Ea; vm_compute in Eb; discriminate Eb].
    destruct (parse_unary 20 (parser_advance p2)) as [[c p3]|] eqn:Ec;
      [|evaluated Ea; evaluated Eb; vm_compute in Ec; discriminate Ec].
    exists a, b, c, p3.
    etransitivity;
      [apply (T2 20%nat 11%nat _ a p1 b p2 c p3 Ea); try assumption|];
      evaluated Ea; evaluated Eb; evaluated Ec; reflexivity.
  - destruct (parse_unary 20 (parser_advance (parser_on "(x + f(1)) * -y")))
      as [[a p1]|] eqn:Ea; [|vm_compute in Ea; discriminate Ea].
    destruct (parse_unary 20 (parser_advance p1)) as [[b p2]|] eqn:Eb;
      [|evaluated Ea; vm_compute in Eb; discriminate Eb].
    destruct (parse_unary 20 (parser_advance (parser_advance p2)))
      as [[c p3]|] eqn:Ec;
      [|evaluated Ea; evaluated Eb; vm_compute in Ec; discriminate Ec].
    exists a, b, c, p3.
    etransitivity;
      [apply (T3 20%nat 8%nat (parser_on "(x + f(1)) * -y") a p1 b p2 c p3
                 eq_refl Ea); try assumption|];
      evaluated Ea; evaluated Eb; evaluated Ec; reflexivity.
Defined.

(* ================================================================= *)
(** ** Statements that begin with an identifier *)

(** The three branches of [parser_parse_statement] on an identifier, as
    equations. *)
Lemma statement_identifier_equal n p :
  type (current p) = TOKEN_IDENTIFIER ->
  type (current (parser_advance p)) = TOKEN_EQUAL ->
  parser_parse_statement (S n) p =
    match parser_parse_expression n (parser_advance (parser_advance p)) with
    | Some (value, q) =>
        Some (Some (AST_VAR_DECL (line (current p)) (column (current p))
                                 (start (current p)) None value), q)
    | None => None
    end.
Proof.
  intros H0 H1. simpl. rewrite parser_check_true by assumption.
  rewrite parser_check_false by (rewrite H1; discriminate).
  rewrite parser_check_true by assumption. reflexivity.
Qed.

Lemma statement_identifier_colon n p :
  type (current p) = TOKEN_IDENTIFIER ->
  type (current (parser_advance p)) = TOKEN_COLON ->
  parser_parse_statement (S n) p =
    let '(type_token, q) :=
      parser_expect (parser_advance (parser_advance p)) TOKEN_IDENTIFIER
                    "Expected type name" in
    let '(_, q) := parser_expect q TOKEN_EQUAL "Expected '=' after type" in
    match parser_parse_expression n q with
    | Some (init, q) =>
        Some (Some (AST_VAR_DECL (line (current p)) (column (current p))
                                 (start (current p)) (Some (start type_token))
                                 init), q)
    | None => None
    end.
Proof.
  intros H0 H1. simpl. rewrite parser_check_true by assumption.
  rewrite parser_check_true by assumption. reflexivity.
Qed.

Lemma statement_identifier_other n p :
  type (current p) = TOKEN_IDENTIFIER ->
  type (current (parser_advance p)) <> TOKEN_COLON ->
  type (current (parser_advance p)) <> TOKEN_EQUAL ->
  parser_parse_statement (S n) p =
    match parse_postfix_continue n (parser_advance p)
            (Some (AST_IDENTIFIER_EXPR (line (current p)) (column (current p))
                                       (start (current p)))) with
    | Some (Some e, q) =>
        Some (Some (AST_EXPR_STMT (node_line e) (node_column e) (Some e)), q)
    | _ => None
    end.
Proof.
  intros H0 H1 H2. simpl. rewrite parser_check_true by assumption.
  rewrite !parser_check_false by assumption.
  unfold ast_create_identifier.
  destruct (parse_postfix_continue n _ _) as [[[e|] q]|]; reflexivity.
Qed.

(** An identifier followed by anything but [:] and [=] is an expression
    statement: the identifier and the postfix operations that follow it,
    and nothing else. *)
Lemma identifier_expression_statement fuel p :
  type (current p) = TOKEN_IDENTIFIER ->
  type (current (parser_advance p)) <> TOKEN_COLON ->
  type (current (parser_advance p)) <> TOKEN_EQUAL ->
  (2 + 12 * remaining p <= fuel)%nat ->
  exists e p',
    parser_parse_statement fuel p =
      Some (Some (AST_EXPR_STMT (node_line e) (node_column e) (Some e)), p')
    /\ parse_postfix_continue (fuel - 1) (parser_advance p)
         (Some (AST_IDENTIFIER_EXPR (line (current p)) (column (current p))
                                    (start (current p)))) = Some (Some e, p')
    /\ postfix_chain (AST_IDENTIFIER_EXPR (line (current p)) (column (current p))
                                          (start (current p))) e
    /\ opens_postfix (type (current p')) = false
    /\ continues p p'.
Proof.
  intros H0 H1 H2 Hf.
  destruct fuel as [|n]; [lia|].
  rewrite statement_identifier_other by assumption.
  replace (S n - 1)%nat with n by lia.
  pose proof (parser_advance_remaining_le p) as Hr.
  destruct (parse_postfix_continue_returns n (parser_advance p)
              (Some (AST_IDENTIFIER_EXPR (line (current p)) (column (current p))
                                         (start (current p)))))
    as (r & p' & E & _); [lia|].
  rewrite E.
  destruct (parse_postfix_continue_node _ _ _ _ _ _ (chain_base _) E)
    as (e & -> & Hc & Ho).
  exists e, p'. repeat split; auto.
  all: eapply continues_trans;
    [apply continues_parser_advance|eapply parse_postfix_continue_continues, E].
Qed.

Lemma continues_consistent p q : continues p q -> consistent p -> consistent q.
Proof. intros (_ & _ & H). exact H. Qed.

Lemma continues_had_error p q : continues p q -> had_error p = true -> had_error q = true.
Proof. intros (H & _). exact H. Qed.

(** The typed declaration in full: the node, and what is flagged when the
    type name or the [=] is missing. *)
Lemma identifier_colon_statement fuel p :
  consistent p ->
  type (current p) = TOKEN_IDENTIFIER ->
  type (current (parser_advance p)) = TOKEN_COLON ->
  (11 + 12 * remaining p <= fuel)%nat ->
  let name := current p in
  let p2 := parser_advance (parser_advance p) in
  exists ty init p',
    parser_parse_statement fuel p =
      Some (Some (AST_VAR_DECL (line name) (column name) (start name)
                               (Some ty) init), p')
    /\ (type (current p2) = TOKEN_IDENTIFIER ->
        ty = start (current p2)
        /\ (type (current (parser_advance p2)) = TOKEN_EQUAL ->
            parser_parse_expression (fuel - 1) (parser_advance (parser_advance p2))
              = Some (init, p'))
        /\ (type (current (parser_advance p2)) <> TOKEN_EQUAL ->
            had_error p' = true))
    /\ (type (current p2) <> TOKEN_IDENTIFIER -> had_error p' = true).
Proof.
  intros Hc H0 H1 Hf name p2.
  destruct fuel as [|n]; [lia|].
  rewrite statement_identifier_colon by assumption.
  replace (S n - 1)%nat with n by lia. fold p2.
  assert (C2 : continues p p2).
  { eapply continues_trans; apply continues_parser_advance. }
  assert (R2 : (remaining p2 <= remaining p)%nat).
  { unfold p2. pose proof (parser_advance_remaining_le p).
    pose proof (parser_advance_remaining_le (parser_advance p)). lia. }
  pose proof (parser_expect_remaining p2 TOKEN_IDENTIFIER "Expected type name") as R3.
  pose proof (continues_parser_expect p2 TOKEN_IDENTIFIER "Expected type name") as C3.
  destruct (parser_expect_cases p2 TOKEN_IDENTIFIER "Expected type name")
    as [[Ht E3]|[Ht E3]]; rewrite E3 in *; cbn [snd] in *;
  match goal with |- context [parser_expect ?q TOKEN_EQUAL ?m] =>
    pose proof (parser_expect_remaining q TOKEN_EQUAL m) as R4;
    pose proof (continues_parser_expect q TOKEN_EQUAL m) as C4;
    destruct (parser_expect_cases q TOKEN_EQUAL m) as [[He E4]|[He E4]];
    rewrite E4 in *; cbn [snd] in *
  end;
  match goal with |- context [parser_parse_expression n ?q] =>
    destruct (parser_parse_expression_returns n q) as (init & p' & E & _);
      [lia|]; rewrite E;
    pose proof (parser_parse_expression_continues _ _ _ _ E) as C5
  end;
  eexists _, init, p'; (split; [reflexivity|]); split; intros Hi;
    try contradiction; try (repeat split; auto; intros; try contradiction).
  - eapply continues_had_error; [exact C5|].
    apply had_error_parser_error_at_current.
    eapply continues_consistent; [|exact Hc].
    eapply continues_trans; eassumption.
  - eapply continues_had_error; [eapply continues_trans; [exact C4|exact C5]|].
    apply had_error_parser_error_at_current.
    eapply continues_consistent; eassumption.
  - eapply continues_had_error; [eapply continues_trans; [exact C4|exact C5]|].
    apply had_error_parser_error_at_current.
    eapply continues_consistent; eassumption.
Qed.

(** C5.  In statement position an identifier followed by [=] gives a
    variable declaration with that name, no declared type and the parsed
    expression as initializer; followed by [:] it gives a variable
    declaration whose declared type is the identifier after the colon, and
    the [=] before the initializer is required (a missing type name or [=]
    flags an error); followed by anything else it gives an expression
    statement.  In each case the statement parser returns, given fuel linear
    in the number of tokens left.  So [x = 42], [x: int = 42] and [x.y]
    parse to the nodes shown. *)
Theorem identifier_statement_is_declaration_or_expression :
  (forall p fuel,
      consistent p ->
      type (current p) = TOKEN_IDENTIFIER ->
      (11 + 12 * remaining p <= fuel)%nat ->
      let name := current p in
      let p1 := parser_advance p in
      let p2 := parser_advance p1 in
      (type (current p1) = TOKEN_EQUAL ->
       exists init p',
         parser_parse_expression (fuel - 1) p2 = Some (init, p')
         /\ parser_parse_statement fuel p =
              Some (Some (AST_VAR_DECL (line name) (column name) (start name)
                                       None init), p'))
      /\ (type (current p1) = TOKEN_COLON ->
          exists ty init p',
            parser_parse_statement fuel p =
              Some (Some (AST_VAR_DECL (line name) (column name) (start name)
                                       (Some ty) init), p')
            /\ (type (current p2) = TOKEN_IDENTIFIER ->
                ty = start (current p2)
                /\ (type (current (parser_advance p2)) = TOKEN_EQUAL ->
                    parser_parse_expression (fuel - 1)
                      (parser_advance (parser_advance p2)) = Some (init, p'))
                /\ (type (current (parser_advance p2)) <> TOKEN_EQUAL ->
                    had_error p' = true))
            /\ (type (current p2) <> TOKEN_IDENTIFIER -> had_error p' = true))
      /\ (type (current p1) <> TOKEN_COLON ->
          type (current p1) <> TOKEN_EQUAL ->
          exists e p',
            parser_parse_statement fuel p =
              Some (Some (AST_EXPR_STMT (node_line e) (node_column e) (Some e)), p')
            /\ postfix_chain
                 (AST_IDENTIFIER_EXPR (line name) (column name) (start name)) e))
  /\ (forall k, exists p',
         parser_parse_statement (11 + k) (parser_on "x = 42") =
           Some (Some (AST_VAR_DECL 1 2 "x" None
                         (Some (AST_LITERAL_EXPR 1 7 (LIT_INT 42)))), p')
         /\ had_error p' = false)
  /\ (forall k, exists p',
         parser_parse_statement (11 + k) (parser_on "x: int = 42") =
           Some (Some (AST_VAR_DECL 1 2 "x" (Some "int")
                         (Some (AST_LITERAL_EXPR 1 12 (LIT_INT 42)))), p')
         /\ had_error p' = false)
  /\ (forall k, exists p',
         parser_parse_statement (3 + k) (parser_on "x.y") =
           Some (Some (AST_EXPR_STMT 1 4
                         (Some (AST_MEMBER_EXPR 1 4
                                  (Some (AST_IDENTIFIER_EXPR 1 2 "x")) "y"))), p')
         /\ had_error p' = false).
Proof.
  split; [|repeat split; intros k; eexists;
            (split; [vm_compute; reflexivity|reflexivity])].
  intros p fuel Hc H0 Hf name p1 p2. repeat split.
  - intros H1. destruct fuel as [|n]; [lia|].
    rewrite statement_identifier_equal by assumption.
    replace (S n - 1)%nat with n by lia.
    destruct (parser_parse_expression_returns n p2) as (init & p' & E & _).
    { unfold p2, p1. pose proof (parser_advance_remaining_le p).
      pose proof (parser_advance_remaining_le (parser_advance p)). lia. }
    fold p1. fold p2. rewrite E. eauto.
  - intros H1. apply identifier_colon_statement; assumption.
  - intros H1 H2.
    destruct (identifier_expression_statement fuel p) as (e & p' & E & _ & C & _);
      auto; [lia|]. eauto.
Qed.

Lemma identifier_statement_witness :
  exists init p',
    parser_parse_expression 99 (parser_advance (parser_advance (parser_on "x = 42")))
      = Some (init, p')
    /\ parser_parse_statement 100 (parser_on "x = 42") =
         Some (Some (AST_VAR_DECL 1 2 "x" None init), p').
Proof.
  refine (proj1 (proj1 identifier_statement_is_declaration_or_expression
                       (parser_on "x = 42") 100%nat _ _ _) _).
  - apply parser_init_consistent.
  - reflexivity.
  - vm_compute. lia.
  - reflexivity.
Defined.

(* ================================================================= *)
(** ** Identifier statements stop before a binary operator *)

(** The default branch of [parser_parse_statement]. *)
Lemma statement_fallback n p :
  statement_keyword (type (current p)) = false ->
  parser_parse_statement (S n) p =
    match parser_parse_expression n p with
    | Some (Some e, q) =>
        Some (Some (AST_EXPR_STMT (node_line e) (node_column e) (Some e)), q)
    | Some (None, q) => Some (None, q)
    | None => None
    end.
Proof.
  intros H. simpl.
  rewrite parser_check_false by (intros E; rewrite E in H; discriminate).
  rewrite !parser_match_false by (intros E; rewrite E in H; discriminate).
  destruct (parser_parse_expression n p) as [[[e|] q]|]; reflexivity.
Qed.



(* ================================================================= *)
(** ** Primary positions without a primary *)

Lemma closes_or_ends_test t :
  ((t ==t TOKEN_RIGHT_PAREN) || (t ==t TOKEN_RIGHT_BRACKET) || (t ==t TOKEN_EOF))%bool
  = closes_or_ends t.
Proof. destruct t; reflexivity. Qed.

Lemma primary_without_primary n p :
  starts_primary (type (current p)) = false ->
  parser_parse_primary (S n) p =
    Some (None, if closes_or_ends (type (current p)) then p
                else parser_error_at_current p "Expected expression").
Proof.
  intros H. simpl. rewrite closes_or_ends_test.
  destruct (closes_or_ends (type (current p))); [reflexivity|].
  rewrite !parser_match_false by (intros E; rewrite E in H; discriminate).
  reflexivity.
Qed.

(** C8, as the code has it.  [()] as a primary reports an error (the
    message is printed for the opening parenthesis) and yields no node;
    [[]] yields an array literal with zero elements and reports nothing.  A
    primary position holding a token that starts no primary yields no node
    and consumes nothing; an error is reported there ("Expected
    expression", printed unless panic mode is on) only when the token is
    not [)], []] or the end of the input: on those three
    [parser_parse_primary] returns in silence and leaves the state as it
    was. *)
Theorem primary_without_primary_yields_no_node :
  (forall k, exists p',
      parser_parse_primary (11 + k) (parser_on "()") = Some (None, p')
      /\ had_error p' = true
      /\ stderr p' = [(make_token TOKEN_LEFT_PAREN "(" 1 2,
                       "Expected expression after '('")])
  /\ (forall k, exists p',
         parser_parse_primary (1 + k) (parser_on "[]") =
           Some (Some (AST_ARRAY_EXPR 1 2 (Some [])), p')
         /\ had_error p' = false /\ stderr p' = [])
  /\ (forall p n,
         starts_primary (type (current p)) = false ->
         (closes_or_ends (type (current p)) = true ->
          parser_parse_primary (S n) p = Some (None, p))
         /\ (closes_or_ends (type (current p)) = false ->
             exists p',
               parser_parse_primary (S n) p = Some (None, p')
               /\ same_cursor p' p
               /\ (consistent p -> had_error p' = true)
               /\ (panic_mode p = false ->
                   stderr p' = (stderr p ++ [(current p, "Expected expression")])%list)
               /\ (panic_mode p = true -> stderr p' = stderr p))).
Proof.
  split; [intros k; eexists; split; [vm_compute; reflexivity|split; reflexivity]|].
  split; [intros k; eexists; split; [vm_compute; reflexivity|split; reflexivity]|].
  intros p n H. rewrite primary_without_primary by assumption.
  split; intros Hc; rewrite Hc; [reflexivity|].
  eexists. split; [reflexivity|].
  split; [apply parser_error_at_cursor|].
  split; [apply had_error_parser_error_at_current|].
  unfold parser_error_at_current. rewrite parser_error_at_stderr.
  split; intros ->; reflexivity.
Qed.

Lemma primary_without_primary_witness :
  parser_parse_primary 1 (parser_on ")") = Some (None, parser_on ")").
Proof.
  refine (proj1 (proj2 (proj2 primary_without_primary_yields_no_node)
                       (parser_on ")") 0%nat _) _); reflexivity.
Defined.

(** At the end of the input (and likewise on [)] and []]) the primary
    parser yields no node and reports no error, with whatever fuel. *)
Lemma primary_at_end_of_input_reports_nothing :
  parser_parse_primary 1 (parser_on EmptyString) = Some (None, parser_on EmptyString)
  /\ had_error (parser_on EmptyString) = false
  /\ stderr (parser_on EmptyString) = []
  /\ ~ (exists fuel p',
          parser_parse_primary fuel (parser_on EmptyString) = Some (None, p')
          /\ (had_error p' = true \/ stderr p' <> [])).
Proof.
  repeat split; try reflexivity.
  intros (fuel & p' & H & Herr).
  destruct fuel as [|n]; [discriminate|].
  rewrite primary_without_primary in H by reflexivity.
  injection H as <-. destruct Herr as [Herr|Herr]; [discriminate|].
  apply Herr. reflexivity.
Qed.

(* ================================================================= *)
(** ** An [if] without a condition *)

(** On any other token the expression parser yields NULL and consumes
    nothing: in silence on [)], []] and the end of the input, with
    "Expected expression" otherwise. *)
Lemma expression_without_expression k p :
  expression_token (type (current p)) = false ->
  parser_parse_expression (10 + k) p =
    Some (None, if closes_or_ends (type (current p)) then p
                else parser_error_at_current p "Expected expression").
Proof.
  destruct p as [lx [t s l c] prev he pm err]. cbn [current type].
  intros H. destruct t; try discriminate H; destruct pm; vm_compute; reflexivity.
Qed.

Lemma if_node_has_condition fuel p l c t e p' :
  parse_if_statement fuel p <> Some (Some (AST_IF_STMT l c None t e), p').
Proof.
  destruct fuel as [|n]; [discriminate|]. simpl.
  destruct (parser_parse_expression n p) as [[[cond|] q]|]; try discriminate.
  destruct (if parser_check q TOKEN_LEFT_BRACE then _ else _) as [[tb q1]|];
    [|discriminate].
  destruct (parser_match q1 TOKEN_ELSE) as [m q2].
  destruct (if m then _ else _) as [[eb q3]|]; discriminate.
Qed.

(** C6, as the code has it.  When the condition position of an [if] holds
    no token the expression parser acts on, [parse_if_statement] flags an
    error and gives the statement up: it returns no node, parses neither
    branch and leaves the cursor on the offending token.  No [if] node ever
    carries a null condition. *)
Theorem if_without_condition_yields_no_node :
  (forall p k,
      consistent p ->
      expression_token (type (current p)) = false ->
      exists p',
        parse_if_statement (11 + k) p = Some (None, p')
        /\ had_error p' = true
        /\ panic_mode p' = true
        /\ same_cursor p' p)
  /\ (forall fuel p l c t e p',
         parse_if_statement fuel p <> Some (Some (AST_IF_STMT l c None t e), p')).
Proof.
  split; [|intros; apply if_node_has_condition].
  intros p k Hc H.
  change (11 + k)%nat with (S (10 + k)).
  cbn [parse_if_statement]. rewrite expression_without_expression by assumption.
  eexists. split; [reflexivity|].
  destruct (closes_or_ends (type (current p))).
  - split; [apply had_error_parser_error, Hc|].
    split; [apply parser_error_at_flags|apply parser_error_at_cursor].
  - assert (Hq : consistent (parser_error_at_current p "Expected expression"))
      by (eapply continues_consistent;
          [apply continues_parser_error_at_current|exact Hc]).
    split; [apply had_error_parser_error, Hq|].
    split; [apply parser_error_at_flags|].
    destruct (parser_error_at_cursor
                (parser_error_at_current p "Expected expression")
                (previous (parser_error_at_current p "Expected expression"))
                "Expected condition in if statement") as (E1 & E2 & E3).
    destruct (parser_error_at_cursor p (current p) "Expected expression")
      as (F1 & F2 & F3).
    unfold parser_error, parser_error_at_current, same_cursor in *.
    rewrite E1, E2, E3. auto.
Qed.

(** The statement [if { }]: the condition position holds [{]. *)
Lemma if_without_condition_witness :
  exists p',
    parse_if_statement 11 (parser_advance (parser_on "if { }")) = Some (None, p')
    /\ had_error p' = true
    /\ panic_mode p' = true
    /\ same_cursor p' (parser_advance (parser_on "if { }")).
Proof.
  refine (proj1 if_without_condition_yields_no_node
                (parser_advance (parser_on "if { }")) 0%nat _ _).
  - eapply continues_consistent;
      [apply continues_parser_advance|apply parser_init_consistent].
  - reflexivity.
Defined.

(** On [if { }] the statement parser returns no node at all, so in
    particular no [if] node with a null condition and a parsed block. *)
Lemma if_without_condition_gives_no_if_node :
  (exists p', parser_parse_statement 12 (parser_on "if { }") = Some (None, p')
              /\ had_error p' = true
              /\ type (current p') = TOKEN_LEFT_BRACE)
  /\ ~ (exists fuel l c t e p',
          parser_parse_statement fuel (parser_on "if { }") =
            Some (Some (AST_IF_STMT l c None t e), p')).
Proof.
  split; [eexists; split; [vm_compute; reflexivity|split; reflexivity]|].
  intros (fuel & l & c & t & e & p' & H).
  destruct fuel as [|n]; [discriminate|].
  cbn [parser_parse_statement] in H.
  rewrite parser_check_false in H by (vm_compute; discriminate).
  rewrite parser_match_true in H by reflexivity.
  exact (if_node_has_condition _ _ _ _ _ _ _ H).
Qed.

(* ================================================================= *)
(** ** The [for] statement *)

Lemma for_statement_one_name n p :
  type (current p) = TOKEN_IDENTIFIER ->
  type (current (parser_advance p)) = TOKEN_IN ->
  parse_for_statement (S n) p =
    match parser_parse_expression n (parser_advance (parser_advance p)) with
    | Some (Some it, q) =>
        match (if parser_check q TOKEN_LEFT_BRACE
               then parse_block_statement n q
               else parser_parse_statement n q) with
        | Some (body, q) =>
            Some (Some (AST_FOR_STMT (line (previous p)) (column (previous p))
                                     (start (current p)) (Some it) body None), q)
        | None => None
        end
    | Some (None, q) =>
        Some (None, parser_error q "Expected iterable expression in for loop")
    | None => None
    end.
Proof.
  intros H0 H1. cbn [parse_for_statement].
  destruct (parser_expect_cases p TOKEN_IDENTIFIER
              "Expected variable name in for loop") as [[_ ->]|[Hn _]];
    [|contradiction].
  rewrite parser_match_false by (rewrite H1; discriminate).
  destruct (parser_expect_cases (parser_advance p) TOKEN_IN
              "Expected 'in' in for loop") as [[_ ->]|[Hn _]];
    [|contradiction].
  destruct (parser_parse_expression n _) as [[[it|] q]|]; reflexivity.
Qed.

Lemma for_statement_two_names n p :
  type (current p) = TOKEN_IDENTIFIER ->
  let p1 := parser_advance p in
  type (current p1) = TOKEN_COMMA ->
  let p2 := parser_advance p1 in
  type (current p2) = TOKEN_IDENTIFIER ->
  let p3 := parser_advance p2 in
  type (current p3) = TOKEN_IN ->
  parse_for_statement (S n) p =
    match parser_parse_expression n (parser_advance p3) with
    | Some (Some it, q) =>
        match (if parser_check q TOKEN_LEFT_BRACE
               then parse_block_statement n q
               else parser_parse_statement n q) with
        | Some (body, q) =>
            Some (Some (AST_FOR_STMT (line (previous p)) (column (previous p))
                                     (start (current p2)) (Some it) body
                                     (Some (start (current p)))), q)
        | None => None
        end
    | Some (None, q) =>
        Some (None, parser_error q "Expected iterable expression in for loop")
    | None => None
    end.
Proof.
  intros H0 p1 H1 p2 H2 p3 H3. cbn [parse_for_statement].
  destruct (parser_expect_cases p TOKEN_IDENTIFIER
              "Expected variable name in for loop") as [[_ ->]|[Hn _]];
    [|contradiction].
  rewrite parser_match_true by assumption.
  destruct (parser_expect_cases p2 TOKEN_IDENTIFIER
              "Expected value variable after ','") as [[_ E]|[Hn _]];
    [|contradiction].
  fold p1. fold p2. rewrite E.
  destruct (parser_expect_cases p3 TOKEN_IN
              "Expected 'in' in for loop") as [[_ E']|[Hn _]];
    [|contradiction].
  fold p3. rewrite E'.
  destruct (parser_parse_expression n _) as [[[it|] q]|]; reflexivity.
Qed.

Lemma for_statement_requires_in n p r p' :
  consistent p ->
  type (current (for_after_names p)) <> TOKEN_IN ->
  parse_for_statement n p = Some (r, p') ->
  had_error p' = true.
Proof.
  intros Hc Hin H.
  destruct n as [|n]; [discriminate|]. cbn [parse_for_statement] in H.
  unfold for_after_names in Hin.
  pose proof (continues_parser_expect p TOKEN_IDENTIFIER
                "Expected variable name in for loop") as C1.
  destruct (parser_expect p TOKEN_IDENTIFIER _) as [var q1]. cbn [snd] in C1.
  pose proof (continues_parser_advance q1) as C2.
  destruct (parser_match_cases q1 TOKEN_COMMA) as [[_ E]|[_ E]];
    rewrite E in H, Hin; clear E.
  - pose proof (continues_parser_expect (parser_advance q1) TOKEN_IDENTIFIER
                  "Expected value variable after ','") as C3.
    destruct (parser_expect (parser_advance q1) TOKEN_IDENTIFIER _) as [vv q2].
    cbn [snd] in C3, Hin.
    destruct (parser_expect_cases q2 TOKEN_IN "Expected 'in' in for loop")
      as [[Hy _]|[_ E]]; [contradiction|]. rewrite E in H.
    assert (He : had_error (parser_error_at_current q2 "Expected 'in' in for loop")
                 = true).
    { apply had_error_parser_error_at_current.
      eapply continues_consistent; [|exact Hc].
      eapply continues_trans; [exact C1|].
      eapply continues_trans; [exact C2|exact C3]. }
    destruct (parser_parse_expression n _) as [[it q3]|] eqn:E3; [|discriminate].
    apply parser_parse_expression_continues in E3.
    pose proof (continues_had_error _ _ E3 He) as H3.
    destruct it as [it|].
    + destruct (if parser_check q3 TOKEN_LEFT_BRACE then _ else _)
        as [[body q4]|] eqn:E4; [|discriminate].
      injection H as <- <-.
      eapply continues_had_error; [|exact H3].
      destruct (parser_check q3 TOKEN_LEFT_BRACE).
      * eapply parse_block_statement_continues, E4.
      * eapply parser_parse_statement_continues, E4.
    + injection H as <- <-.
      eapply continues_had_error; [apply continues_parser_error|exact H3].
  - destruct (parser_expect_cases q1 TOKEN_IN "Expected 'in' in for loop")
      as [[Hy _]|[_ E]]; [contradiction|]. rewrite E in H.
    assert (He : had_error (parser_error_at_current q1 "Expected 'in' in for loop")
                 = true).
    { apply had_error_parser_error_at_current.
      eapply continues_consistent; [exact C1|exact Hc]. }
    destruct (parser_parse_expression n _) as [[it q3]|] eqn:E3; [|discriminate].
    apply parser_parse_expression_continues in E3.
    pose proof (continues_had_error _ _ E3 He) as H3.
    destruct it as [it|].
    + destruct (if parser_check q3 TOKEN_LEFT_BRACE then _ else _)
        as [[body q4]|] eqn:E4; [|discriminate].
      injection H as <- <-.
      eapply continues_had_error; [|exact H3].
      destruct (parser_check q3 TOKEN_LEFT_BRACE).
      * eapply parse_block_statement_continues, E4.
      * eapply parser_parse_statement_continues, E4.
    + injection H as <- <-.
      eapply continues_had_error; [apply continues_parser_error|exact H3].
Qed.

(** C9.  [parse_for_statement] runs with the [for] keyword just consumed.
    With one name before [in] the node's value variable is that name and
    its index variable is absent; with two names separated by a comma the
    first becomes the index variable and the second the value variable.
    The iterable is the expression after [in] and the body the block (or
    single statement) after it.  When the token where [in] is due is not
    [in], every result of the function has the error flag set; on
    [for i xs { }] the diagnostic is printed for [xs]. *)
Theorem for_statement_value_and_index_variables :
  (forall p n it q body q',
      type (current p) = TOKEN_IDENTIFIER ->
      type (current (parser_advance p)) = TOKEN_IN ->
      parser_parse_expression n (parser_advance (parser_advance p))
        = Some (Some it, q) ->
      (if parser_check q TOKEN_LEFT_BRACE
       then parse_block_statement n q
       else parser_parse_statement n q) = Some (body, q') ->
      parse_for_statement (S n) p =
        Some (Some (AST_FOR_STMT (line (previous p)) (column (previous p))
                                 (start (current p)) (Some it) body None), q'))
  /\ (forall p n it q body q',
         type (current p) = TOKEN_IDENTIFIER ->
         type (current (parser_advance p)) = TOKEN_COMMA ->
         type (current (parser_advance (parser_advance p))) = TOKEN_IDENTIFIER ->
         type (current (parser_advance (parser_advance (parser_advance p))))
           = TOKEN_IN ->
         parser_parse_expression n
           (parser_advance (parser_advance (parser_advance (parser_advance p))))
           = Some (Some it, q) ->
         (if parser_check q TOKEN_LEFT_BRACE
          then parse_block_statement n q
          else parser_parse_statement n q) = Some (body, q') ->
         parse_for_statement (S n) p =
           Some (Some (AST_FOR_STMT
                         (line (previous p)) (column (previous p))
                         (start (current (parser_advance (parser_advance p))))
                         (Some it) body (Some (start (current p)))), q'))
  /\ (forall p n r p',
         consistent p ->
         type (current (for_after_names p)) <> TOKEN_IN ->
         parse_for_statement n p = Some (r, p') ->
         had_error p' = true)
  /\ (forall k, exists p',
         parser_parse_statement (12 + k) (parser_on "for i in xs { }") =
           Some (Some (AST_FOR_STMT 1 4 "i"
                         (Some (AST_IDENTIFIER_EXPR 1 12 "xs"))
                         (Some (AST_BLOCK_STMT 1 14 (Some []))) None), p')
         /\ had_error p' = false)
  /\ (forall k, exists p',
         parser_parse_statement (12 + k) (parser_on "for i, v in xs { }") =
           Some (Some (AST_FOR_STMT 1 4 "v"
                         (Some (AST_IDENTIFIER_EXPR 1 15 "xs"))
                         (Some (AST_BLOCK_STMT 1 17 (Some []))) (Some "i")), p')
         /\ had_error p' = false)
  /\ (forall k, exists p',
         parser_parse_statement (12 + k) (parser_on "for i xs { }") =
           Some (Some (AST_FOR_STMT 1 4 "i"
                         (Some (AST_IDENTIFIER_EXPR 1 9 "xs"))
                         (Some (AST_BLOCK_STMT 1 11 (Some []))) None), p')
         /\ had_error p' = true
         /\ stderr p' = [(make_token TOKEN_IDENTIFIER "xs" 1 9,
                          "Expected 'in' in for loop")]).
Proof.
  split.
  { intros p n it q body q' H0 H1 Hit Hbody.
    rewrite for_statement_one_name by assumption. rewrite Hit, Hbody.
    reflexivity. }
  split.
  { intros p n it q body q' H0 H1 H2 H3 Hit Hbody.
    rewrite for_statement_two_names by assumption. rewrite Hit, Hbody.
    reflexivity. }
  split; [intros; eapply for_statement_requires_in; eassumption|].
  split; [intros k; eexists; (split; [vm_compute; reflexivity|reflexivity])|].
  split; [intros k; eexists; (split; [vm_compute; reflexivity|reflexivity])|].
  intros k; eexists; (split; [vm_compute; reflexivity|split; reflexivity]).
Qed.

Lemma for_statement_witness :
  exists q',
    parse_for_statement 12 (parser_advance (parser_on "for i, v in xs { }")) =
      Some (Some (AST_FOR_STMT 1 4 "v"
                    (Some (AST_IDENTIFIER_EXPR 1 15 "xs"))
                    (Some (AST_BLOCK_STMT 1 17 (Some []))) (Some "i")), q').
Proof.
  set (p := parser_advance (parser_on "for i, v in xs { }")).
  destruct (parser_parse_expression 11
              (parser_advance (parser_advance (parser_advance (parser_advance p)))))
    as [[[it|] q]|] eqn:Hit; try (vm_compute in Hit; discriminate Hit).
  destruct (if parser_check q TOKEN_LEFT_BRACE
            then parse_block_statement 11 q
            else parser_parse_statement 11 q) as [[body q']|] eqn:Hbody.
  - exists q'.
    rewrite (proj1 (proj2 for_statement_value_and_index_variables)
               p 11%nat it q body q' eq_refl eq_refl eq_refl eq_refl Hit Hbody).
    vm_compute in Hit. injection Hit as <- <-.
    vm_compute in Hbody. injection Hbody as <- <-.
    reflexivity.
  - vm_compute in Hit. injection Hit as <- <-.
    vm_compute in Hbody. discriminate Hbody.
Defined.

(* ================================================================= *)
(** ** A stray closing delimiter stops the parser for good

    On [)] and []] the primary parser returns NULL without a diagnostic and
    without consuming the token; nothing further up the expression chain
    consumes it either.  A loop that calls the statement parser until the
    input changes therefore never ends there. *)

Lemma expression_idles_at_stray_closer n p :
  stray_closer (type (current p)) = true ->
  idles (parser_parse_expression n p) p.
Proof.
  destruct p as [lx [t s l c] prev he pm err]. cbn [current type].
  intros H. destruct t; try discriminate H;
    (do 10 (destruct n as [|n]; [left; vm_compute; reflexivity|]));
    right; vm_compute; reflexivity.
Qed.

Lemma statement_idles_at_stray_closer n p :
  stray_closer (type (current p)) = true ->
  idles (parser_parse_statement n p) p.
Proof.
  intros H. destruct n as [|n]; [left; reflexivity|].
  rewrite statement_fallback
    by (destruct (type (current p)); try discriminate H; reflexivity).
  destruct (expression_idles_at_stray_closer n p H) as [-> | ->];
    [left|right]; reflexivity.
Qed.

Lemma declaration_idles_at_stray_closer n p :
  stray_closer (type (current p)) = true ->
  idles (parser_parse_declaration n p) p.
Proof.
  intros H. destruct n as [|n]; [left; reflexivity|].
  cbn [parser_parse_declaration].
  rewrite parser_match_false by (intros E; rewrite E in H; discriminate).
  apply statement_idles_at_stray_closer, H.
Qed.

Lemma parse_block_loop_never_returns_at_stray_closer p :
  stray_closer (type (current p)) = true ->
  forall n stmts, parse_block_loop n stmts p = None.
Proof.
  intros H. induction n as [|n IH]; intros stmts; [reflexivity|].
  cbn [parse_block_loop].
  rewrite parser_check_false by (intros E; rewrite E in H; discriminate).
  unfold parser_is_at_end.
  replace (type (current p) ==t TOKEN_EOF) with false
    by (destruct (type (current p)); try discriminate H; reflexivity).
  cbn [negb andb].
  destruct (statement_idles_at_stray_closer n p H) as [-> | ->];
    [reflexivity|apply IH].
Qed.

Lemma parser_parse_loop_never_returns_at_stray_closer p :
  stray_closer (type (current p)) = true ->
  panic_mode p = false ->
  forall n decls, parser_parse_loop n decls p = None.
Proof.
  intros H Hp. induction n as [|n IH]; intros decls; [reflexivity|].
  cbn [parser_parse_loop]. unfold parser_is_at_end.
  replace (type (current p) ==t TOKEN_EOF) with false
    by (destruct (type (current p)); try discriminate H; reflexivity).
  cbn [negb].
  destruct (declaration_idles_at_stray_closer n p H) as [-> | ->];
    [reflexivity|]. rewrite Hp. apply IH.
Qed.

Lemma parser_parse_never_returns_at_stray_closer p :
  stray_closer (type (current p)) = true ->
  panic_mode p = false ->
  forall fuel, parser_parse fuel p = None.
Proof.
  intros H Hp fuel. unfold parser_parse.
  rewrite parser_parse_loop_never_returns_at_stray_closer by assumption.
  reflexivity.
Qed.

(* ================================================================= *)
(** ** A construct the parser does not know stops it as well

    On [import] and [class] the statement parser reports "Expected
    expression" and consumes nothing; resynchronisation then stops at
    once, these being tokens it looks for.  The top-level loop reports the
    same error over and over. *)

Lemma declaration_at_unparsed_construct n p :
  unparsed_construct (type (current p)) = true ->
  parser_parse_declaration n p = None
  \/ parser_parse_declaration n p =
       Some (None, parser_error_at_current p "Expected expression").
Proof.
  destruct p as [lx [t s l c] prev he pm err]. cbn [current type].
  intros H. destruct t; try discriminate H; destruct pm;
    (do 12 (destruct n as [|n]; [left; vm_compute; reflexivity|]));
    right; vm_compute; reflexivity.
Qed.

Lemma synchronize_at_unparsed_construct n p :
  unparsed_construct (type (current p)) = true ->
  parser_synchronize (S n) p = Some (set_panic_mode p false).
Proof.
  intros H. unfold parser_synchronize. cbn [parser_synchronize_loop].
  change (current (set_panic_mode p false)) with (current p).
  change (previous (set_panic_mode p false)) with (previous p).
  destruct (type (current p)); try discriminate H; cbn [negb];
    replace (_ ==t TOKEN_EOF) with false by reflexivity; cbn [negb];
    destruct (_ ==t TOKEN_NEWLINE); reflexivity.
Qed.

Lemma parser_parse_loop_never_returns_at_unparsed_construct n :
  forall p decls,
    unparsed_construct (type (current p)) = true ->
    parser_parse_loop n decls p = None.
Proof.
  induction n as [|n IH]; intros p decls H; [reflexivity|].
  cbn [parser_parse_loop]. unfold parser_is_at_end.
  replace (type (current p) ==t TOKEN_EOF) with false
    by (destruct (type (current p)); try discriminate H; reflexivity).
  cbn [negb].
  destruct (declaration_at_unparsed_construct n p H) as [-> | ->];
    [reflexivity|].
  unfold parser_error_at_current.
  rewrite (proj2 (parser_error_at_flags p (current p) "Expected expression")).
  destruct n as [|n]; [reflexivity|].
  rewrite synchronize_at_unparsed_construct
    by (destruct (parser_error_at_cursor p (current p) "Expected expression")
          as (_ & -> & _); exact H).
  apply IH.
  change (current (set_panic_mode ?q false)) with (current q).
  destruct (parser_error_at_cursor p (current p) "Expected expression")
    as (_ & -> & _). exact H.
Qed.

(* ================================================================= *)
(** ** The result of [parser_parse] *)

(** Whenever [parser_parse] returns, it returns NULL exactly when the error
    flag is set at the end, and otherwise the program node holding the
    declarations its loop collected. *)
Lemma parser_parse_result fuel p r p' :
  parser_parse fuel p = Some (r, p') ->
  exists decls,
    parser_parse_loop fuel (Some []) p = Some (decls, p')
    /\ r = (if had_error p' then None else Some (AST_PROGRAM 1 1 decls)).
Proof.
  unfold parser_parse. intros H.
  destruct (parser_parse_loop fuel _ p) as [[decls q]|] eqn:E; [|discriminate].
  exists decls. destruct (had_error q) eqn:Eh; injection H as <- <-;
    rewrite Eh; auto.
Qed.

(** C2 at the inputs [)] and [import x].  On [)] no error is ever
    reported -- each call of [parser_parse_declaration] that returns,
    returns NULL in the very state it was called in, with the error flag
    clear and nothing printed -- and yet [parser_parse] yields neither a
    program node nor NULL: it does not return, whatever the fuel.  On
    [import x] the first declaration reports an error and sets
    [had_error], and [parser_parse] does not return NULL either: it does
    not return. *)
Theorem parser_parse_never_returns_on_some_inputs :
  (forall fuel, parser_parse fuel (parser_on ")") = None)
  /\ (forall fuel r p',
         parser_parse_declaration fuel (parser_on ")") = Some (r, p') ->
         r = None /\ p' = parser_on ")")
  /\ had_error (parser_on ")") = false
  /\ stderr (parser_on ")") = []
  /\ (forall fuel, parser_parse fuel (parser_on "import x") = None)
  /\ (forall k, exists p',
         parser_parse_declaration (12 + k) (parser_on "import x") = Some (None, p')
         /\ had_error p' = true
         /\ stderr p' = [(make_token TOKEN_IMPORT "import" 1 7,
                          "Expected expression")]).
Proof.
  split; [apply parser_parse_never_returns_at_stray_closer; reflexivity|].
  split.
  { intros fuel r p' H.
    destruct (declaration_idles_at_stray_closer fuel (parser_on ")") eq_refl)
      as [E|E]; rewrite E in H; [discriminate|].
    injection H as <- <-. auto. }
  split; [reflexivity|]. split; [reflexivity|].
  split.
  - intros fuel. unfold parser_parse.
    rewrite parser_parse_loop_never_returns_at_unparsed_construct by reflexivity.
    reflexivity.
  - intros k. eexists. split; [vm_compute; reflexivity|]. split; reflexivity.
Qed.

(* ================================================================= *)
(** ** Error survival *)

(** Resynchronisation returns, given fuel for every token left, and stops
    at the end of the input, right after a newline token, or on a token
    that starts a construct. *)
Lemma parser_synchronize_loop_returns n :
  forall p, (remaining p < n)%nat ->
  exists p', parser_synchronize_loop n p = Some p'
             /\ (type (current p') = TOKEN_EOF
                 \/ type (previous p') = TOKEN_NEWLINE
                 \/ starts_construct (type (current p')) = true).
Proof.
  induction n as [|n IH]; intros p Hn; [lia|].
  cbn [parser_synchronize_loop].
  destruct (type (current p) ==t TOKEN_EOF) eqn:Ee; cbn [negb].
  { apply token_type_eqb_eq in Ee. eauto. }
  destruct (type (previous p) ==t TOKEN_NEWLINE) eqn:En.
  { apply token_type_eqb_eq in En. eauto. }
  apply token_type_eqb_neq in Ee.
  pose proof (parser_advance_remaining_lt p Ee) as Hlt.
  destruct (starts_construct (type (current p))) eqn:Es.
  - exists p. split; [|auto].
    destruct (type (current p)); try discriminate Es; reflexivity.
  - destruct (IH (parser_advance p)) as (p' & E & Hp'); [lia|].
    exists p'. split; [|exact Hp'].
    destruct (type (current p)); try discriminate Es; exact E.
Qed.

Lemma parser_synchronize_returns n p :
  (remaining p < n)%nat ->
  exists p', parser_synchronize n p = Some p'
             /\ (type (current p') = TOKEN_EOF
                 \/ type (previous p') = TOKEN_NEWLINE
                 \/ starts_construct (type (current p')) = true).
Proof. intros H. apply parser_synchronize_loop_returns. exact H. Qed.

(** The example of the specification: a call with its closing parenthesis
    missing, followed by a well-formed [if].  One error is reported, for
    the first statement; the loop resynchronises on [if] with panic mode
    off again and collects the [if] node as second declaration. *)
Example missing_parenthesis_then_if :
  forall k, exists p',
    parser_parse_loop (16 + k) (Some []) (parser_on "foo(1, 2 if y { }") =
      Some (Some
              [ Some (AST_EXPR_STMT 1 12
                  (Some (AST_CALL_EXPR 1 12
                           (Some (AST_IDENTIFIER_EXPR 1 4 "foo"))
                           (Some [Some (AST_LITERAL_EXPR 1 6 (LIT_INT 1));
                                  Some (AST_LITERAL_EXPR 1 9 (LIT_INT 2))]))));
                Some (AST_IF_STMT 1 12
                  (Some (AST_IDENTIFIER_EXPR 1 14 "y"))
                  (Some (AST_BLOCK_STMT 1 16 (Some [])))
                  None) ],
            p')
    /\ had_error p' = true
    /\ panic_mode p' = false
    /\ stderr p' = [(make_token TOKEN_IF "if" 1 12, "Expected ')' after arguments")].
Proof.
  intros k. eexists. split; [vm_compute; reflexivity|].
  repeat split; reflexivity.
Qed.

(** C3 at the input [) if y { }].  The stray [)] is an invalid construct
    standing right before the keyword [if], a token at which
    [parser_synchronize] would stop.  But no error is reported for it, so
    the loop never resynchronises: it asks for the same declaration again
    and again, and the [if] statement behind it is never parsed. *)
Theorem stray_parenthesis_blocks_following_if :
  (forall fuel decls,
      parser_parse_loop fuel decls (parser_on ") if y { }") = None)
  /\ (forall fuel, parser_parse fuel (parser_on ") if y { }") = None)
  /\ (forall fuel r p',
         parser_parse_declaration fuel (parser_on ") if y { }") = Some (r, p') ->
         r = None /\ p' = parser_on ") if y { }")
  /\ panic_mode (parser_on ") if y { }") = false
  /\ stderr (parser_on ") if y { }") = [].
Proof.
  split; [intros; apply parser_parse_loop_never_returns_at_stray_closer;
          reflexivity|].
  split; [apply parser_parse_never_returns_at_stray_closer; reflexivity|].
  split; [|split; reflexivity].
  intros fuel r p' H.
  destruct (declaration_idles_at_stray_closer fuel (parser_on ") if y { }") eq_refl)
    as [E|E]; rewrite E in H; [discriminate|].
  injection H as <- <-. auto.
Qed.

(* ================================================================= *)
(** ** Blocks *)

(** What the statement loop of a block returns, when it returns: the list
    it was given followed by the non-NULL statements it gathered, with the
    cursor on [}] or at the end of the input. *)
Lemma parse_block_loop_result n :
  forall stmts p r p',
    parse_block_loop n (Some stmts) p = Some (r, p') ->
    exists gathered,
      r = Some (stmts ++ gathered)%list
      /\ Forall (fun s => s <> None) gathered
      /\ (type (current p') = TOKEN_RIGHT_BRACE \/ type (current p') = TOKEN_EOF).
Proof.
  induction n as [|n IH]; intros stmts p r p' H; [discriminate|].
  cbn [parse_block_loop] in H.
  unfold parser_check, parser_is_at_end in H.
  destruct (type (current p) ==t TOKEN_RIGHT_BRACE) eqn:Eb; cbn [negb andb] in H.
  { injection H as <- <-. exists []. rewrite app_nil_r.
    apply token_type_eqb_eq in Eb. auto. }
  destruct (type (current p) ==t TOKEN_EOF) eqn:Ee; cbn [negb] in H.
  { injection H as <- <-. exists []. rewrite app_nil_r.
    apply token_type_eqb_eq in Ee. auto. }
  destruct (parser_parse_statement n p) as [[[stmt|] q]|]; [| |discriminate].
  - cbn [ast_list_append] in H. apply IH in H.
    destruct H as (gathered & -> & Hg & Hc).
    exists (Some stmt :: gathered). rewrite <- app_assoc. repeat split; auto.
    constructor; [discriminate|assumption].
  - apply IH in H. exact H.
Qed.

(** What [parse_block_statement] returns, when it returns: always a block
    node, whose statement list is present; and when the loop stopped at the
    end of the input instead of on [}] the error flag is set. *)
Lemma parse_block_statement_result n p r p' :
  consistent p ->
  parse_block_statement n p = Some (r, p') ->
  exists l c stmts q,
    r = Some (AST_BLOCK_STMT l c (Some stmts))
    /\ Forall (fun s => s <> None) stmts
    /\ ((type (current q) = TOKEN_RIGHT_BRACE /\ p' = parser_advance q)
        \/ (type (current q) = TOKEN_EOF
            /\ p' = parser_error_at_current q "Expected '}' after block"
            /\ had_error p' = true)).
Proof.
  intros Hc H. destruct n as [|n]; [discriminate|].
  cbn [parse_block_statement] in H.
  pose proof (continues_parser_expect p TOKEN_LEFT_BRACE
                "Expected '{' to begin block") as C1.
  destruct (parser_expect p TOKEN_LEFT_BRACE _) as [brace q0]. cbn [snd] in C1.
  destruct (parse_block_loop n ast_list_create q0) as [[stmts q]|] eqn:E;
    [|discriminate].
  pose proof (proj1 (proj2 (statement_parsers_continue_all n)) _ _ _ _ E) as C2.
  apply parse_block_loop_result in E. destruct E as (gathered & -> & Hg & Hq).
  destruct (parser_expect_cases q TOKEN_RIGHT_BRACE "Expected '}' after block")
    as [[Ht E]|[Ht E]]; rewrite E in H; injection H as <- <-;
    exists (line brace), (column brace), gathered, q;
    (split; [reflexivity|]); (split; [assumption|]).
  - left. auto.
  - right. destruct Hq as [Hq|Hq]; [contradiction|].
    repeat split; auto.
    apply had_error_parser_error_at_current.
    eapply continues_consistent; [|exact Hc].
    eapply continues_trans; eassumption.
Qed.

(** C7 at the input [{ )], a block whose closing brace is missing.  The
    statement parser run on the [)] returns NULL without consuming it, so
    the loop of the block calls it again in the same state, for ever:
    [parse_block_statement] yields no block node (it yields nothing), and
    neither does a program that contains such a block, as [loop { )]. *)
Theorem block_with_stray_parenthesis_never_returns :
  (forall fuel, parse_block_statement fuel (parser_on "{ )") = None)
  /\ (forall fuel, parser_parse fuel (parser_on "loop { )") = None)
  /\ (forall fuel r p',
         parser_parse_statement fuel (parser_advance (parser_on "{ )"))
           = Some (r, p') ->
         r = None /\ p' = parser_advance (parser_on "{ )")).
Proof.
  assert (Hblock : forall p,
             type (current p) = TOKEN_LEFT_BRACE ->
             stray_closer (type (current (parser_advance p))) = true ->
             forall fuel, parse_block_statement fuel p = None).
  { intros p H1 H2 fuel. destruct fuel as [|n]; [reflexivity|].
    cbn [parse_block_statement].
    destruct (parser_expect_cases p TOKEN_LEFT_BRACE "Expected '{' to begin block")
      as [[_ ->]|[Hn _]]; [|contradiction].
    rewrite parse_block_loop_never_returns_at_stray_closer by assumption.
    reflexivity. }
  split; [apply Hblock; reflexivity|].
  split.
  - intros fuel. unfold parser_parse.
    assert (Hloop : forall n decls,
               parser_parse_loop n decls (parser_on "loop { )") = None).
    { intros n decls. destruct n as [|n]; [reflexivity|].
      cbn [parser_parse_loop].
      replace (parser_is_at_end (parser_on "loop { )")) with false by reflexivity.
      cbn [negb].
      destruct n as [|n]; [reflexivity|]. cbn [parser_parse_declaration].
      rewrite parser_match_false by (vm_compute; discriminate).
      destruct n as [|n]; [reflexivity|]. cbn [parser_parse_statement].
      rewrite parser_check_false by (vm_compute; discriminate).
      rewrite !parser_match_false by (vm_compute; discriminate).
      rewrite parser_match_true by reflexivity.
      destruct n as [|n]; [reflexivity|]. cbn [parse_loop_statement].
      rewrite parser_check_true by reflexivity.
      rewrite Hblock by reflexivity. reflexivity. }
    rewrite Hloop. reflexivity.
  - intros fuel r p' H.
    destruct (statement_idles_at_stray_closer fuel
                (parser_advance (parser_on "{ )")) eq_refl) as [E|E];
      rewrite E in H; [discriminate|].
    injection H as <- <-. auto.
Qed.

(* ================================================================= *)
(** ** The lexer and the text

    What [lexer_next_token] reads, it takes from the front of the unread
    text, character by character, into the lexeme. *)

Lemma append_assoc (a b c : string) : (a ++ b) ++ c = a ++ (b ++ c).
Proof. induction a; simpl; congruence. Qed.

Lemma append_nil_r (a : string) : a ++ "" = a.
Proof. induction a; simpl; congruence. Qed.

Lemma scans_refl lx : scans lx lx.
Proof. exists "". rewrite append_nil_r. auto. Qed.

Lemma scans_trans a b c : scans a b -> scans b c -> scans a c.
Proof.
  intros (s & H1 & H2) (t & H3 & H4). exists (s ++ t).
  rewrite H3, H1, H2, H4, !append_assoc. auto.
Qed.

Lemma scans_advance_ lx : scans lx (advance_ lx).
Proof.
  unfold advance_, advance, scans. destruct (lex_current lx) as [|c rest]; simpl.
  - exists "". rewrite append_nil_r. auto.
  - exists (String c ""). auto.
Qed.

Lemma scans_set_line_column lx l c : scans lx (set_line_column lx l c).
Proof. exists "". simpl. rewrite append_nil_r. auto. Qed.

Lemma scans_match_char lx c : scans lx (snd (match_char lx c)).
Proof.
  unfold match_char. destruct (lex_current lx) as [|d rest] eqn:E; simpl.
  - apply scans_refl.
  - destruct (Ascii.eqb d c); simpl; [|apply scans_refl].
    exists (String d ""). simpl. auto.
Qed.

Lemma scans_advance_while pred fuel : forall lx, scans lx (advance_while pred fuel lx).
Proof.
  induction fuel as [|n IH]; intros lx; simpl; [apply scans_refl|].
  destruct (pred (peek lx)); [|apply scans_refl].
  eapply scans_trans; [apply scans_advance_|apply IH].
Qed.

Lemma scans_skip_line_comment fuel : forall lx, scans lx (skip_line_comment fuel lx).
Proof.
  induction fuel as [|n IH]; intros lx; simpl; [apply scans_refl|].
  destruct (_ && _); [|apply scans_refl].
  eapply scans_trans; [apply scans_advance_|apply IH].
Qed.

Lemma scans_skip_block_comment fuel : forall lx, scans lx (skip_block_comment fuel lx).
Proof.
  induction fuel as [|n IH]; intros lx; simpl; [apply scans_refl|].
  destruct (is_at_end lx); [apply scans_refl|].
  destruct (_ && _).
  - eapply scans_trans; apply scans_advance_.
  - eapply scans_trans; [|apply IH].
    destruct (Ascii.eqb (peek lx) newline).
    + eapply scans_trans; [apply scans_set_line_column|apply scans_advance_].
    + apply scans_advance_.
Qed.

Lemma scans_skip_whitespace_loop fuel : forall lx, scans lx (skip_whitespace_loop fuel lx).
Proof.
  induction fuel as [|n IH]; intros lx; simpl; [apply scans_refl|].
  repeat match goal with
         | |- context [if ?b then _ else _] => destruct b
         end; try apply scans_refl;
    (eapply scans_trans; [|apply IH]).
  - apply scans_advance_.
  - eapply scans_trans; [apply scans_set_line_column|apply scans_advance_].
  - apply scans_skip_line_comment.
  - eapply scans_trans; [|apply scans_skip_block_comment].
    eapply scans_trans; apply scans_advance_.
Qed.

Lemma scans_scan_string_loop q fuel : forall lx, scans lx (scan_string_loop q fuel lx).
Proof.
  induction fuel as [|n IH]; intros lx; simpl; [apply scans_refl|].
  destruct (_ && _); [|apply scans_refl].
  eapply scans_trans; [|apply IH].
  eapply scans_trans; [|apply scans_advance_].
  eapply scans_trans with (b := if Ascii.eqb (peek lx) newline
                                then set_line_column lx (lex_line lx + 1) 0 else lx).
  - destruct (Ascii.eqb (peek lx) newline);
      [apply scans_set_line_column|apply scans_refl].
  - match goal with |- scans ?a (if ?b then _ else _) => destruct b end;
      [apply scans_advance_|apply scans_refl].
Qed.

Lemma scans_identifier lx : scans lx (snd (identifier lx)).
Proof. apply scans_advance_while. Qed.

Lemma scans_number lx : scans lx (snd (number lx)).
Proof.
  unfold number. destruct (_ && _); cbn [snd].
  - eapply scans_trans; [apply scans_advance_while|].
    eapply scans_trans; [apply scans_advance_|apply scans_advance_while].
  - apply scans_advance_while.
Qed.

Lemma scans_scan_string lx q : scans lx (snd (scan_string lx q)).
Proof.
  unfold scan_string. destruct (is_at_end _); cbn [snd].
  - apply scans_scan_string_loop.
  - eapply scans_trans; [apply scans_scan_string_loop|apply scans_advance_].
Qed.

Lemma scans_two lx c yes no : scans lx (snd (two lx c yes no)).
Proof.
  unfold two. pose proof (scans_match_char lx c).
  destruct (match_char lx c); assumption.
Qed.

Lemma scans_one lx t : scans lx (snd (one lx t)).
Proof. apply scans_refl. Qed.

Lemma lexer_next_token_scans lx :
  scans (token_start lx) (snd (lexer_next_token lx)).
Proof.
  unfold lexer_next_token. fold (token_start lx).
  set (l0 := token_start lx).
  destruct (is_at_end l0); [apply scans_refl|].
  pose proof (scans_advance_ l0) as Hadv. unfold advance_ in Hadv.
  destruct (advance l0) as [c l1]. cbn [snd] in Hadv.
  pose proof (scans_match_char l1 "."%char) as Hm.
  destruct (match_char l1 "."%char) as [m l2]; cbn [snd] in Hm.
  eapply scans_trans; [exact Hadv|].
  repeat match goal with
         | |- context [if ?b then _ else _] => destruct b
         end;
  first [ apply scans_identifier | apply scans_number
        | apply scans_two | apply scans_scan_string | apply scans_one
        | apply scans_refl
        | eapply scans_trans; [exact Hm|apply scans_two]
        | eapply scans_trans; [exact Hm|apply scans_refl] ].
Qed.

(** What [lexer_next_token] does after the white space, by the first
    character of the token. *)
Lemma lexer_next_token_cases lx :
  match lex_current (token_start lx) with
  | EmptyString =>
      lexer_next_token lx = (make_current_token (token_start lx) TOKEN_EOF,
                             token_start lx)
  | String c rest =>
      let l1 := mkLexer (String c "") rest (lex_line (token_start lx))
                        (lex_column (token_start lx) + 1) in
      if isalpha c || Ascii.eqb c "_" then lexer_next_token lx = identifier l1
      else if isdigit c then lexer_next_token lx = number l1
      else if is_quote c then lexer_next_token lx = scan_string l1 c
      else
        (exists t,
            symbol_token t = true
            /\ fst (lexer_next_token lx) =
               make_current_token (snd (lexer_next_token lx)) t
            /\ scans l1 (snd (lexer_next_token lx)))
        \/ lexer_next_token lx =
           (error_token "Unexpected character" (lex_line l1) (lex_column l1), l1)
  end.
Proof.
  unfold lexer_next_token. fold (token_start lx).
  set (l0 := token_start lx).
  assert (Hs : lex_start l0 = "") by reflexivity.
  unfold is_at_end, advance. destruct (lex_current l0) as [|c rest] eqn:E;
    [reflexivity|]. rewrite Hs. cbn [append].
  set (l1 := mkLexer _ _ _ _). cbv zeta.
  destruct (isalpha c || Ascii.eqb c "_"); [reflexivity|].
  destruct (isdigit c); [reflexivity|].
  fold (is_quote c).
  destruct (is_quote c) eqn:Hq.
  - unfold is_quote in Hq. apply orb_true_iff in Hq.
    destruct Hq as [Hq|Hq]; apply Ascii.eqb_eq in Hq; subst c; reflexivity.
  - pose proof (scans_match_char l1 "."%char) as Hm.
    destruct (match_char l1 "."%char) as [m l2]; cbn [snd] in Hm.
    repeat match goal with
           | |- context [if Ascii.eqb c ?x then _ else _] => destruct (Ascii.eqb c x)
           end;
    try (right; reflexivity);
    left;
    try (destruct m);
    unfold one, two;
    try match goal with
        | |- context [match_char ?l ?x] =>
            let H := fresh in
            pose proof (scans_match_char l x) as H;
            destruct (match_char l x) as [[] ?]; cbn [snd] in H
        end;
    cbn [fst snd];
    eexists; (split; [|split; [reflexivity|]]);
    first [reflexivity | apply scans_refl | assumption
          | eapply scans_trans; eassumption].
Qed.

Lemma identifier_type_word lx : word_token (identifier_type lx) = true.
Proof.
  unfold identifier_type, check_keyword.
  repeat match goal with
         | |- context [if ?b then _ else _] => destruct b
         end; reflexivity.
Qed.

Lemma type_identifier l : word_token (type (fst (identifier l))) = true.
Proof. apply identifier_type_word. Qed.

Lemma type_number l :
  type (fst (number l)) = TOKEN_INT \/ type (fst (number l)) = TOKEN_FLOAT.
Proof. unfold number. destruct (_ && _); auto. Qed.

Lemma type_scan_string l q :
  type (fst (scan_string l q)) = TOKEN_STRING
  \/ type (fst (scan_string l q)) = TOKEN_ERROR.
Proof. unfold scan_string. destruct (is_at_end _); auto. Qed.

(** The type of the token tells how it was scanned. *)
Lemma lexer_next_token_class lx :
  match lex_current (token_start lx) with
  | EmptyString => token_class (type (fst (lexer_next_token lx))) = Some CLASS_EOF
  | String c rest =>
      token_class (type (fst (lexer_next_token lx))) =
      Some (if isalpha c || Ascii.eqb c "_" then CLASS_WORD
            else if isdigit c then CLASS_NUMBER
            else if is_quote c
                 then match type (fst (lexer_next_token lx)) with
                      | TOKEN_ERROR => CLASS_ERROR
                      | _ => CLASS_STRING
                      end
            else match type (fst (lexer_next_token lx)) with
                 | TOKEN_ERROR => CLASS_ERROR
                 | _ => CLASS_SYMBOL
                 end)
  end.
Proof.
  pose proof (lexer_next_token_cases lx) as H.
  destruct (lex_current (token_start lx)) as [|c rest]; [rewrite H; reflexivity|].
  cbv zeta in H.
  destruct (isalpha c || Ascii.eqb c "_").
  - rewrite H. pose proof (type_identifier
      (mkLexer (String c "") rest (lex_line (token_start lx))
               (lex_column (token_start lx) + 1))) as Hw.
    destruct (type _); try discriminate Hw; reflexivity.
  - destruct (isdigit c).
    + rewrite H. destruct (type_number
        (mkLexer (String c "") rest (lex_line (token_start lx))
                 (lex_column (token_start lx) + 1))) as [-> | ->]; reflexivity.
    + destruct (is_quote c).
      * rewrite H. destruct (type_scan_string
          (mkLexer (String c "") rest (lex_line (token_start lx))
                   (lex_column (token_start lx) + 1)) c) as [-> | ->]; reflexivity.
      * destruct H as [(t & Ht & Ht2 & _)|H]; rewrite ?Ht2, ?H; [|reflexivity].
        cbn [type make_current_token]. destruct t; try discriminate Ht; reflexivity.
Qed.

Lemma lexer_next_token_eof lx :
  type (fst (lexer_next_token lx)) = TOKEN_EOF <->
  lex_current (token_start lx) = "".
Proof.
  pose proof (lexer_next_token_class lx) as H.
  pose proof (lexer_next_token_cases lx) as Hc.
  destruct (lex_current (token_start lx)) as [|c rest].
  - rewrite Hc. split; reflexivity.
  - split; [|discriminate]. intros E. rewrite E in H. cbn in H.
    repeat match type of H with
           | context [if ?b then _ else _] => destruct b
           end; discriminate.
Qed.

(* ================================================================= *)
(** ** Tokens and the end of the text *)

Lemma unread_token_start lx : (unread (token_start lx) <= unread lx)%nat.
Proof. apply (unread_skip_whitespace_loop (S (unread lx)) lx). Qed.

(** X1.  On a text that does not end in a backslash, every token other
    than the end-of-file token uses up at least one character of the
    unread text, error tokens included, and the end-of-file token is only
    handed out when no text is left.  (The texts left out are those on
    which [string] can step beyond the terminating NUL: an open string
    whose last character is a backslash.) *)
Theorem lexer_next_token_consumes_input lx :
  ends_in_backslash (lex_current lx) = false ->
  (type (fst (lexer_next_token lx)) <> TOKEN_EOF ->
   (unread (snd (lexer_next_token lx)) < unread lx)%nat)
  /\ (type (fst (lexer_next_token lx)) = TOKEN_EOF ->
      lex_current (snd (lexer_next_token lx)) = "").
Proof.
  intros _. split; [apply lexer_next_token_lt|].
  intros H. apply lexer_next_token_eof in H.
  pose proof (lexer_next_token_cases lx) as Hc. rewrite H in Hc.
  rewrite Hc. exact H.
Qed.

(** The first token of ['a\'b' x], a string with an escaped quote. *)
Lemma lexer_next_token_consumes_witness :
  (unread (snd (lexer_next_token (lexer_init "'a\'b' x")))
   < unread (lexer_init "'a\'b' x"))%nat.
Proof.
  apply (proj1 (lexer_next_token_consumes_input (lexer_init "'a\'b' x") eq_refl)).
  vm_compute. discriminate.
Defined.

Lemma skip_whitespace_at_end lx :
  lex_current lx = "" -> skip_whitespace lx = lx.
Proof.
  intros H. unfold skip_whitespace, unread. rewrite H.
  cbn [String.length skip_whitespace_loop]. unfold peek. rewrite H. reflexivity.
Qed.

(** X2.  The end of the file is final: once [lexer_next_token] has
    returned the end-of-file token, every further call returns the same
    token again and leaves the lexer as it is. *)
Theorem end_of_file_token_repeats lx :
  type (fst (lexer_next_token lx)) = TOKEN_EOF ->
  lexer_next_token (snd (lexer_next_token lx)) = lexer_next_token lx.
Proof.
  intros H. apply lexer_next_token_eof in H.
  pose proof (lexer_next_token_cases lx) as Hc. rewrite H in Hc.
  rewrite Hc. cbn [snd].
  pose proof (lexer_next_token_cases (token_start lx)) as Hc2.
  assert (E : token_start (token_start lx) = token_start lx).
  { unfold token_start at 1. rewrite skip_whitespace_at_end by exact H.
    reflexivity. }
  rewrite E, H in Hc2. exact Hc2.
Qed.

Lemma end_of_file_token_repeats_witness :
  type (fst (lexer_next_token (lexer_init "  // done"))) = TOKEN_EOF
  /\ lexer_next_token (snd (lexer_next_token (lexer_init "  // done")))
     = lexer_next_token (lexer_init "  // done").
Proof.
  split; [reflexivity|].
  apply (end_of_file_token_repeats (lexer_init "  // done")). reflexivity.
Defined.

(** X3.  The lexer never makes a [TOKEN_NEWLINE] or a [TOKEN_CHAR] token
    (a quoted character is a [TOKEN_STRING]); every other token type is
    the type of the first token of some text. *)
Theorem lexer_never_makes_newline_or_char_tokens :
  (forall lx, type (fst (lexer_next_token lx)) <> TOKEN_NEWLINE
              /\ type (fst (lexer_next_token lx)) <> TOKEN_CHAR)
  /\ (forall t, t <> TOKEN_NEWLINE -> t <> TOKEN_CHAR ->
                exists source, type (fst (lexer_next_token (lexer_init source))) = t).
Proof.
  split.
  - intros lx. pose proof (lexer_next_token_class lx) as H.
    split; intros E; rewrite E in H;
      destruct (lex_current (token_start lx)); discriminate H.
  - intros t H1 H2.
    destruct t; try congruence.
    all: first
      [ exists "1"; reflexivity | exists "1.5"; reflexivity
      | exists "'a'"; reflexivity | exists "true"; reflexivity
      | exists "false"; reflexivity | exists "x"; reflexivity
      | exists "func"; reflexivity | exists "return"; reflexivity
      | exists "if"; reflexivity | exists "else"; reflexivity
      | exists "while"; reflexivity | exists "for"; reflexivity
      | exists "in"; reflexivity | exists "loop"; reflexivity
      | exists "break"; reflexivity | exists "continue"; reflexivity
      | exists "import"; reflexivity | exists "export"; reflexivity
      | exists "class"; reflexivity | exists "this"; reflexivity
      | exists "try"; reflexivity | exists "catch"; reflexivity
      | exists "finally"; reflexivity
      | exists "+"; reflexivity | exists "-"; reflexivity
      | exists "*"; reflexivity | exists "/"; reflexivity
      | exists "%"; reflexivity | exists "="; reflexivity
      | exists "=="; reflexivity | exists "!="; reflexivity
      | exists "<"; reflexivity | exists ">"; reflexivity
      | exists "<="; reflexivity | exists ">="; reflexivity
      | exists "&&"; reflexivity | exists "||"; reflexivity
      | exists "!"; reflexivity | exists "&"; reflexivity
      | exists "|"; reflexivity | exists "^"; reflexivity
      | exists "~"; reflexivity | exists ".."; reflexivity
      | exists "..="; reflexivity
      | exists "("; reflexivity | exists ")"; reflexivity
      | exists "{"; reflexivity | exists "}"; reflexivity
      | exists "["; reflexivity | exists "]"; reflexivity
      | exists ","; reflexivity | exists ":"; reflexivity
      | exists "."; reflexivity | exists "->"; reflexivity
      | exists ""; reflexivity | exists "@"; reflexivity ].
Qed.

(* ================================================================= *)
(** ** White space, comments and lexemes *)

Lemma peek_unread lx : peek lx <> NUL -> (0 < unread lx)%nat.
Proof.
  unfold peek, unread. destruct (lex_current lx); simpl; [congruence|lia].
Qed.

Lemma peek_next_unread lx : peek_next lx <> NUL -> (1 < unread lx)%nat.
Proof.
  unfold peek_next, unread. destruct (lex_current lx) as [|a [|b r]]; simpl;
    try congruence. lia.
Qed.

Lemma eqb_peek_unread lx c :
  Ascii.eqb (peek lx) c = true -> c <> NUL -> (0 < unread lx)%nat.
Proof. intros H Hc. apply Ascii.eqb_eq in H. apply peek_unread. congruence. Qed.

Lemma eqb_peek_next_unread lx c :
  Ascii.eqb (peek_next lx) c = true -> c <> NUL -> (1 < unread lx)%nat.
Proof. intros H Hc. apply Ascii.eqb_eq in H. apply peek_next_unread. congruence. Qed.

Lemma is_at_end_unread lx : is_at_end lx = false -> (0 < unread lx)%nat.
Proof.
  unfold is_at_end, unread. destruct (lex_current lx); simpl; [discriminate|lia].
Qed.

(** A line comment is stepped over up to the end of its line. *)
Lemma skip_line_comment_stops fuel :
  forall lx, (unread lx <= fuel)%nat ->
    peek (skip_line_comment fuel lx) = newline
    \/ is_at_end (skip_line_comment fuel lx) = true.
Proof.
  induction fuel as [|n IH]; intros lx Hf; simpl.
  - right. unfold is_at_end, unread in *.
    destruct (lex_current lx); [reflexivity|simpl in Hf; lia].
  - destruct (Ascii.eqb (peek lx) newline) eqn:E1; simpl.
    + left. apply Ascii.eqb_eq, E1.
    + destruct (is_at_end lx) eqn:E2; simpl; [right; exact E2|].
      apply IH. rewrite unread_advance_.
      apply is_at_end_unread in E2. lia.
Qed.

(** [skip_whitespace] stops where a token starts. *)
Lemma skip_whitespace_loop_stops fuel :
  forall lx, (unread lx < fuel)%nat ->
    at_token_start (skip_whitespace_loop fuel lx) = true.
Proof.
  induction fuel as [|n IH]; intros lx Hf; [lia|]. simpl.
  destruct (Ascii.eqb (peek lx) " ") eqn:E1;
    [simpl; apply IH; rewrite unread_advance_;
     apply eqb_peek_unread in E1; [lia|discriminate]|].
  destruct (Ascii.eqb (peek lx) "013") eqn:E2;
    [simpl; apply IH; rewrite unread_advance_;
     apply eqb_peek_unread in E2; [lia|discriminate]|].
  destruct (Ascii.eqb (peek lx) "009") eqn:E3;
    [simpl; apply IH; rewrite unread_advance_;
     apply eqb_peek_unread in E3; [lia|discriminate]|].
  cbn [orb].
  destruct (Ascii.eqb (peek lx) newline) eqn:E4;
    [apply IH; rewrite unread_advance_, unread_set_line_column;
     apply eqb_peek_unread in E4; [lia|discriminate]|].
  destruct (Ascii.eqb (peek lx) "/") eqn:E5.
  - destruct (Ascii.eqb (peek_next lx) "/") eqn:E6.
    + apply IH.
      apply eqb_peek_unread in E5; [|discriminate].
      destruct (unread lx) as [|u] eqn:Eu; [lia|].
      cbn [skip_line_comment]. rewrite E4.
      assert (E7 : is_at_end lx = false).
      { unfold is_at_end, unread in *. destruct (lex_current lx);
          [discriminate Eu|reflexivity]. }
      rewrite E7. cbn [negb andb].
      pose proof (unread_skip_line_comment u (advance_ lx)) as Hl.
      rewrite unread_advance_, Eu in Hl. simpl in Hl. lia.
    + destruct (Ascii.eqb (peek_next lx) "*") eqn:E8.
      * apply IH.
        apply eqb_peek_next_unread in E8; [|discriminate].
        pose proof (unread_skip_block_comment (unread lx) (advance_ (advance_ lx)))
          as Hl.
        rewrite !unread_advance_ in Hl. lia.
      * unfold at_token_start, blank. rewrite E1, E2, E3, E4, E5, E6, E8.
        reflexivity.
  - unfold at_token_start, blank. rewrite E1, E2, E3, E4, E5. reflexivity.
Qed.

Lemma at_token_start_token_start lx : at_token_start (token_start lx) = true.
Proof.
  pose proof (skip_whitespace_loop_stops (S (unread lx)) lx (Nat.lt_succ_diag_r _)) as H.
  exact H.
Qed.

Lemma scans_skip_whitespace lx : scans lx (skip_whitespace lx).
Proof. apply scans_skip_whitespace_loop. Qed.

Lemma start_current_token lx :
  type (fst (lexer_next_token lx)) <> TOKEN_ERROR ->
  start (fst (lexer_next_token lx)) = lex_start (snd (lexer_next_token lx)).
Proof.
  pose proof (lexer_next_token_cases lx) as H.
  destruct (lex_current (token_start lx)) as [|c rest]; [rewrite H; reflexivity|].
  cbv zeta in H.
  destruct (isalpha c || Ascii.eqb c "_"); [rewrite H; reflexivity|].
  destruct (isdigit c).
  { rewrite H. unfold number. destruct (_ && _); reflexivity. }
  destruct (is_quote c).
  { rewrite H. unfold scan_string. destruct (is_at_end _); cbn; congruence. }
  destruct H as [(t & _ & -> & _)| ->]; cbn; congruence.
Qed.

(** X4.  On a text that does not end in a backslash the lexer neither
    drops nor invents text: the unread text before a call is what
    [skip_whitespace] stepped over, then the lexeme, then the unread text
    after the call.  [skip_whitespace] stops where a token starts: not on
    a blank and not on the opening of a comment.  The text of every token
    that is no error token is the lexeme.  (In an open string that ends in
    a backslash the source steps beyond the terminating NUL, and lexeme
    and unread text leave the buffer.) *)
Theorem lexer_next_token_keeps_the_text lx :
  ends_in_backslash (lex_current lx) = false ->
  exists skipped,
    lex_current lx = skipped ++ lex_current (skip_whitespace lx)
    /\ at_token_start (skip_whitespace lx) = true
    /\ lex_current (skip_whitespace lx) =
         lex_start (snd (lexer_next_token lx))
         ++ lex_current (snd (lexer_next_token lx))
    /\ (type (fst (lexer_next_token lx)) <> TOKEN_ERROR ->
        start (fst (lexer_next_token lx)) = lex_start (snd (lexer_next_token lx))).
Proof.
  intros _.
  destruct (scans_skip_whitespace lx) as (s & _ & Hs).
  destruct (lexer_next_token_scans lx) as (t & Ht1 & Ht2).
  exists s. cbn [token_start lex_start lex_current append] in Ht1, Ht2.
  split; [exact Hs|]. split; [|split].
  - apply (skip_whitespace_loop_stops (S (unread lx)) lx (Nat.lt_succ_diag_r _)).
  - rewrite Ht1. exact Ht2.
  - apply start_current_token.
Qed.

(** The first token of [  /* c */ name = 1]. *)
Lemma lexer_next_token_keeps_witness :
  exists skipped,
    lex_current (lexer_init "  /* c */ name = 1")
    = skipped ++ lex_current (skip_whitespace (lexer_init "  /* c */ name = 1"))
    /\ start (fst (lexer_next_token (lexer_init "  /* c */ name = 1")))
       = lex_start (snd (lexer_next_token (lexer_init "  /* c */ name = 1"))).
Proof.
  destruct (lexer_next_token_keeps_the_text (lexer_init "  /* c */ name = 1") eq_refl)
    as (skipped & H1 & _ & _ & H4).
  exists skipped. split; [exact H1|].
  apply H4. vm_compute. discriminate.
Defined.

Lemma skip_block_comment_unclosed fuel :
  forall lx, closes_comment (lex_current lx) = false ->
    (unread lx <= fuel)%nat ->
    lex_current (skip_block_comment fuel lx) = "".
Proof.
  induction fuel as [|n IH]; intros lx Hc Hf.
  - simpl. unfold unread in Hf. destruct (lex_current lx); [reflexivity|simpl in Hf; lia].
  - simpl. unfold is_at_end, peek, peek_next.
    destruct (lex_current lx) as [|c rest] eqn:E; [exact E|].
    simpl in Hc. apply orb_false_iff in Hc. destruct Hc as [Hc1 Hc2].
    replace (Ascii.eqb match rest with EmptyString => NUL | String c0 _ => c0 end "/")
      with (match rest with String d _ => Ascii.eqb d "/" | EmptyString => false end)
      by (destruct rest; reflexivity).
    rewrite Hc1.
    apply IH.
    + destruct (Ascii.eqb c newline); unfold advance_, advance; simpl;
        rewrite E; simpl; exact Hc2.
    + rewrite unread_advance_.
      destruct (Ascii.eqb c newline); rewrite ?unread_set_line_column;
        unfold unread in *; rewrite E in *; simpl in *; lia.
Qed.

Lemma skip_whitespace_loop_block n lx :
  peek lx = "/"%char -> peek_next lx = "*"%char ->
  skip_whitespace_loop (S n) lx =
  skip_whitespace_loop n (skip_block_comment (unread lx) (advance_ (advance_ lx))).
Proof. intros Hp Hn. cbn [skip_whitespace_loop]. rewrite Hp, Hn. reflexivity. Qed.

Lemma skip_whitespace_loop_at_end n lx :
  lex_current lx = "" -> skip_whitespace_loop n lx = lx.
Proof.
  intros H. destruct n; [reflexivity|]. cbn [skip_whitespace_loop].
  unfold peek. rewrite H. reflexivity.
Qed.

(** X5.  A block comment that is never closed hides the rest of the
    text: the next token is the end-of-file token, and no error token is
    made for the comment. *)
Theorem unclosed_block_comment_ends_the_text lx body :
  lex_current lx = "/*" ++ body ->
  closes_comment body = false ->
  type (fst (lexer_next_token lx)) = TOKEN_EOF.
Proof.
  intros E Hc. apply lexer_next_token_eof.
  unfold token_start. cbn [lex_current].
  unfold skip_whitespace.
  assert (Hp : peek lx = "/"%char) by (unfold peek; rewrite E; reflexivity).
  assert (Hn : peek_next lx = "*"%char) by (unfold peek_next; rewrite E; reflexivity).
  rewrite skip_whitespace_loop_block by assumption.
  assert (Ha : advance_ (advance_ lx) =
               mkLexer ((lex_start lx ++ "/") ++ "*") body (lex_line lx)
                       (lex_column lx + 1 + 1)).
  { unfold advance_, advance. rewrite E. cbn. reflexivity. }
  rewrite Ha.
  set (l := skip_block_comment _ _).
  assert (Hl : lex_current l = "").
  { apply skip_block_comment_unclosed; [exact Hc|].
    unfold unread. rewrite E. simpl. lia. }
  rewrite skip_whitespace_loop_at_end; exact Hl.
Qed.

Lemma unclosed_block_comment_witness :
  type (fst (lexer_next_token (lexer_init "/* x = 1 * 2 / 3"))) = TOKEN_EOF.
Proof.
  apply (unclosed_block_comment_ends_the_text _ " x = 1 * 2 / 3");
    reflexivity.
Defined.

(* ================================================================= *)
(** ** Keywords *)

Lemma whole_word_check rest : forall s,
  Nat.eqb (String.length s) (String.length rest)
  && String.eqb (substring 0 (String.length rest) s) rest
  = String.eqb rest s.
Proof.
  induction rest as [|c rest IH]; intros [|d s]; simpl; try reflexivity.
  specialize (IH s).
  rewrite (Ascii.eqb_sym d c).
  destruct (Ascii.eqb c d); [exact IH|].
  apply andb_false_r.
Qed.

Lemma check_keyword_1 lx c s rest t :
  lex_start lx = String c s ->
  check_keyword lx 1 (String.length rest) rest t =
  if String.eqb rest s then t else TOKEN_IDENTIFIER.
Proof.
  intros E. unfold check_keyword. rewrite E.
  change (String.length (String c s)) with (S (String.length s)).
  change (1 + String.length rest)%nat with (S (String.length rest)).
  change (substring 1 (String.length rest) (String c s))
    with (substring 0 (String.length rest) s).
  cbn [Nat.eqb]. rewrite whole_word_check. reflexivity.
Qed.

Lemma check_keyword_2 lx c d s rest t :
  lex_start lx = String c (String d s) ->
  check_keyword lx 2 (String.length rest) rest t =
  if String.eqb rest s then t else TOKEN_IDENTIFIER.
Proof.
  intros E. unfold check_keyword. rewrite E.
  change (String.length (String c (String d s))) with (S (S (String.length s))).
  change (2 + String.length rest)%nat with (S (S (String.length rest))).
  change (substring 2 (String.length rest) (String c (String d s)))
    with (substring 0 (String.length rest) s).
  cbn [Nat.eqb]. rewrite whole_word_check. reflexivity.
Qed.

Lemma check_keyword_3 lx c d e s rest t :
  lex_start lx = String c (String d (String e s)) ->
  check_keyword lx 3 (String.length rest) rest t =
  if String.eqb rest s then t else TOKEN_IDENTIFIER.
Proof.
  intros E. unfold check_keyword. rewrite E.
  change (String.length (String c (String d (String e s))))
    with (S (S (S (String.length s)))).
  change (3 + String.length rest)%nat with (S (S (S (String.length rest)))).
  change (substring 3 (String.length rest) (String c (String d (String e s))))
    with (substring 0 (String.length rest) s).
  cbn [Nat.eqb]. rewrite whole_word_check. reflexivity.
Qed.

Ltac split_char c x :=
  destruct (Ascii.eqb_spec c x) as [->|?].

(** Decide the comparisons of characters that are known or excluded, and
    look the word up as far as that goes. *)
Ltac look_up :=
  repeat
    (cbn [lookup_keyword String.eqb];
     repeat match goal with
            | H : ?c <> ?x |- context [Ascii.eqb ?x ?c] =>
                rewrite (proj2 (Ascii.eqb_neq x c)) by congruence
            | H : ?c <> ?x |- context [Ascii.eqb ?c ?x] =>
                rewrite (proj2 (Ascii.eqb_neq c x)) by congruence
            | |- context [Ascii.eqb ?a ?b] =>
                let v := eval vm_compute in (Ascii.eqb a b) in
                match v with
                | true => change (Ascii.eqb a b) with true
                | false => change (Ascii.eqb a b) with false
                end
            end;
     cbv iota).

Lemma identifier_type_keyword_of lx :
  identifier_type lx = keyword_of (lex_start lx).
Proof.
  unfold identifier_type, keyword_of, keywords.
  destruct (lex_start lx) as [|c0 s0] eqn:E0; [reflexivity|].
  cbn [char_at String.get String.length lookup_keyword].
  unfold char_at.
  split_char c0 "b"%char.
  { rewrite (check_keyword_1 lx _ _ "reak" _ E0). look_up. reflexivity. }
  split_char c0 "c"%char.
  { destruct s0 as [|c1 s1]; [reflexivity|]. cbn [String.get Nat.ltb Nat.leb String.length].
    split_char c1 "a"%char.
    { rewrite (check_keyword_2 lx _ _ _ "tch" _ E0). look_up. reflexivity. }
    split_char c1 "l"%char.
    { rewrite (check_keyword_2 lx _ _ _ "ass" _ E0). look_up. reflexivity. }
    split_char c1 "o"%char.
    { rewrite (check_keyword_2 lx _ _ _ "ntinue" _ E0). look_up. reflexivity. }
    look_up. reflexivity. }
  split_char c0 "e"%char.
  { destruct s0 as [|c1 s1]; [reflexivity|]. cbn [String.get Nat.ltb Nat.leb String.length].
    split_char c1 "l"%char.
    { rewrite (check_keyword_2 lx _ _ _ "se" _ E0). look_up. reflexivity. }
    split_char c1 "x"%char.
    { rewrite (check_keyword_2 lx _ _ _ "port" _ E0). look_up. reflexivity. }
    look_up. reflexivity. }
  split_char c0 "f"%char.
  { destruct s0 as [|c1 s1]; [reflexivity|]. cbn [String.get Nat.ltb Nat.leb String.length].
    split_char c1 "a"%char.
    { rewrite (check_keyword_2 lx _ _ _ "lse" _ E0). look_up. reflexivity. }
    split_char c1 "i"%char.
    { rewrite (check_keyword_2 lx _ _ _ "nally" _ E0). look_up. reflexivity. }
    split_char c1 "o"%char.
    { rewrite (check_keyword_2 lx _ _ _ "r" _ E0). look_up. reflexivity. }
    split_char c1 "u"%char.
    { rewrite (check_keyword_2 lx _ _ _ "nc" _ E0). look_up. reflexivity. }
    look_up. reflexivity. }
  split_char c0 "i"%char.
  { destruct s0 as [|c1 s1]; [reflexivity|]. cbn [String.get Nat.ltb Nat.leb String.length].
    split_char c1 "f"%char.
    { rewrite (check_keyword_2 lx _ _ _ "" _ E0). look_up. reflexivity. }
    split_char c1 "m"%char.
    { rewrite (check_keyword_2 lx _ _ _ "port" _ E0). look_up. reflexivity. }
    split_char c1 "n"%char.
    { rewrite (check_keyword_2 lx _ _ _ "" _ E0). look_up. reflexivity. }
    look_up. reflexivity. }
  split_char c0 "l"%char.
  { rewrite (check_keyword_1 lx _ _ "oop" _ E0). look_up. reflexivity. }
  split_char c0 "r"%char.
  { rewrite (check_keyword_1 lx _ _ "eturn" _ E0). look_up. reflexivity. }
  split_char c0 "t"%char.
  { destruct s0 as [|c1 s1]; [reflexivity|]. cbn [String.get Nat.ltb Nat.leb String.length].
    split_char c1 "h"%char.
    { rewrite (check_keyword_2 lx _ _ _ "is" _ E0). look_up. reflexivity. }
    split_char c1 "r"%char.
    { destruct s1 as [|c2 s2]; [reflexivity|].
      cbn [String.get Nat.ltb Nat.leb String.length].
      split_char c2 "u"%char.
      { rewrite (check_keyword_3 lx _ _ _ _ "e" _ E0). look_up. reflexivity. }
      split_char c2 "y"%char.
      { rewrite (check_keyword_3 lx _ _ _ _ "" _ E0). look_up. reflexivity. }
      look_up. reflexivity. }
    look_up. reflexivity. }
  split_char c0 "w"%char.
  { rewrite (check_keyword_1 lx _ _ "hile" _ E0). look_up. reflexivity. }
  look_up. reflexivity.
Qed.

(* ================================================================= *)
(** ** The lexemes of words, numbers and strings *)

Lemma token_class_word t :
  token_class t = Some CLASS_WORD <-> word_token t = true.
Proof. destruct t; cbn; split; congruence. Qed.

Lemma lexer_next_token_word lx :
  word_token (type (fst (lexer_next_token lx))) = true ->
  exists c rest,
    lex_current (token_start lx) = String c rest
    /\ (isalpha c || Ascii.eqb c "_") = true
    /\ lexer_next_token lx = identifier (after_first lx c rest).
Proof.
  intros Hw. apply token_class_word in Hw.
  pose proof (lexer_next_token_class lx) as H.
  pose proof (lexer_next_token_cases lx) as Hc.
  destruct (lex_current (token_start lx)) as [|c rest]; [congruence|].
  exists c, rest. cbv zeta in Hc.
  destruct (isalpha c || Ascii.eqb c "_"); [auto|].
  rewrite Hw in H.
  destruct (isdigit c); [discriminate|].
  destruct (is_quote c); destruct (type _); discriminate.
Qed.

Lemma lexer_next_token_number lx :
  type (fst (lexer_next_token lx)) = TOKEN_INT
  \/ type (fst (lexer_next_token lx)) = TOKEN_FLOAT ->
  exists c rest,
    lex_current (token_start lx) = String c rest
    /\ isdigit c = true
    /\ lexer_next_token lx = number (after_first lx c rest).
Proof.
  intros Hw.
  assert (Hk : token_class (type (fst (lexer_next_token lx))) = Some CLASS_NUMBER)
    by (destruct Hw as [-> | ->]; reflexivity).
  pose proof (lexer_next_token_class lx) as H.
  pose proof (lexer_next_token_cases lx) as Hc.
  destruct (lex_current (token_start lx)) as [|c rest]; [congruence|].
  exists c, rest. cbv zeta in Hc. rewrite Hk in H.
  destruct (isalpha c || Ascii.eqb c "_"); [discriminate|].
  destruct (isdigit c); [auto|].
  destruct (is_quote c); destruct (type _); discriminate.
Qed.

Lemma lexer_next_token_quoted lx :
  type (fst (lexer_next_token lx)) = TOKEN_STRING ->
  exists c rest,
    lex_current (token_start lx) = String c rest
    /\ is_quote c = true
    /\ lexer_next_token lx = scan_string (after_first lx c rest) c.
Proof.
  intros Hw.
  pose proof (lexer_next_token_class lx) as H.
  pose proof (lexer_next_token_cases lx) as Hc.
  destruct (lex_current (token_start lx)) as [|c rest];
    [rewrite Hw in H; discriminate|].
  exists c, rest. cbv zeta in Hc. rewrite Hw in H. cbn in H.
  destruct (isalpha c || Ascii.eqb c "_"); [discriminate|].
  destruct (isdigit c); [discriminate|].
  destruct (is_quote c); [auto|discriminate].
Qed.

Lemma all_chars_app test a b :
  all_chars test (a ++ b) = all_chars test a && all_chars test b.
Proof.
  unfold all_chars. induction a as [|c a IH]; simpl; [reflexivity|].
  rewrite IH. apply andb_assoc.
Qed.

(** [while (test(peek)) advance] stops at the first character that fails
    the test, having stepped over characters that pass it. *)
Lemma advance_while_spec test fuel :
  test NUL = false ->
  forall lx, (unread lx <= fuel)%nat ->
    exists s,
      lex_start (advance_while test fuel lx) = lex_start lx ++ s
      /\ lex_current lx = s ++ lex_current (advance_while test fuel lx)
      /\ all_chars test s = true
      /\ test (peek (advance_while test fuel lx)) = false
      /\ lex_line (advance_while test fuel lx) = lex_line lx.
Proof.
  intros Hnul. induction fuel as [|n IH]; intros lx Hf.
  - exists "". simpl. rewrite append_nil_r. repeat split; auto.
    unfold peek, unread in *. destruct (lex_current lx); [exact Hnul|simpl in Hf; lia].
  - simpl. destruct (test (peek lx)) eqn:E.
    + assert (Hne : peek lx <> NUL) by congruence.
      apply peek_unread in Hne.
      destruct (IH (advance_ lx)) as (s & H1 & H2 & H3 & H4 & H5);
        [rewrite unread_advance_; lia|].
      unfold advance_, advance, peek, unread in *.
      destruct (lex_current lx) as [|c rest] eqn:Ec; [simpl in Hne; lia|].
      cbn [snd lex_start lex_current lex_line] in *.
      exists (String c s). rewrite H1, append_assoc. cbn [append].
      repeat split; auto.
      * rewrite H2 at 1. reflexivity.
      * unfold all_chars in *. simpl. rewrite E, H3. reflexivity.
    + exists "". rewrite append_nil_r. repeat split; auto.
Qed.

Lemma word_char_nul : word_char NUL = false.
Proof. reflexivity. Qed.

Lemma isdigit_nul : isdigit NUL = false.
Proof. reflexivity. Qed.

(** X6.  Keywords are whole words: [identifier_type] gives a lexeme the
    type the table of keywords has for exactly that text and
    [TOKEN_IDENTIFIER] for every other text, so that a word that only
    begins with, or goes on after, a keyword is an identifier.  So is
    the type of every word token of the lexer got from its text. *)
Theorem keywords_are_whole_words lx :
  identifier_type lx = keyword_of (lex_start lx)
  /\ (word_token (type (fst (lexer_next_token lx))) = true ->
      type (fst (lexer_next_token lx))
      = keyword_of (start (fst (lexer_next_token lx)))).
Proof.
  split; [apply identifier_type_keyword_of|].
  intros Hw. destruct (lexer_next_token_word lx Hw) as (c & rest & _ & _ & ->).
  unfold identifier. cbn [fst make_current_token type start].
  apply identifier_type_keyword_of.
Qed.

(** X7.  The text of an identifier or keyword token is a letter or an
    underscore followed by letters, digits and underscores, and it is as
    long as it can be: the character after it is none of these. *)
Theorem word_token_is_a_maximal_word lx :
  word_token (type (fst (lexer_next_token lx))) = true ->
  exists c s,
    start (fst (lexer_next_token lx)) = String c s
    /\ (isalpha c || Ascii.eqb c "_") = true
    /\ all_chars word_char s = true
    /\ word_char (peek (snd (lexer_next_token lx))) = false.
Proof.
  intros Hw. destruct (lexer_next_token_word lx Hw) as (c & rest & _ & Hc & ->).
  unfold identifier. cbn [fst snd make_current_token start].
  fold word_char.
  destruct (advance_while_spec word_char (unread (after_first lx c rest))
              word_char_nul (after_first lx c rest) (Nat.le_refl _))
    as (s & H1 & _ & H3 & H4 & _).
  exists c, s. cbn [after_first lex_start append] in H1. auto.
Qed.

Lemma word_token_witness :
  exists c s,
    start (fst (lexer_next_token (lexer_init "while_1 x"))) = String c s
    /\ (isalpha c || Ascii.eqb c "_") = true
    /\ all_chars word_char s = true
    /\ word_char (peek (snd (lexer_next_token (lexer_init "while_1 x")))) = false.
Proof.
  apply (word_token_is_a_maximal_word (lexer_init "while_1 x")). reflexivity.
Defined.

Lemma integer_token_shape lx :
  type (fst (lexer_next_token lx)) = TOKEN_INT ->
  start (fst (lexer_next_token lx)) <> ""
  /\ all_chars isdigit (start (fst (lexer_next_token lx))) = true
  /\ isdigit (peek (snd (lexer_next_token lx))) = false
  /\ (peek (snd (lexer_next_token lx)) = "."%char ->
      isdigit (peek_next (snd (lexer_next_token lx))) = false).
Proof.
  intros Ht.
  destruct (lexer_next_token_number lx (or_introl Ht)) as (c & rest & _ & Hc & E).
  rewrite E in *. clear E. unfold number in *.
  destruct (advance_while_spec isdigit (unread (after_first lx c rest))
              isdigit_nul (after_first lx c rest) (Nat.le_refl _))
    as (s & H1 & _ & H3 & H4 & _).
  set (l1 := advance_while isdigit _ _) in *.
  cbn [after_first lex_start append] in H1. clearbody l1.
  destruct (Ascii.eqb (peek l1) ".") eqn:Ep; cbn [andb] in *.
  + destruct (isdigit (peek_next l1)) eqn:En; [discriminate Ht|].
    cbn [fst snd make_current_token start]. rewrite H1.
    repeat split; auto; [discriminate|].
    unfold all_chars in *. simpl. rewrite Hc, H3. reflexivity.
  + cbn [fst snd make_current_token start]. rewrite H1.
    repeat split; auto; [discriminate| |].
    * unfold all_chars in *. simpl. rewrite Hc, H3. reflexivity.
    * intros Hp. rewrite Hp in Ep. discriminate.
Qed.

(** X8.  The text of an integer token is a run of digits that is as long
    as it can be and is not followed by a point and a digit; the text of
    a float token is digits, a point and digits, all of them there are. *)
Theorem number_token_is_a_maximal_number lx :
  (type (fst (lexer_next_token lx)) = TOKEN_INT ->
   start (fst (lexer_next_token lx)) <> ""
   /\ all_chars isdigit (start (fst (lexer_next_token lx))) = true
   /\ isdigit (peek (snd (lexer_next_token lx))) = false
   /\ (peek (snd (lexer_next_token lx)) = "."%char ->
       isdigit (peek_next (snd (lexer_next_token lx))) = false))
  /\ (type (fst (lexer_next_token lx)) = TOKEN_FLOAT ->
      exists whole fraction,
        start (fst (lexer_next_token lx)) = whole ++ "." ++ fraction
        /\ whole <> "" /\ fraction <> ""
        /\ all_chars isdigit whole = true
        /\ all_chars isdigit fraction = true
        /\ isdigit (peek (snd (lexer_next_token lx))) = false).
Proof.
  split; [apply integer_token_shape|]. intros Ht.
  destruct (lexer_next_token_number lx (or_intror Ht)) as (c & rest & _ & Hc & E).
    rewrite E in *. clear E. unfold number in *.
    destruct (advance_while_spec isdigit (unread (after_first lx c rest))
                isdigit_nul (after_first lx c rest) (Nat.le_refl _))
      as (s & H1 & _ & H3 & H4 & _).
    set (l1 := advance_while isdigit _ _) in *.
    cbn [after_first lex_start append] in H1. clearbody l1.
    destruct (Ascii.eqb (peek l1) ".") eqn:Ep; cbn [andb] in *;
      [|discriminate Ht].
    destruct (isdigit (peek_next l1)) eqn:En; [|discriminate Ht].
    cbn [fst snd make_current_token start].
    destruct (advance_while_spec isdigit (unread (advance_ l1))
                isdigit_nul (advance_ l1) (Nat.le_refl _))
      as (s2 & G1 & G2 & G3 & G4 & _).
    set (l2 := advance_while isdigit _ (advance_ l1)) in *. clearbody l2.
    apply Ascii.eqb_eq in Ep.
    assert (Hl1 : exists d r, lex_current l1 = String "." (String d r)
                              /\ isdigit d = true).
    { unfold peek, peek_next in *.
      destruct (lex_current l1) as [|a [|d r]]; try discriminate.
      subst a. eauto. }
    destruct Hl1 as (d & r & Hl1 & Hd).
    assert (Ha : lex_start (advance_ l1) = String c s ++ "."
                 /\ lex_current (advance_ l1) = String d r).
    { unfold advance_, advance. rewrite Hl1. cbn [snd lex_start lex_current].
      rewrite H1. auto. }
    destruct Ha as [Ha1 Ha2].
    rewrite Ha1 in G1. rewrite Ha2 in G2.
    exists (String c s), s2. rewrite G1, append_assoc.
    repeat split; auto; try discriminate.
    + destruct s2 as [|e s2]; [|discriminate].
      cbn [append] in G2. unfold peek in G4. rewrite <- G2 in G4. congruence.
    + unfold all_chars in *. simpl. rewrite Hc, H3. reflexivity.
Qed.

(** The loop of [string] stops at the closing quote or at the end of the
    text. *)
Lemma scan_string_loop_stops q fuel :
  forall lx, (unread lx <= fuel)%nat ->
    peek (scan_string_loop q fuel lx) = q
    \/ is_at_end (scan_string_loop q fuel lx) = true.
Proof.
  induction fuel as [|n IH]; intros lx Hf; simpl.
  - right. unfold is_at_end, unread in *.
    destruct (lex_current lx); [reflexivity|simpl in Hf; lia].
  - destruct (Ascii.eqb (peek lx) q) eqn:E1; simpl.
    + left. apply Ascii.eqb_eq, E1.
    + destruct (is_at_end lx) eqn:E2; simpl; [right; exact E2|].
      apply IH. apply is_at_end_unread in E2.
      rewrite unread_advance_.
      destruct (Ascii.eqb (peek lx) newline);
        match goal with |- context [if ?b then _ else _] => destruct b end;
        rewrite ?unread_advance_, ?unread_set_line_column; lia.
Qed.

Lemma substring_whole a : forall b, substring 0 (String.length a) (a ++ b) = a.
Proof.
  induction a as [|c a IH]; intros b; simpl.
  - destruct b; reflexivity.
  - rewrite IH. reflexivity.
Qed.

Lemma length_append a b :
  String.length (a ++ b) = (String.length a + String.length b)%nat.
Proof. induction a; simpl; congruence. Qed.

Lemma strip_quotes_quoted q q' body :
  strip_quotes (String q (body ++ String q' "")) = body.
Proof.
  unfold strip_quotes. cbn [String.length substring].
  rewrite length_append. cbn [String.length].
  replace (S (String.length body + 1) - 2)%nat with (String.length body) by lia.
  apply substring_whole.
Qed.

Lemma string_token_shape lx :
  type (fst (lexer_next_token lx)) = TOKEN_STRING ->
  exists q body,
    is_quote q = true
    /\ start (fst (lexer_next_token lx)) = String q (body ++ String q "").
Proof.
  intros Ht. destruct (lexer_next_token_quoted lx Ht) as (q & rest & _ & Hq & E).
  rewrite E in *. clear E. unfold scan_string in *.
  pose proof (scan_string_loop_stops q (unread (after_first lx q rest))
                (after_first lx q rest) (Nat.le_refl _)) as Hs.
  destruct (scans_scan_string_loop q (unread (after_first lx q rest))
              (after_first lx q rest)) as (body & H1 & _).
  set (l1 := scan_string_loop q _ _) in *. clearbody l1.
  cbn [after_first lex_start append] in H1.
  destruct (is_at_end l1) eqn:Ee; [discriminate Ht|].
  destruct Hs as [Hs|Hs]; [|congruence].
  exists q, body. split; [exact Hq|].
  cbn [fst make_current_token start].
  unfold advance_, advance, peek, is_at_end in *.
  destruct (lex_current l1) as [|c r]; [discriminate Ee|].
  cbn [snd lex_start]. rewrite H1. subst c. reflexivity.
Qed.

(** X9.  The text of a string token opens and closes with the same
    quote character, so it has at least two characters, and the value
    [parser_parse_primary] copies out of it (from the second character,
    two characters less than the lexeme) is exactly the text between the
    quotes, escapes left as they are written. *)
Theorem string_token_is_quoted lx :
  type (fst (lexer_next_token lx)) = TOKEN_STRING ->
  exists q body,
    is_quote q = true
    /\ start (fst (lexer_next_token lx)) = String q (body ++ String q "")
    /\ strip_quotes (start (fst (lexer_next_token lx))) = body.
Proof.
  intros Ht. destruct (string_token_shape lx Ht) as (q & body & Hq & E).
  exists q, body. rewrite E. auto using strip_quotes_quoted.
Qed.

Lemma string_token_witness :
  exists q body,
    is_quote q = true
    /\ start (fst (lexer_next_token (lexer_init "'it\'s' + x")))
       = String q (body ++ String q "")
    /\ strip_quotes (start (fst (lexer_next_token (lexer_init "'it\'s' + x"))))
       = body.
Proof.
  apply (string_token_is_quoted (lexer_init "'it\'s' + x")). reflexivity.
Defined.

(** X10.  The lexer has two errors.  "Unterminated string": a quote was
    opened and the text ended before it was closed; nothing is left
    unread.  "Unexpected character": the character is stepped over, and
    it alone.  (An open string whose last character is a backslash takes
    the source beyond the terminating NUL; [advance] of the model stays on
    the terminator, so for that text the statement is about the model
    only.) *)
Theorem error_token_cases lx :
  type (fst (lexer_next_token lx)) = TOKEN_ERROR ->
  (start (fst (lexer_next_token lx)) = "Unterminated string"
   /\ is_quote (peek (token_start lx)) = true
   /\ lex_current (snd (lexer_next_token lx)) = "")
  \/ (start (fst (lexer_next_token lx)) = "Unexpected character"
      /\ exists c, lex_current (token_start lx)
                   = String c (lex_current (snd (lexer_next_token lx)))).
Proof.
  intros Ht.
  pose proof (lexer_next_token_class lx) as H.
  pose proof (lexer_next_token_cases lx) as Hc.
  unfold peek.
  destruct (lex_current (token_start lx)) as [|c rest];
    [rewrite Ht in H; discriminate|].
  cbv zeta in Hc. rewrite Ht in H. cbn in H.
  destruct (isalpha c || Ascii.eqb c "_"); [discriminate|].
  destruct (isdigit c); [discriminate|].
  destruct (is_quote c) eqn:Hq.
  - left. rewrite Hc in *. unfold scan_string in *.
    destruct (is_at_end _) eqn:Ee; [|discriminate Ht].
    cbn [fst snd error_token start]. repeat split.
    unfold is_at_end in Ee.
    destruct (lex_current _); [reflexivity|discriminate].
  - right. destruct Hc as [(t & Hs & Hc & _)|Hc].
    + rewrite Hc in Ht. cbn in Ht. subst t. discriminate.
    + rewrite Hc. cbn. eauto.
Qed.

Lemma error_token_witness :
  start (fst (lexer_next_token (lexer_init "@ x"))) = "Unexpected character"
  /\ exists c, lex_current (token_start (lexer_init "@ x"))
               = String c (lex_current (snd (lexer_next_token (lexer_init "@ x")))).
Proof.
  destruct (error_token_cases (lexer_init "@ x") eq_refl) as [[H _]|H];
    [discriminate H|exact H].
Defined.

(* ================================================================= *)
(** ** The value of an integer literal *)

Lemma strtol_digits_nonneg s : forall acc, 0 <= acc -> 0 <= strtol_digits s acc.
Proof.
  induction s as [|c s IH]; intros acc Ha; simpl; [exact Ha|].
  destruct (isdigit c) eqn:E; [|exact Ha].
  apply IH. unfold isdigit in E. apply andb_true_iff in E.
  destruct E as [E1 E2]. apply Nat.leb_le in E1. lia.
Qed.

Lemma strtol_unsigned c rest :
  isdigit c = true ->
  strtol (String c rest) =
  Z.max LONG_MIN (Z.min LONG_MAX (strtol_digits (String c rest) 0)).
Proof.
  intros Hc. unfold strtol.
  assert (Hs : isspace c = false).
  { destruct c as [[] [] [] [] [] [] [] []]; try discriminate Hc; reflexivity. }
  cbn [strtol_skip_space]. rewrite Hs.
  destruct c as [[] [] [] [] [] [] [] []]; try discriminate Hc; reflexivity.
Qed.

(** X11.  The text of an integer token, handed to [strtol] as
    [parser_parse_primary] does, gives the number its digits spell, or
    [LONG_MAX] when that is larger: the value of an integer literal is
    never negative and never above [LONG_MAX], and no error is raised for
    a literal that does not fit. *)
Theorem integer_token_value_is_in_range lx :
  type (fst (lexer_next_token lx)) = TOKEN_INT ->
  strtol (start (fst (lexer_next_token lx)))
  = Z.min LONG_MAX (strtol_digits (start (fst (lexer_next_token lx))) 0)
  /\ 0 <= strtol (start (fst (lexer_next_token lx))) <= LONG_MAX.
Proof.
  intros Ht.
  destruct (integer_token_shape lx Ht) as (Hne & Hd & _).
  destruct (start (fst (lexer_next_token lx))) as [|c rest]; [congruence|].
  assert (Hc : isdigit c = true).
  { unfold all_chars in Hd. simpl in Hd. apply andb_true_iff in Hd. tauto. }
  rewrite (strtol_unsigned c rest Hc).
  pose proof (strtol_digits_nonneg (String c rest) 0 (Z.le_refl 0)).
  unfold LONG_MIN, LONG_MAX in *. lia.
Qed.

Lemma integer_token_witness :
  strtol (start (fst (lexer_next_token (lexer_init "99999999999999999999"))))
  = LONG_MAX.
Proof.
  destruct (integer_token_value_is_in_range
              (lexer_init "99999999999999999999") eq_refl) as [H _].
  rewrite H. reflexivity.
Defined.

(* ================================================================= *)
(** ** The lexer test program *)

Lemma test_lexer_loop_returns fuel :
  forall lx, (unread lx < fuel)%nat ->
    exists tokens last,
      test_lexer_loop fuel lx = Some (tokens ++ [last])%list
      /\ (List.length tokens <= unread lx)%nat
      /\ ends_dump (type last) = true
      /\ forallb (fun tok => negb (ends_dump (type tok))) tokens = true.
Proof.
  induction fuel as [|n IH]; intros lx Hf; [lia|].
  cbn [test_lexer_loop].
  pose proof (lexer_next_token_progress lx) as Hp.
  destruct (lexer_next_token lx) as [tok lx'] eqn:E. cbn [fst snd] in Hp.
  destruct (type tok ==t TOKEN_EOF) eqn:E1; cbn [negb andb].
  { exists [], tok. unfold ends_dump. rewrite E1. repeat split; simpl; lia. }
  destruct (type tok ==t TOKEN_ERROR) eqn:E2; cbn [negb andb].
  { exists [], tok. unfold ends_dump. rewrite E1, E2. repeat split; simpl; lia. }
  destruct Hp as [Hp|[Hp _]];
    [|apply token_type_eqb_neq in E1; contradiction].
  destruct (IH lx') as (tokens & last & -> & Hl & He & Ha); [lia|].
  exists (tok :: tokens), last. repeat split; auto.
  - simpl. lia.
  - simpl. unfold ends_dump at 1. rewrite E1, E2. exact Ha.
Qed.

(** X12.  The loop of the lexer test program ends on every text that does
    not end in a backslash: it prints at most one token for each character
    and then the token that ends it, the end-of-file token or the first
    error token.  (On an open string that ends in a backslash the lexer of
    the source reads beyond the text, and what the loop prints from there
    on is not determined by the text.) *)
Theorem test_lexer_loop_ends source :
  ends_in_backslash source = false ->
  exists tokens last,
    test_lexer_loop (S (String.length source)) (lexer_init source)
    = Some (tokens ++ [last])%list
    /\ (List.length tokens <= String.length source)%nat
    /\ ends_dump (type last) = true
    /\ forallb (fun tok => negb (ends_dump (type tok))) tokens = true.
Proof.
  intros _.
  apply (test_lexer_loop_returns (S (String.length source)) (lexer_init source)).
  unfold unread. simpl. lia.
Qed.

(** The dump of [x = 'a\'b' @ y], which ends with the error token for
    the [@]. *)
Lemma test_lexer_loop_witness :
  exists tokens last,
    test_lexer_loop 15 (lexer_init "x = 'a\'b' @ y") = Some (tokens ++ [last])%list
    /\ (List.length tokens <= 14)%nat
    /\ ends_dump (type last) = true.
Proof.
  destruct (test_lexer_loop_ends "x = 'a\'b' @ y" eq_refl)
    as (tokens & last & E & Hl & He & _).
  exists tokens, last. split; [exact E|]. split; [exact Hl|exact He].
Defined.

(* ================================================================= *)
(** ** Names *)

Lemma token_type_to_string_injective a b :
  token_type_to_string a = token_type_to_string b -> a = b.
Proof.
  intros H.
  assert (G : forall t,
             find (fun u => String.eqb (token_type_to_string u)
                                       (token_type_to_string t))
                  [TOKEN_INT; TOKEN_FLOAT; TOKEN_STRING; TOKEN_CHAR; TOKEN_TRUE;
                   TOKEN_FALSE; TOKEN_IDENTIFIER; TOKEN_FUNC; TOKEN_RETURN;
                   TOKEN_IF; TOKEN_ELSE; TOKEN_WHILE; TOKEN_FOR; TOKEN_IN;
                   TOKEN_LOOP; TOKEN_BREAK; TOKEN_CONTINUE; TOKEN_IMPORT;
                   TOKEN_EXPORT; TOKEN_CLASS; TOKEN_THIS; TOKEN_TRY; TOKEN_CATCH;
                   TOKEN_FINALLY; TOKEN_PLUS; TOKEN_MINUS; TOKEN_STAR;
                   TOKEN_SLASH; TOKEN_PERCENT; TOKEN_EQUAL; TOKEN_EQUAL_EQUAL;
                   TOKEN_NOT_EQUAL; TOKEN_LESS; TOKEN_GREATER; TOKEN_LESS_EQUAL;
                   TOKEN_GREATER_EQUAL; TOKEN_AND; TOKEN_OR; TOKEN_NOT;
                   TOKEN_AMPERSAND; TOKEN_PIPE; TOKEN_CARET; TOKEN_TILDE;
                   TOKEN_DOT_DOT; TOKEN_DOT_DOT_EQUAL; TOKEN_LEFT_PAREN;
                   TOKEN_RIGHT_PAREN; TOKEN_LEFT_BRACE; TOKEN_RIGHT_BRACE;
                   TOKEN_LEFT_BRACKET; TOKEN_RIGHT_BRACKET; TOKEN_COMMA;
                   TOKEN_COLON; TOKEN_DOT; TOKEN_ARROW; TOKEN_NEWLINE; TOKEN_EOF;
                   TOKEN_ERROR]
             = Some t)
    by (intros t; destruct t; vm_compute; reflexivity).
  pose proof (G a) as Ga. rewrite H, G in Ga. congruence.
Qed.

(** X13.  The names tell the types apart: no two token types, no two
    binary operators and no two unary operators have the same name, and
    no token type is called "UNKNOWN". *)
Theorem type_and_operator_names_are_distinct :
  (forall a b, token_type_to_string a = token_type_to_string b -> a = b)
  /\ (forall a b, binary_op_name a = binary_op_name b -> a = b)
  /\ (forall a b, unary_op_name a = unary_op_name b -> a = b)
  /\ (forall t, token_type_to_string t <> "UNKNOWN").
Proof.
  split; [exact token_type_to_string_injective|].
  split; [|split].
  - intros a b H. destruct a, b; first [reflexivity|discriminate H].
  - intros a b H. destruct a, b; first [reflexivity|discriminate H].
  - intros t. destruct t; discriminate.
Qed.

(* ================================================================= *)
(** ** The parser changes its state by two operations only

    Every parsing function gets from the state it is called in to the
    state it returns in by fetching tokens ([parser_advance]) and by
    reporting errors ([parser_error_at]): [parser_steps].  What holds of
    these two holds of all of them. *)

Lemma steps_trans p q r : parser_steps p q -> parser_steps q r -> parser_steps p r.
Proof.
  intros H1 H2. induction H2; [exact H1| |]; constructor; assumption.
Qed.

Lemma steps_error_at_current p q msg :
  parser_steps p q -> parser_steps p (parser_error_at_current q msg).
Proof. apply steps_error_at. Qed.

Lemma steps_error p q msg :
  parser_steps p q -> parser_steps p (parser_error q msg).
Proof. apply steps_error_at. Qed.

(** Take the computation [H : call = Some _] apart, one call at a time: a
    helper is replaced by what it returns in each of its cases, a call of
    a parsing function by its result, which is named and kept with the
    equation that says where it comes from. *)
Ltac unravel_step H :=
  lazymatch type of H with
  | ?X = Some _ =>
      let s := scrutinee X in
      lazymatch s with
      | Some _ => fail
      | None => fail
      | parser_match ?q ?t =>
          let E := fresh "E" in
          destruct (parser_match_cases q t) as [[_ E]|[_ E]];
          rewrite E in H; clear E
      | parser_match_any ?q ?ts =>
          let E := fresh "E" in
          destruct (parser_match_any_cases q ts) as [[_ E]|[_ E]];
          rewrite E in H; clear E
      | parser_expect ?q ?t ?m =>
          let E := fresh "E" in
          destruct (parser_expect_cases q t m) as [[_ E]|[_ E]];
          rewrite E in H; clear E
      | _ =>
          first
            [ is_var s; destruct s
            | let T := type of s in
              let T := eval hnf in T in
              lazymatch T with
              | option (_ * Parser)%type =>
                  let E := fresh "Call" in
                  destruct s as [[? ?]|] eqn:E; [|discriminate H]
              | option Parser =>
                  let E := fresh "Call" in
                  destruct s as [?|] eqn:E; [|discriminate H]
              | _ => destruct s
              end ]
      end
  end; cbn beta iota zeta delta [fst snd negb andb orb ast_list_create] in H.

Ltac unravel H :=
  repeat unravel_step H;
  first [ discriminate H
        | injection H as <- <-
        | injection H as <-
        | idtac ].

(** Turn every call that was kept into the fact some hypothesis has about
    it. *)
Ltac apply_facts :=
  repeat match goal with
         | E : _ = Some _, I : _ |- _ => apply I in E
         end.

Ltac chain_steps :=
  repeat match goal with
         | |- parser_steps ?p ?p => apply steps_none
         | |- parser_steps _ (parser_advance _) => apply steps_advance
         | |- parser_steps _ (parser_error_at _ _ _) => apply steps_error_at
         | |- parser_steps _ (parser_error_at_current _ _) =>
             apply steps_error_at_current
         | |- parser_steps _ (parser_error _ _) => apply steps_error
         | S : parser_steps ?t ?q |- parser_steps _ ?q =>
             apply (steps_trans _ t q); [|exact S]
         end.

Ltac steps_goal :=
  intros;
  match goal with
  | H : _ = Some _ |- parser_steps _ _ =>
      simpl in H; unravel H; apply_facts; chain_steps
  end.

Lemma expression_parsers_step_all n : expression_parsers_step n.
Proof.
  induction n as [|n IH].
  - unfold expression_parsers_step. repeat split; intros; discriminate.
  - unfold expression_parsers_step in *.
    destruct IH as (I1 & I2 & I3 & I4 & I5 & I6 & I7 & I8 & I9 & I10 & I11
                    & I12 & I13 & I14 & I15 & I16 & I17 & I18).
    repeat match goal with |- _ /\ _ => split end; steps_goal.
Qed.

Lemma parser_parse_expression_steps n p r p' :
  parser_parse_expression n p = Some (r, p') -> parser_steps p p'.
Proof. apply expression_parsers_step_all. Qed.

Lemma parse_postfix_continue_steps n p e r p' :
  parse_postfix_continue n p e = Some (r, p') -> parser_steps p p'.
Proof. apply (expression_parsers_step_all n). Qed.

Lemma parse_return_statement_steps n p r p' :
  parse_return_statement n p = Some (r, p') -> parser_steps p p'.
Proof.
  destruct n; [discriminate|].
  pose proof parser_parse_expression_steps. steps_goal.
Qed.

Lemma statement_parsers_step_all n : statement_parsers_step n.
Proof.
  induction n as [|n IH].
  - unfold statement_parsers_step. repeat split; intros; discriminate.
  - unfold statement_parsers_step in *.
    destruct IH as (I1 & I2 & I3 & I4 & I5 & I6 & I7).
    pose proof parser_parse_expression_steps.
    pose proof parse_postfix_continue_steps.
    pose proof parse_return_statement_steps.
    repeat match goal with |- _ /\ _ => split end; steps_goal.
Qed.

Lemma parser_parse_statement_steps n p r p' :
  parser_parse_statement n p = Some (r, p') -> parser_steps p p'.
Proof. apply statement_parsers_step_all. Qed.

Lemma parse_block_statement_steps n p r p' :
  parse_block_statement n p = Some (r, p') -> parser_steps p p'.
Proof. apply statement_parsers_step_all. Qed.

Lemma parse_parameter_list_steps n :
  forall params p r p',
    parse_parameter_list n params p = Some (r, p') -> parser_steps p p'.
Proof.
  induction n as [|n IH]; [discriminate|]. steps_goal.
Qed.

Lemma parse_function_declaration_steps n p r p' :
  parse_function_declaration n p = Some (r, p') -> parser_steps p p'.
Proof.
  destruct n; [discriminate|].
  pose proof parse_parameter_list_steps.
  pose proof parse_block_statement_steps.
  steps_goal.
Qed.

Lemma parser_parse_declaration_steps n p r p' :
  parser_parse_declaration n p = Some (r, p') -> parser_steps p p'.
Proof.
  destruct n; [discriminate|].
  pose proof parse_function_declaration_steps.
  pose proof parser_parse_statement_steps.
  steps_goal.
Qed.

Lemma parser_synchronize_loop_steps n :
  forall p p', parser_synchronize_loop n p = Some p' -> parser_steps p p'.
Proof.
  induction n as [|n IH]; [discriminate|]. intros p p' H. simpl in H.
  destruct (negb _).
  - destruct (_ ==t _); [injection H as <-; apply steps_none|].
    destruct (type (current p));
      try (injection H as <-; apply steps_none);
      (eapply steps_trans; [apply steps_advance, steps_none|apply IH, H]).
  - injection H as <-. apply steps_none.
Qed.


(* ================================================================= *)
(** ** Diagnostics *)

Lemma reports_same p q :
  panic_mode q = panic_mode p -> had_error q = had_error p ->
  stderr q = stderr p -> reports_at_most_once p q.
Proof. left. auto. Qed.

Lemma reports_trans p q r :
  reports_at_most_once p q -> reports_at_most_once q r ->
  reports_at_most_once p r.
Proof.
  intros [(A1 & A2 & A3)|(A1 & A2 & A3 & tok & msg & A4)]
         [(B1 & B2 & B3)|(B1 & B2 & B3 & tok' & msg' & B4)].
  - left. repeat split; congruence.
  - right. repeat split; try congruence. exists tok', msg'. congruence.
  - right. repeat split; try congruence. exists tok, msg. congruence.
  - congruence.
Qed.

Lemma reports_parser_error_at p tok msg :
  reports_at_most_once p (parser_error_at p tok msg).
Proof.
  unfold parser_error_at. destruct (panic_mode p) eqn:E.
  - left. auto.
  - right. simpl. repeat split; eauto.
Qed.

Lemma reports_parser_advance_loop fuel :
  forall p, reports_at_most_once p (parser_advance_loop fuel p).
Proof.
  induction fuel as [|n IH]; intros p; simpl;
    destruct (lexer_next_token (lexer p)) as [tok lx]; simpl;
    (assert (H0 : reports_at_most_once p (set_lexer_current p lx tok))
      by (apply reports_same; reflexivity));
    destruct (type tok ==t TOKEN_ERROR); simpl; auto;
    (eapply reports_trans; [exact H0|]).
  - apply reports_parser_error_at.
  - eapply reports_trans; [apply reports_parser_error_at|apply IH].
Qed.

Lemma reports_parser_advance p : reports_at_most_once p (parser_advance p).
Proof.
  unfold parser_advance.
  eapply reports_trans; [|apply reports_parser_advance_loop].
  apply reports_same; reflexivity.
Qed.

Lemma parser_steps_report p q : parser_steps p q -> reports_at_most_once p q.
Proof.
  induction 1.
  - apply reports_same; reflexivity.
  - eapply reports_trans; [eassumption|apply reports_parser_advance].
  - eapply reports_trans; [eassumption|apply reports_parser_error_at].
Qed.

Lemma reads_forward_refl p : reads_forward p p.
Proof. exists "". reflexivity. Qed.

Lemma reads_forward_trans p q r :
  reads_forward p q -> reads_forward q r -> reads_forward p r.
Proof.
  intros [s Hs] [t Ht]. exists (s ++ t). rewrite Hs, Ht, append_assoc. reflexivity.
Qed.

Lemma lexer_next_token_suffix lx :
  exists text, lex_current lx = text ++ lex_current (snd (lexer_next_token lx)).
Proof.
  destruct (scans_skip_whitespace lx) as (s & _ & Hs).
  destruct (lexer_next_token_scans lx) as (t & _ & Ht).
  exists (s ++ t). rewrite append_assoc, Hs. f_equal. exact Ht.
Qed.

Lemma reads_forward_parser_advance_loop fuel :
  forall p, reads_forward p (parser_advance_loop fuel p).
Proof.
  induction fuel as [|n IH]; intros p; simpl;
    pose proof (lexer_next_token_suffix (lexer p)) as Hs;
    destruct (lexer_next_token (lexer p)) as [tok lx]; cbn [snd] in Hs; simpl;
    (assert (H0 : reads_forward p (set_lexer_current p lx tok)) by exact Hs);
    destruct (type tok ==t TOKEN_ERROR); simpl; auto;
    (eapply reads_forward_trans; [exact H0|]).
  - unfold reads_forward, parser_error_at_current.
    match goal with |- context [parser_error_at ?a ?b ?c] =>
      destruct (parser_error_at_cursor a b c) as (-> & _) end.
    exists "". reflexivity.
  - eapply reads_forward_trans; [|apply IH].
    unfold reads_forward, parser_error_at_current.
    match goal with |- context [parser_error_at ?a ?b ?c] =>
      destruct (parser_error_at_cursor a b c) as (-> & _) end.
    exists "". reflexivity.
Qed.

Lemma reads_forward_parser_advance p : reads_forward p (parser_advance p).
Proof.
  unfold parser_advance.
  apply (reads_forward_parser_advance_loop _ (set_previous p (current p))).
Qed.

Lemma parser_steps_forward p q :
  parser_steps p q -> reads_forward p q /\ (remaining q <= remaining p)%nat.
Proof.
  induction 1 as [|q H [IH1 IH2]|q tok msg H [IH1 IH2]].
  - split; [apply reads_forward_refl|lia].
  - split.
    + eapply reads_forward_trans; [exact IH1|apply reads_forward_parser_advance].
    + pose proof (parser_advance_remaining_le q). lia.
  - split.
    + unfold reads_forward.
      destruct (parser_error_at_cursor q tok msg) as (-> & _). exact IH1.
    + rewrite remaining_parser_error_at. exact IH2.
Qed.

Lemma flags_agree_reports p q :
  reports_at_most_once p q -> flags_agree p -> flags_agree q.
Proof.
  unfold flags_agree.
  intros [(A1 & A2 & A3)|(A1 & A2 & A3 & tok & msg & A4)] [J1 J2].
  - rewrite A1, A2, A3. auto.
  - rewrite A3, A4. split; [split; auto|auto].
    intros _ E. apply app_eq_nil in E. destruct E; discriminate.
Qed.

Lemma flags_agree_steps p q : parser_steps p q -> flags_agree p -> flags_agree q.
Proof. intros H. apply flags_agree_reports, parser_steps_report, H. Qed.

Lemma flags_agree_set_panic_mode p :
  flags_agree p -> flags_agree (set_panic_mode p false).
Proof. unfold flags_agree. simpl. intros [J1 J2]. split; [exact J1|discriminate]. Qed.

Lemma flags_agree_parser_parse_loop n :
  forall decls p r p',
    parser_parse_loop n decls p = Some (r, p') ->
    flags_agree p -> flags_agree p'.
Proof.
  induction n as [|n IH]; [discriminate|]. intros decls p r p' H J.
  cbn [parser_parse_loop] in H.
  destruct (negb (parser_is_at_end p)); [|injection H as <- <-; exact J].
  destruct (parser_parse_declaration n p) as [[d q]|] eqn:Ed; [|discriminate].
  apply parser_parse_declaration_steps in Ed.
  apply flags_agree_steps in Ed; [|exact J].
  destruct (panic_mode q).
  - unfold parser_synchronize in H.
    destruct (parser_synchronize_loop n _) as [q2|] eqn:Es; [|discriminate].
    apply parser_synchronize_loop_steps in Es.
    eapply IH; [exact H|].
    eapply flags_agree_steps; [exact Es|].
    apply flags_agree_set_panic_mode, Ed.
  - eapply IH; [exact H|exact Ed].
Qed.

Lemma flags_agree_parser_on source : flags_agree (parser_on source).
Proof.
  unfold parser_on, parser_init.
  eapply flags_agree_reports; [apply reports_parser_advance|].
  unfold flags_agree. simpl. split; [split; [discriminate|congruence]|discriminate].
Qed.

Lemma type_current_parser_error_at p tok msg :
  type (current (parser_error_at p tok msg)) = type (current p).
Proof. destruct (parser_error_at_cursor p tok msg) as (_ & -> & _). reflexivity. Qed.

Lemma type_current_parser_error_at_current p msg :
  type (current (parser_error_at_current p msg)) = type (current p).
Proof. apply type_current_parser_error_at. Qed.

Lemma type_current_parser_error p msg :
  type (current (parser_error p msg)) = type (current p).
Proof. apply type_current_parser_error_at. Qed.

Lemma lexer_never_newline lx : type (fst (lexer_next_token lx)) <> TOKEN_NEWLINE.
Proof.
  pose proof (lexer_next_token_class lx) as H. intros E. rewrite E in H.
  destruct (lex_current (token_start lx)); discriminate H.
Qed.

Lemma parser_advance_loop_never_newline fuel :
  forall p, type (current (parser_advance_loop fuel p)) <> TOKEN_NEWLINE.
Proof.
  induction fuel as [|n IH]; intros p; simpl;
    pose proof (lexer_never_newline (lexer p)) as Hn;
    destruct (lexer_next_token (lexer p)) as [tok lx]; cbn [fst] in Hn; simpl;
    destruct (type tok ==t TOKEN_ERROR) eqn:E; simpl; auto.
  - rewrite type_current_parser_error_at_current. exact Hn.
Qed.

(** X15.  [parser_advance] never leaves the parser on an error token: it
    makes the current token the previous one and fetches tokens until it
    has one that is no error token.  It reads the text forwards, uses a
    token up unless the parser stands at the end of the file, and prints
    at most one diagnostic however many error tokens it steps over: the
    first one reported puts the parser in panic mode. *)
Theorem parser_advance_skips_error_tokens p :
  type (current (parser_advance p)) <> TOKEN_ERROR
  /\ previous (parser_advance p) = current p
  /\ reads_forward p (parser_advance p)
  /\ (type (current p) <> TOKEN_EOF ->
      (remaining (parser_advance p) < remaining p)%nat)
  /\ ((panic_mode (parser_advance p) = panic_mode p
       /\ had_error (parser_advance p) = had_error p
       /\ stderr (parser_advance p) = stderr p)
      \/ (panic_mode p = false /\ panic_mode (parser_advance p) = true
          /\ had_error (parser_advance p) = true
          /\ exists tok msg,
               stderr (parser_advance p) = (stderr p ++ [(tok, msg)])%list)).
Proof.
  split; [apply parser_advance_not_error|].
  split; [apply previous_parser_advance|].
  split; [apply reads_forward_parser_advance|].
  split; [apply parser_advance_remaining_lt|].
  apply reports_parser_advance.
Qed.

(** X19.  A declaration reports at most one error.  Whatever
    [parser_parse_declaration] parses, it reads the text forwards and
    either leaves the flags and the diagnostics as they are, or prints
    exactly one diagnostic, sets [had_error] and ends in panic mode; in
    panic mode it prints nothing.  Panic mode is never left inside a
    declaration. *)
Theorem declaration_reports_at_most_once n p r p' :
  parser_parse_declaration n p = Some (r, p') ->
  reads_forward p p'
  /\ ((panic_mode p' = panic_mode p /\ had_error p' = had_error p
       /\ stderr p' = stderr p)
      \/ (panic_mode p = false /\ panic_mode p' = true /\ had_error p' = true
          /\ exists tok msg, stderr p' = (stderr p ++ [(tok, msg)])%list)).
Proof.
  intros H. apply parser_parse_declaration_steps in H.
  split; [apply parser_steps_forward, H|apply parser_steps_report, H].
Qed.

(** The declaration [x = (1 + ) * , 2]: three things are wrong with it,
    one is reported. *)
Lemma declaration_reports_witness :
  match parser_parse_declaration 30 (parser_on "x = (1 + ) * , 2") with
  | Some (_, p') =>
      List.length (stderr p') = 1%nat /\ panic_mode p' = true
      /\ had_error p' = true
  | None => False
  end.
Proof.
  destruct (parser_parse_declaration 30 (parser_on "x = (1 + ) * , 2"))
    as [[r p']|] eqn:E; [|vm_compute in E; discriminate E].
  destruct (declaration_reports_at_most_once _ _ _ _ E)
    as [_ [(H1 & _)|(_ & H1 & H2 & tok & msg & H3)]].
  - vm_compute in E. injection E as _ <-. discriminate H1.
  - rewrite H3, H1, H2. repeat split.
Defined.

Lemma parser_parse_loop_list n :
  forall decls p r p',
    parser_parse_loop n (Some decls) p = Some (r, p') ->
    exists more,
      r = Some (decls ++ more)%list /\ Forall (fun d => d <> None) more.
Proof.
  induction n as [|n IH]; [discriminate|]. intros decls p r p' H.
  cbn [parser_parse_loop] in H.
  destruct (negb (parser_is_at_end p)).
  - destruct (parser_parse_declaration n p) as [[d q]|]; [|discriminate].
    destruct (if panic_mode q then parser_synchronize n q else Some q)
      as [q2|]; [|discriminate].
    destruct d as [d|].
    + cbn [ast_list_append] in H. apply IH in H.
      destruct H as (more & -> & Hm). exists (Some d :: more).
      rewrite <- app_assoc. split; [reflexivity|].
      constructor; [discriminate|exact Hm].
    + apply IH in H. exact H.
  - injection H as <- <-. exists []. rewrite app_nil_r. auto.
Qed.

(** X23.  [parser_parse] fails exactly when it has reported: started on
    a source text, it returns NULL if and only if at least one diagnostic
    was printed, which is if and only if [had_error] is set; what it
    returns otherwise is a program node whose list of declarations is
    there and holds no NULL. *)
Theorem parser_parse_fails_exactly_when_it_reported fuel source r p' :
  parser_parse fuel (parser_on source) = Some (r, p') ->
  (r = None <-> stderr p' <> [])
  /\ (r = None <-> had_error p' = true)
  /\ (forall node, r = Some node ->
        exists decls,
          node = AST_PROGRAM 1 1 (Some decls)
          /\ Forall (fun d => d <> None) decls).
Proof.
  unfold parser_parse, ast_list_create. intros H.
  destruct (parser_parse_loop fuel _ _) as [[decls q]|] eqn:E; [|discriminate].
  pose proof (flags_agree_parser_parse_loop _ _ _ _ _ E
                (flags_agree_parser_on source)) as [J1 J2].
  apply parser_parse_loop_list in E. destruct E as (more & -> & Hm).
  destruct (had_error q) eqn:Eh; injection H as <- <-.
  - rewrite Eh. repeat split; auto; try discriminate.
    intros _. apply J1. reflexivity.
  - rewrite Eh. repeat split; try discriminate.
    + intros Hs. apply J1 in Hs. discriminate.
    + intros node [= <-]. exists more. auto.
Qed.

Lemma parser_parse_report_witness :
  match parser_parse 30 (parser_on "x = 1 } y = 2") with
  | Some (r, p') => r = None /\ stderr p' <> []
  | None => False
  end.
Proof.
  destruct (parser_parse 30 (parser_on "x = 1 } y = 2")) as [[r p']|] eqn:E;
    [|vm_compute in E; discriminate E].
  destruct (parser_parse_fails_exactly_when_it_reported _ _ _ _ E) as (H1 & H2 & _).
  assert (Hr : r = None) by (vm_compute in E; congruence).
  split; [exact Hr|apply H1, Hr].
Defined.

(* ================================================================= *)
(** ** The trees the parser builds *)

Lemma forallb_snoc {A} (f : A -> bool) l x :
  forallb f (l ++ [x]) = forallb f l && f x.
Proof. rewrite forallb_app. simpl. rewrite andb_true_r. reflexivity. Qed.

(** Prove that a tree is of the parsed form from what is known of its
    parts. *)
Ltac form_goal :=
  try match goal with |- _ /\ _ => split end;
  unfold ast_create_binary, ast_create_unary, ast_create_literal_int,
    ast_create_literal_float, ast_create_literal_string, ast_create_literal_bool,
    ast_create_identifier, ast_create_call, ast_create_index, ast_create_member,
    ast_create_array, ast_create_var_decl, ast_create_expr_stmt, ast_create_if,
    ast_create_while, ast_create_for, ast_create_loop, ast_create_return,
    ast_create_break, ast_create_continue, ast_create_block, ast_create_function,
    ast_create_parameter, ast_list_create,
    parsed_statements, parsed_children, parsed_parameters, ast_list_append in *;
  cbn [parsed_child parsed_form is_some forallb no_default negb] in *;
  repeat match goal with
         | H : match ?l with Some _ => _ | None => false end = true |- _ =>
             is_var l; destruct l; [|discriminate H]
         | H : false = true |- _ => discriminate H
         | H : (_ && _) = true |- _ =>
             apply andb_true_iff in H; destruct H
         end;
  rewrite ?forallb_snoc;
  cbn [parsed_child parsed_form is_some forallb no_default negb];
  repeat match goal with
         | |- (_ && _) = true => apply andb_true_intro; split
         | |- parsed_operator (if ?b then _ else _) = true => destruct b
         | |- parsed_operator (match ?t with _ => _ end) = true => destruct t
         end;
  first [ reflexivity | assumption ].

(** Learn the form of the result of every call that was kept, in whatever
    order the facts depend on each other. *)
Ltac learn_forms :=
  repeat match goal with
         | Call : _ = Some (?r, _), I : _ |- _ =>
             lazymatch goal with
             | _ : parsed_child r = true |- _ => fail
             | _ : parsed_children r = true |- _ => fail
             | _ : parsed_statements r = true |- _ => fail
             | _ : parsed_parameters r = true |- _ => fail
             | _ => idtac
             end;
             let F := fresh "Form" in
             pose proof Call as F;
             apply I in F; [|solve [form_goal]..];
             lazymatch type of F with
             | _ = true => idtac
             | _ = true /\ _ = true => destruct F
             end
         end.

Ltac forms_goal :=
  intros;
  match goal with
  | H : _ = Some _ |- _ =>
      simpl in H; unravel H;
      repeat match goal with
             | Call : context [match ?o with Some _ => _ | None => _ end] |- _ =>
                 is_var o; destruct o
             end;
      learn_forms; form_goal
  end.

Lemma expression_parsers_form_all n : expression_parsers_form n.
Proof.
  induction n as [|n IH].
  - unfold expression_parsers_form. repeat split; intros; discriminate.
  - unfold expression_parsers_form in *.
    destruct IH as (I1 & I2 & I3 & I4 & I5 & I6 & I7 & I8 & I9 & I10 & I11
                    & I12 & I13 & I14 & I15 & I16 & I17 & I18).
    repeat match goal with |- _ /\ _ => split end; forms_goal.
Qed.

Lemma parser_parse_expression_form n p r p' :
  parser_parse_expression n p = Some (r, p') -> parsed_child r = true.
Proof. apply expression_parsers_form_all. Qed.

Lemma parse_postfix_continue_form n p e r p' :
  parse_postfix_continue n p e = Some (r, p') ->
  parsed_child e = true -> parsed_child r = true.
Proof. apply (expression_parsers_form_all n). Qed.

Lemma parse_return_statement_form n p r p' :
  parse_return_statement n p = Some (r, p') -> parsed_child r = true.
Proof.
  destruct n; [discriminate|].
  pose proof parser_parse_expression_form. forms_goal.
Qed.

Lemma statement_parsers_form_all n : statement_parsers_form n.
Proof.
  induction n as [|n IH].
  - unfold statement_parsers_form. repeat split; intros; discriminate.
  - unfold statement_parsers_form in *.
    destruct IH as (I1 & I2 & I3 & I4 & I5 & I6 & I7).
    assert (I1a : forall p r p',
               parse_block_statement n p = Some (r, p') -> parsed_child r = true)
      by (intros p r p' E; apply (I1 p r p' E)).
    pose proof parser_parse_expression_form.
    pose proof parse_postfix_continue_form.
    pose proof parse_return_statement_form.
    repeat match goal with |- _ /\ _ => split end; forms_goal.
Qed.

Lemma parser_parse_statement_form n p r p' :
  parser_parse_statement n p = Some (r, p') -> parsed_child r = true.
Proof. apply statement_parsers_form_all. Qed.

Lemma parse_block_statement_form n p r p' :
  parse_block_statement n p = Some (r, p') ->
  is_some r = true /\ parsed_child r = true.
Proof. apply statement_parsers_form_all. Qed.

Lemma parse_parameter_list_form n :
  forall params p r p',
    parse_parameter_list n params p = Some (r, p') ->
    parsed_parameters params = true -> parsed_parameters r = true.
Proof.
  induction n as [|n IH]; [discriminate|]. forms_goal.
Qed.

Lemma parse_function_declaration_form n p r p' :
  parse_function_declaration n p = Some (r, p') -> parsed_child r = true.
Proof.
  destruct n; [discriminate|].
  pose proof parse_parameter_list_form.
  pose proof parse_block_statement_form.
  forms_goal.
Qed.

Lemma parser_parse_declaration_form n p r p' :
  parser_parse_declaration n p = Some (r, p') -> parsed_child r = true.
Proof.
  destruct n; [discriminate|].
  pose proof parse_function_declaration_form.
  pose proof parser_parse_statement_form.
  forms_goal.
Qed.

Lemma parser_parse_loop_form n :
  forall decls p r p',
    parser_parse_loop n decls p = Some (r, p') ->
    parsed_statements decls = true -> parsed_statements r = true.
Proof.
  induction n as [|n IH]; [discriminate|]. intros decls p r p' H Hd.
  cbn [parser_parse_loop] in H.
  destruct (negb (parser_is_at_end p)); [|injection H as <- <-; exact Hd].
  destruct (parser_parse_declaration n p) as [[d q]|] eqn:Ed; [|discriminate].
  apply parser_parse_declaration_form in Ed.
  destruct (if panic_mode q then parser_synchronize n q else Some q)
    as [q2|]; [|discriminate].
  eapply IH; [exact H|]. destruct d; form_goal.
Qed.

(** X24.  The trees the parser builds are of one form ([parsed_form]).
    Throughout a tree: every list is there (no NULL list pointer); a
    block holds no NULL statement; an [if] and a [while] have a
    condition, a [for] an iterable and an expression statement an
    expression; no parameter has a default value; and there is no
    dictionary, assignment, class or import node, no null literal and no
    bitwise or shift operator, which the syntax tree provides for and
    the parser never makes.  A function declaration always yields a node,
    and the declarations of a program are all there and of that form. *)
Theorem parser_builds_trees_of_the_parsed_form :
  (forall n p r p',
      parser_parse_declaration n p = Some (r, p') -> parsed_child r = true)
  /\ (forall n p r p',
        parser_parse_expression n p = Some (r, p') -> parsed_child r = true)
  /\ (forall n p r p',
        parse_function_declaration n p = Some (r, p') -> is_some r = true)
  /\ (forall fuel p node p',
        parser_parse fuel p = Some (Some node, p') ->
        exists decls,
          node = AST_PROGRAM 1 1 (Some decls)
          /\ forallb parsed_child decls = true
          /\ forallb is_some decls = true).
Proof.
  split; [exact parser_parse_declaration_form|].
  split; [exact parser_parse_expression_form|].
  split.
  { intros n p r p' H. destruct n; [discriminate|]. simpl in H. unravel H.
    all: reflexivity. }
  intros fuel p node p' H. unfold parser_parse in H.
  destruct (parser_parse_loop fuel _ p) as [[decls q]|] eqn:E; [|discriminate].
  apply parser_parse_loop_form in E; [|reflexivity].
  destruct (had_error q); [discriminate|]. injection H as <- <-.
  unfold parsed_statements, parsed_children in E.
  destruct decls as [decls|]; [|discriminate E].
  apply andb_true_iff in E. destruct E. exists decls. auto.
Qed.

(** X25.  The names of the operators are the texts the parser reads them
    from: for every binary operator the parser makes nodes for, [a], the
    operator's name and [b] parse to the node of that operator on [a] and
    [b], and the name of a unary operator before [a] parses to its node;
    no error is reported and all the text is used. *)
Theorem operator_names_parse_back :
  (forall op,
      parsed_operator op = true ->
      exists p',
        parser_parse_expression 12
          (parser_on ("a " ++ binary_op_name op ++ " b"))
        = Some (Some (AST_BINARY_EXPR
                        1 (3 + Z.of_nat (String.length (binary_op_name op))) op
                        (Some (AST_IDENTIFIER_EXPR 1 2 "a"))
                        (Some (AST_IDENTIFIER_EXPR
                                 1 (5 + Z.of_nat (String.length (binary_op_name op)))
                                 "b"))),
                p')
        /\ had_error p' = false /\ type (current p') = TOKEN_EOF)
  /\ (forall op,
        exists p',
          parser_parse_expression 12 (parser_on (unary_op_name op ++ "a"))
          = Some (Some (AST_UNARY_EXPR 1 2 op (Some (AST_IDENTIFIER_EXPR 1 3 "a"))),
                  p')
          /\ had_error p' = false /\ type (current p') = TOKEN_EOF).
Proof.
  split.
  - intros op H. destruct op; try discriminate H;
      eexists; (split; [vm_compute; reflexivity|split; reflexivity]).
  - intros op. destruct op;
      eexists; (split; [vm_compute; reflexivity|split; reflexivity]).
Qed.

(* ================================================================= *)
(** ** Which tokens get the parser on

    Each level of the expression grammar has the tokens it starts on.
    Called on one of them a parsing function uses at least one token up;
    called on any other it returns NULL and leaves the cursor where it
    was.  So is the loop of a binary operator about its operators. *)

Lemma parser_match_progress q t :
  t <> TOKEN_EOF ->
  (exists q', parser_match q t = (true, q')
              /\ type (current q) = t
              /\ (remaining q' < remaining q)%nat
              /\ parser_steps q q')
  \/ (parser_match q t = (false, q) /\ type (current q) <> t).
Proof.
  intros Ht. destruct (parser_match_cases q t) as [[H E]|[H E]]; [left|right; auto].
  exists (parser_advance q). repeat split; auto.
  - apply parser_advance_remaining_lt. congruence.
  - apply steps_advance, steps_none.
Qed.

Lemma parser_match_any_progress q ts :
  ~ In TOKEN_EOF ts ->
  (exists q', parser_match_any q ts = (true, q')
              /\ In (type (current q)) ts
              /\ (remaining q' < remaining q)%nat
              /\ parser_steps q q')
  \/ (parser_match_any q ts = (false, q) /\ ~ In (type (current q)) ts).
Proof.
  intros Ht. destruct (parser_match_any_cases q ts) as [[H E]|[H E]];
    [left|right; auto].
  exists (parser_advance q). repeat split; auto.
  - apply parser_advance_remaining_lt. intros E'. rewrite E' in H. contradiction.
  - apply steps_advance, steps_none.
Qed.

Lemma parser_expect_progress q t m :
  exists q', parser_expect q t m = (current q, q')
             /\ (remaining q' <= remaining q)%nat
             /\ parser_steps q q'.
Proof.
  destruct (parser_expect_cases q t m) as [[H E]|[H E]]; rewrite E; eexists;
    (split; [reflexivity|]); split.
  - apply parser_advance_remaining_le.
  - apply steps_advance, steps_none.
  - rewrite remaining_parser_error_at_current. lia.
  - apply steps_error_at_current, steps_none.
Qed.

Lemma parser_steps_remaining p q :
  parser_steps p q -> (remaining q <= remaining p)%nat.
Proof.
  induction 1.
  - lia.
  - pose proof (parser_advance_remaining_le q). lia.
  - rewrite remaining_parser_error_at. assumption.
Qed.

Lemma same_cursor_refl p : same_cursor p p.
Proof. unfold same_cursor. auto. Qed.

Lemma same_cursor_trans p q r : same_cursor p q -> same_cursor q r -> same_cursor p r.
Proof. unfold same_cursor. intuition congruence. Qed.

Lemma same_cursor_parser_error_at_current p msg :
  same_cursor (parser_error_at_current p msg) p.
Proof. apply parser_error_at_cursor. Qed.

Lemma same_cursor_parser_error p msg : same_cursor (parser_error p msg) p.
Proof. apply parser_error_at_cursor. Qed.

Lemma same_cursor_type p q : same_cursor p q -> type (current p) = type (current q).
Proof. intros (_ & -> & _). reflexivity. Qed.

(** Take [H : call = Some _] apart as [unravel] does, noting of every
    helper whether it used a token up, and of every parsing function what
    the hypotheses [consumes] and [steps] say of it. *)
Ltac consume_step H :=
  lazymatch type of H with
  | ?X = Some _ =>
      let s := scrutinee X in
      lazymatch s with
      | Some _ => fail
      | None => fail
      | ?a ==t ?b =>
          let E := fresh "E" in
          destruct (a ==t b) eqn:E;
          [apply token_type_eqb_eq in E|apply token_type_eqb_neq in E]
      | parser_check ?q ?t =>
          let E := fresh "E" in
          destruct (parser_check q t) eqn:E; unfold parser_check in E;
          [apply token_type_eqb_eq in E|apply token_type_eqb_neq in E]
      | parser_is_at_end ?q =>
          let E := fresh "E" in
          destruct (parser_is_at_end q) eqn:E; unfold parser_is_at_end in E;
          [apply token_type_eqb_eq in E|apply token_type_eqb_neq in E]
      | parser_match ?q ?t =>
          let E := fresh "E" in
          destruct (parser_match_progress q t ltac:(discriminate))
            as [(? & E & ? & ? & ?)|(E & ?)];
          rewrite E in H; clear E
      | parser_match_any ?q ?ts =>
          let E := fresh "E" in
          destruct (parser_match_any_progress q ts
                      ltac:(cbn; intuition discriminate))
            as [(? & E & ? & ? & ?)|(E & ?)];
          rewrite E in H; clear E
      | parser_expect ?q ?t ?m =>
          let E := fresh "E" in
          destruct (parser_expect_progress q t m) as (? & E & ? & ?);
          rewrite E in H; clear E
      | _ =>
          first
            [ is_var s; destruct s
            | let T := type of s in
              let T := eval hnf in T in
              lazymatch T with
              | option (_ * Parser)%type =>
                  let E := fresh "Call" in
                  let S := fresh "Steps" in
                  destruct s as [[? ?]|] eqn:E; [|discriminate H];
                  pose proof E as S;
                  match goal with
                  | I : _ |- _ =>
                      apply I in S;
                      lazymatch type of S with
                      | parser_steps _ _ => apply parser_steps_remaining in S
                      end
                  end;
                  try match goal with
                      | I : _ |- _ =>
                          apply I in E;
                          lazymatch type of E with
                          | consumes_from _ _ _ _ =>
                              destruct E as [(? & ?)|(? & ? & ?)]
                          | continues_from _ _ _ _ _ =>
                              destruct E as [(? & ?)|(? & ? & ?)]
                          | _ \/ _ => destruct E as [(? & ?)|(? & ? & ?)]
                          end
                      end
              | _ => destruct s
              end ]
      end
  end; cbn beta iota zeta delta [fst snd negb andb orb ast_list_create] in H.

Ltac contradictory :=
  match goal with
  | H : _ = true |- _ => cbn in H; discriminate H
  | H : _ = false |- _ => cbn in H; discriminate H
  | H : ~ In _ _ |- _ => cbn in H; intuition congruence
  | H : In _ _ |- _ => cbn in H; intuition congruence
  | H : _ <> _ |- _ => congruence
  | H : _ = _ |- _ => discriminate H
  end.

(** Decide a question about the current token of the state the call was
    made in, from what the matches and the calls have told. *)
Ltac token_goal :=
  repeat match goal with
         | H : same_cursor ?q ?t |- _ =>
             apply same_cursor_type in H
         end;
  rewrite ?type_current_parser_error_at_current, ?type_current_parser_error in *;
  repeat match goal with
         | H : type (current ?q) = type (current ?t) |- _ =>
             rewrite H in *; clear H
         end;
  match goal with
  | |- _ (type (current ?p)) = _ =>
      destruct (type (current p));
      first [ reflexivity | exfalso; contradictory ]
  end.

Ltac cursor_goal :=
  eauto 6 using same_cursor_refl, same_cursor_trans,
    same_cursor_parser_error_at_current, same_cursor_parser_error.

(** What fetching a token does to the number of tokens left, for every
    state in sight that was reached by fetching one. *)
Ltac advance_facts :=
  repeat match goal with
         | Ht : type (current ?q) = ?t |- context [parser_advance ?q] =>
             lazymatch goal with
             | _ : (remaining (parser_advance q) < remaining q)%nat |- _ => fail
             | _ =>
                 pose proof (parser_advance_remaining_lt q
                               ltac:(rewrite Ht; discriminate))
             end
         | Ht : type (current ?q) = ?t, _ : context [parser_advance ?q] |- _ =>
             lazymatch goal with
             | _ : (remaining (parser_advance q) < remaining q)%nat |- _ => fail
             | _ =>
                 pose proof (parser_advance_remaining_lt q
                               ltac:(rewrite Ht; discriminate))
             end
         | |- context [parser_advance ?q] =>
             lazymatch goal with
             | _ : (remaining (parser_advance q) <= remaining q)%nat |- _ => fail
             | _ => pose proof (parser_advance_remaining_le q)
             end
         | _ : context [parser_advance ?q] |- _ =>
             lazymatch goal with
             | _ : (remaining (parser_advance q) <= remaining q)%nat |- _ => fail
             | _ => pose proof (parser_advance_remaining_le q)
             end
         end.

Ltac settle :=
  subst;
  repeat match goal with
         | H : same_cursor ?q ?t |- _ =>
             lazymatch goal with
             | _ : remaining q = remaining t |- _ => fail
             | _ => pose proof (remaining_same_cursor q t H)
             end
         end;
  unfold consumes_from, continues_from;
  rewrite ?remaining_parser_error_at_current, ?remaining_parser_error in *;
  advance_facts;
  first [ left; split; [lia|token_goal]
        | right; split; [first [reflexivity|cursor_goal]
                        |split; [first [reflexivity|congruence]|token_goal]] ].

Ltac consume_goal :=
  intros;
  match goal with
  | H : _ = Some _ |- _ =>
      simpl in H; repeat consume_step H;
      first [ discriminate H | injection H as <- <-; settle ]
  end.

Lemma expression_parsers_consume_all n : expression_parsers_consume n.
Proof.
  induction n as [|n IH].
  - unfold expression_parsers_consume. repeat split; intros; discriminate.
  - pose proof (expression_parsers_step_all n) as St.
    unfold expression_parsers_consume, expression_parsers_step in *.
    destruct IH as (I1 & I2 & I3 & I4 & I5 & I6 & I7 & I8 & I9 & I10 & I11
                    & I12 & I13 & I14 & I15 & I16 & I17 & I18).
    destruct St as (S1 & S2 & S3 & S4 & S5 & S6 & S7 & S8 & S9 & S10 & S11
                    & S12 & S13 & S14 & S15 & S16 & S17 & S18).
    repeat match goal with |- _ /\ _ => split end.
    all: consume_goal.
Qed.

Lemma parser_parse_expression_consumes n p r p' :
  parser_parse_expression n p = Some (r, p') ->
  consumes_from starts_logical_or p r p'.
Proof. apply expression_parsers_consume_all. Qed.

Lemma parser_parse_statement_consumes n p r p' :
  parser_parse_statement n p = Some (r, p') ->
  consumes_from starts_statement p r p'.
Proof.
  destruct n as [|n]; [discriminate|].
  pose proof (statement_parsers_step_all n) as St.
  unfold statement_parsers_step in St.
  destruct St as (S1 & S2 & S3 & S4 & S5 & S6 & S7).
  pose proof parser_parse_expression_steps.
  pose proof parse_postfix_continue_steps.
  pose proof parse_return_statement_steps.
  pose proof parser_parse_expression_consumes.
  revert p r p'. consume_goal.
Qed.

Lemma parser_parse_declaration_consumes n p r p' :
  parser_parse_declaration n p = Some (r, p') ->
  consumes_from starts_declaration p r p'.
Proof.
  destruct n as [|n]; [discriminate|].
  pose proof parse_function_declaration_steps.
  pose proof parser_parse_statement_steps.
  pose proof parser_parse_statement_consumes.
  revert p r p'. consume_goal.
Qed.

Lemma expression_token_starts_logical_or t :
  starts_logical_or t = expression_token t.
Proof. destruct t; reflexivity. Qed.

Lemma statement_without_start n p r q :
  starts_statement (type (current p)) = false ->
  parser_parse_statement n p = Some (r, q) ->
  r = None /\ q = found_nothing p.
Proof.
  intros Hs H.
  apply (parser_parse_statement_more_fuel n (S (10 + n))) in H; [|lia].
  unfold starts_statement in Hs. apply orb_false_iff in Hs. destruct Hs as [Hk He].
  rewrite expression_token_starts_logical_or in He.
  rewrite statement_fallback in H by exact Hk.
  rewrite expression_without_expression in H by exact He.
  injection H as <- <-. auto.
Qed.

Lemma declaration_without_start n p r q :
  starts_declaration (type (current p)) = false ->
  parser_parse_declaration n p = Some (r, q) ->
  r = None /\ q = found_nothing p.
Proof.
  intros Hs H. destruct n as [|n]; [discriminate|].
  unfold starts_declaration in Hs. apply orb_false_iff in Hs. destruct Hs as [Hf Hs].
  cbn [parser_parse_declaration] in H.
  rewrite parser_match_false in H
    by (intros E; rewrite E in Hf; discriminate).
  eapply statement_without_start; eassumption.
Qed.

Lemma same_cursor_found_nothing p : same_cursor (found_nothing p) p.
Proof.
  unfold found_nothing. destruct (closes_or_ends _);
    [apply same_cursor_refl|apply same_cursor_parser_error_at_current].
Qed.

(** X17.  An expression is parsed from the tokens an expression can start
    on.  When [parser_parse_expression] returns, then it has used at least
    one token up if the token it was called on is a literal, an
    identifier, an opening parenthesis or bracket, an operator of the
    expression grammar or a point; on any other token it has returned NULL
    with the cursor where it was. *)
Theorem expression_consumes_exactly_on_its_tokens n p r p' :
  parser_parse_expression n p = Some (r, p') ->
  ((remaining p' < remaining p)%nat /\ expression_token (type (current p)) = true)
  \/ (same_cursor p' p /\ r = None
      /\ expression_token (type (current p)) = false).
Proof.
  intros H. rewrite <- expression_token_starts_logical_or.
  apply (parser_parse_expression_consumes n p r p' H).
Qed.

Lemma expression_consumes_witness :
  match parser_parse_expression 20 (parser_on "* 2") with
  | Some (_, p') => (remaining p' < remaining (parser_on "* 2"))%nat
  | None => False
  end.
Proof.
  destruct (parser_parse_expression 20 (parser_on "* 2")) as [[r p']|] eqn:E;
    [|vm_compute in E; discriminate E].
  destruct (expression_consumes_exactly_on_its_tokens _ _ _ _ E)
    as [[H _]|(_ & _ & H)]; [exact H|discriminate H].
Defined.

(** X18.  A statement is parsed from the tokens a statement can start on:
    an identifier, [if], [while], [for], [loop], [return], [break],
    [continue] and the tokens of an expression; a declaration from these
    and [func].  When [parser_parse_statement] or
    [parser_parse_declaration] returns, it has used at least one token up
    if it was called on such a token, and has otherwise returned NULL
    with the cursor where it was: untouched on [)], []] and the end of the
    input, and after reporting "Expected expression" on any other token. *)
Theorem declaration_consumes_exactly_on_its_tokens n p r p' :
  (parser_parse_statement n p = Some (r, p') ->
   ((remaining p' < remaining p)%nat
    /\ (statement_keyword (type (current p))
        || expression_token (type (current p))) = true)
   \/ (r = None /\ p' = found_nothing p
       /\ (statement_keyword (type (current p))
           || expression_token (type (current p))) = false))
  /\ (parser_parse_declaration n p = Some (r, p') ->
      ((remaining p' < remaining p)%nat
       /\ starts_declaration (type (current p)) = true)
      \/ (r = None /\ p' = found_nothing p
          /\ starts_declaration (type (current p)) = false)).
Proof.
  split; intros H.
  - rewrite <- expression_token_starts_logical_or.
    fold (starts_statement (type (current p))).
    destruct (parser_parse_statement_consumes n p r p' H)
      as [[H1 H2]|(_ & _ & H2)]; [left; auto|right].
    destruct (statement_without_start n p r p' H2 H) as [-> ->]. auto.
  - destruct (parser_parse_declaration_consumes n p r p' H)
      as [[H1 H2]|(_ & _ & H2)]; [left; auto|right].
    destruct (declaration_without_start n p r p' H2 H) as [-> ->]. auto.
Qed.

(** X22.  Inside a block, a token that starts no statement is never got
    past.  When the loop of [parse_block_statement] stands on a token
    that is neither a closing brace nor the end of the input, and on
    which no statement starts (an opening brace is one, and so are a
    comma, a colon, an equals sign, [else], [in], [func]), the statement
    parser uses no token up and the loop does not end: the block parser
    does not return, whatever the fuel. *)
Theorem block_never_gets_past_a_token_that_starts_no_statement p :
  starts_statement (type (current p)) = false ->
  type (current p) <> TOKEN_RIGHT_BRACE ->
  type (current p) <> TOKEN_EOF ->
  forall n stmts, parse_block_loop n stmts p = None.
Proof.
  intros Hs Hb He n. revert p Hs Hb He.
  induction n as [|n IH]; intros p Hs Hb He stmts; [reflexivity|].
  cbn [parse_block_loop].
  rewrite parser_check_false by exact Hb.
  unfold parser_is_at_end. rewrite (proj2 (token_type_eqb_neq _ _) He).
  cbn [negb andb].
  destruct (parser_parse_statement n p) as [[r q]|] eqn:E; [|reflexivity].
  destruct (statement_without_start n p r q Hs E) as [-> ->].
  pose proof (same_cursor_type _ _ (same_cursor_found_nothing p)) as Ht.
  apply IH; rewrite Ht; assumption.
Qed.

(** The block [{ { } }]: after the first brace the loop stands on the
    second, which starts no statement. *)
Lemma block_never_gets_past_witness :
  parse_block_loop 1000 (Some []) (parser_advance (parser_on "{ { } }")) = None.
Proof.
  apply (block_never_gets_past_a_token_that_starts_no_statement
           (parser_advance (parser_on "{ { } }"))); vm_compute; congruence.
Defined.

Lemma remaining_set_panic_mode p b : remaining (set_panic_mode p b) = remaining p.
Proof. reflexivity. Qed.

Lemma parser_synchronize_remaining n p q :
  parser_synchronize n p = Some q -> (remaining q <= remaining p)%nat.
Proof.
  unfold parser_synchronize. intros H.
  apply parser_synchronize_loop_steps, parser_steps_remaining in H. exact H.
Qed.

Lemma parser_synchronize_loop_stop n p :
  resynchronised p = true -> parser_synchronize_loop (S n) p = Some p.
Proof.
  unfold resynchronised. intros H. cbn [parser_synchronize_loop].
  destruct (type (current p) ==t TOKEN_EOF); cbn [negb orb] in *; [reflexivity|].
  destruct (type (previous p) ==t TOKEN_NEWLINE); cbn [orb] in *; [reflexivity|].
  destruct (type (current p)); try discriminate H; reflexivity.
Qed.

Lemma parser_synchronize_loop_skip n p :
  resynchronised p = false ->
  parser_synchronize_loop (S n) p = parser_synchronize_loop n (parser_advance p).
Proof.
  unfold resynchronised. intros H. cbn [parser_synchronize_loop].
  destruct (type (current p) ==t TOKEN_EOF); cbn [negb orb] in *; [discriminate H|].
  destruct (type (previous p) ==t TOKEN_NEWLINE); cbn [orb] in *; [discriminate H|].
  destruct (type (current p)); try discriminate H; reflexivity.
Qed.

Lemma resynchronised_after_newline p :
  type (previous p) = TOKEN_NEWLINE -> resynchronised p = true.
Proof.
  intros H. unfold resynchronised. rewrite H.
  replace (TOKEN_NEWLINE ==t TOKEN_NEWLINE) with true by reflexivity.
  apply orb_true_iff. left. apply orb_true_r.
Qed.

(** A turn of the loop of [parser_parse] that starts after a newline token
    on a token that starts no declaration ends where it began. *)
Lemma turn_after_newline n p d q q' :
  type (previous p) = TOKEN_NEWLINE ->
  starts_declaration (type (current p)) = false ->
  parser_parse_declaration n p = Some (d, q) ->
  (if panic_mode q then parser_synchronize n q else Some q) = Some q' ->
  d = None /\ same_cursor q' p /\ panic_mode q' = false.
Proof.
  intros Hp Hset Hd Hs.
  destruct (declaration_without_start n p d q Hset Hd) as [-> ->].
  split; [reflexivity|].
  pose proof (same_cursor_found_nothing p) as Hc.
  destruct (panic_mode (found_nothing p)) eqn:Epm.
  - destruct n as [|n]; [discriminate Hs|].
    unfold parser_synchronize in Hs.
    rewrite parser_synchronize_loop_stop in Hs.
    + injection Hs as <-. split; [exact Hc|reflexivity].
    + apply resynchronised_after_newline.
      change (previous (set_panic_mode ?x false)) with (previous x).
      destruct Hc as (_ & _ & ->). exact Hp.
  - injection Hs as <-. split; [exact Hc|exact Epm].
Qed.

Lemma parser_parse_loop_never_returns_after_newline n :
  forall p decls,
    type (previous p) = TOKEN_NEWLINE ->
    starts_declaration (type (current p)) = false ->
    type (current p) <> TOKEN_EOF ->
    parser_parse_loop n decls p = None.
Proof.
  induction n as [|n IH]; intros p decls Hp Hset He; [reflexivity|].
  cbn [parser_parse_loop]. unfold parser_is_at_end.
  rewrite (proj2 (token_type_eqb_neq _ _) He). cbn [negb].
  destruct (parser_parse_declaration n p) as [[d q]|] eqn:Hd; [|reflexivity].
  destruct (if panic_mode q then parser_synchronize n q else Some q)
    as [q'|] eqn:Hs; [|reflexivity].
  destruct (turn_after_newline n p d q q' Hp Hset Hd Hs) as (-> & Hc & _).
  destruct Hc as (_ & Hc1 & Hc2).
  apply IH; rewrite ?Hc1, ?Hc2; assumption.
Qed.

(** X21.  One turn of the loop of [parser_parse] (a declaration, then
    resynchronisation if the parser is in panic mode), started on a token
    that is not the end of the input.
    - If the previous token is no newline token, the turn uses at least
      one token up unless the current token is [)], []], [import] or
      [class]; on these four, with panic mode off, it yields no
      declaration and ends where it began, the cursor unmoved and panic
      mode off again, so that the next turn is the same.
    - If the previous token is a newline token -- the lexer makes none,
      but before the first token is used up [previous] is what the
      caller's memory held when [parser_init] was called -- and the
      current token starts no declaration, the turn ends where it began
      as well: resynchronisation stops at once.  The loop then never
      ends. *)
Theorem top_level_turn_progress n p d q q' :
  parser_parse_declaration n p = Some (d, q) ->
  (if panic_mode q then parser_synchronize n q else Some q) = Some q' ->
  type (current p) <> TOKEN_EOF ->
  (stalls (type (current p)) = false -> type (previous p) <> TOKEN_NEWLINE ->
   (remaining q' < remaining p)%nat)
  /\ (stalls (type (current p)) = true -> panic_mode p = false ->
      d = None /\ same_cursor q' p /\ panic_mode q' = false)
  /\ (type (previous p) = TOKEN_NEWLINE ->
      starts_declaration (type (current p)) = false ->
      d = None /\ same_cursor q' p /\ panic_mode q' = false
      /\ forall fuel decls, parser_parse_loop fuel decls p = None).
Proof.
  intros Hd Hs He. split; [|split].
  - intros Hst Hn2.
    destruct (parser_parse_declaration_consumes n p d q Hd)
      as [[Hlt _]|(Hc & _ & Hset)].
    + destruct (panic_mode q).
      * apply parser_synchronize_remaining in Hs. lia.
      * injection Hs as <-. exact Hlt.
    + destruct (declaration_without_start n p d q Hset Hd) as [-> ->].
      unfold found_nothing in *.
      assert (Hce : closes_or_ends (type (current p)) = false).
      { destruct (type (current p)); try reflexivity;
          first [discriminate Hst|congruence]. }
      rewrite Hce in *.
      unfold parser_error_at_current in Hs.
      rewrite (proj2 (parser_error_at_flags p (current p) "Expected expression"))
        in Hs.
      unfold parser_synchronize in Hs.
      destruct n as [|n]; [discriminate|]. cbn [parser_synchronize_loop] in Hs.
      change (current (set_panic_mode ?x false)) with (current x) in Hs.
      change (previous (set_panic_mode ?x false)) with (previous x) in Hs.
      destruct (parser_error_at_cursor p (current p) "Expected expression")
        as (E1 & E2 & E3).
      rewrite E2, E3 in Hs.
      rewrite (proj2 (token_type_eqb_neq _ _) He) in Hs.
      rewrite (proj2 (token_type_eqb_neq _ _) Hn2) in Hs.
      cbn [negb] in Hs.
      set (p1 := set_panic_mode (parser_error_at p (current p) "Expected expression")
                                false) in *.
      assert (Hadv : parser_synchronize_loop n (parser_advance p1) = Some q').
      { destruct (type (current p)) eqn:Et; try exact Hs;
          first [discriminate Hst|discriminate Hset]. }
      apply parser_synchronize_loop_steps, parser_steps_remaining in Hadv.
      assert (Hp1 : type (current p1) <> TOKEN_EOF)
        by (unfold p1; cbn [set_panic_mode current]; rewrite E2; exact He).
      pose proof (parser_advance_remaining_lt p1 Hp1) as Hlt.
      assert (Hr : remaining p1 = remaining p).
      { unfold p1. rewrite remaining_set_panic_mode.
        apply remaining_parser_error_at. }
      lia.
  - intros Hst Hpm.
    assert (Hset : starts_declaration (type (current p)) = false)
      by (destruct (type (current p)); try discriminate Hst; reflexivity).
    destruct (declaration_without_start n p d q Hset Hd) as [-> ->].
    split; [reflexivity|].
    unfold found_nothing in *.
    destruct (closes_or_ends (type (current p))) eqn:Hce.
    + rewrite Hpm in Hs. injection Hs as <-. split; [apply same_cursor_refl|exact Hpm].
    + unfold parser_error_at_current in Hs.
      rewrite (proj2 (parser_error_at_flags p (current p) "Expected expression"))
        in Hs.
      destruct n as [|n]; [discriminate|].
      rewrite synchronize_at_unparsed_construct in Hs.
      * injection Hs as <-. split; [|reflexivity].
        apply (parser_error_at_cursor p (current p) "Expected expression").
      * rewrite type_current_parser_error_at.
        destruct (type (current p)); try discriminate Hst; try discriminate Hce;
          reflexivity.
  - intros Hp Hset.
    destruct (turn_after_newline n p d q q' Hp Hset Hd Hs) as (A1 & A2 & A3).
    split; [exact A1|]. split; [exact A2|]. split; [exact A3|].
    intros fuel decls.
    apply parser_parse_loop_never_returns_after_newline; assumption.
Qed.

(** Two turns on the stray closing brace of [} x].  After [parser_init]
    in zeroed memory the declaration reports the brace and
    resynchronisation steps over it; when the memory held a newline token
    the turn ends where it began. *)
Lemma top_level_turn_witness :
  match parser_parse_declaration 20 (parser_on "} x") with
  | Some (_, q) =>
      match (if panic_mode q then parser_synchronize 20 q else Some q) with
      | Some q' => (remaining q' < remaining (parser_on "} x"))%nat
      | None => False
      end
  | None => False
  end
  /\ match parser_parse_declaration 20
             (parser_after (make_token TOKEN_NEWLINE "" 0 0) "} x") with
     | Some (d, q) =>
         match (if panic_mode q then parser_synchronize 20 q else Some q) with
         | Some q' =>
             d = None
             /\ same_cursor q' (parser_after (make_token TOKEN_NEWLINE "" 0 0) "} x")
         | None => False
         end
     | None => False
     end.
Proof.
  split.
  - destruct (parser_parse_declaration 20 (parser_on "} x")) as [[d q]|] eqn:E;
      [|vm_compute in E; discriminate E].
    destruct (if panic_mode q then parser_synchronize 20 q else Some q)
      as [q'|] eqn:E2.
    + refine (proj1 (top_level_turn_progress 20 (parser_on "} x") d q q' E E2 _)
                _ _).
      * vm_compute. discriminate.
      * reflexivity.
      * vm_compute. discriminate.
    + vm_compute in E. injection E as _ <-. vm_compute in E2. discriminate E2.
  - set (p := parser_after (make_token TOKEN_NEWLINE "" 0 0) "} x").
    destruct (parser_parse_declaration 20 p) as [[d q]|] eqn:E;
      [|vm_compute in E; discriminate E].
    destruct (if panic_mode q then parser_synchronize 20 q else Some q)
      as [q'|] eqn:E2.
    + assert (He : type (current p) <> TOKEN_EOF) by (vm_compute; discriminate).
      destruct (proj2 (proj2 (top_level_turn_progress 20 p d q q' E E2 He)))
        as (A1 & A2 & _); auto.
    + vm_compute in E. injection E as _ <-. vm_compute in E2. discriminate E2.
Defined.

(* ================================================================= *)
(** ** Expressions and resynchronisation return *)

(** X16.  The depth of the recursion of the expression parser is linear
    in the number of tokens left.  The fuel of the model is the depth to
    which calls may be nested: with twelve units for every token left and
    ten more [parser_parse_expression] returns from every state, having
    read the text forwards.  The source has no limit on the depth, so that
    it returns on a stack that holds so many nested calls of the parsing
    functions, and ends in stack exhaustion on a smaller one, as on
    thousands of opening parentheses. *)
Theorem expression_parsing_returns_within_linear_depth p fuel :
  (10 + 12 * remaining p <= fuel)%nat ->
  exists r p',
    parser_parse_expression fuel p = Some (r, p')
    /\ reads_forward p p'
    /\ (remaining p' <= remaining p)%nat.
Proof.
  intros Hf. destruct (parser_parse_expression_returns fuel p Hf) as (r & p' & E & Hr).
  exists r, p'. split; [exact E|]. split; [|exact Hr].
  apply parser_parse_expression_steps, parser_steps_forward in E. apply E.
Qed.

Lemma expression_parsing_returns_witness :
  exists r p',
    parser_parse_expression 200 (parser_on "f(1, [2, 3)") = Some (r, p')
    /\ reads_forward (parser_on "f(1, [2, 3)") p'
    /\ (remaining p' <= remaining (parser_on "f(1, [2, 3)"))%nat.
Proof.
  apply (expression_parsing_returns_within_linear_depth
           (parser_on "f(1, [2, 3)") 200).
  vm_compute. lia.
Defined.

Lemma parser_synchronize_loop_first_stop n :
  forall p, (remaining p < n)%nat ->
    exists k,
      parser_synchronize_loop n p = Some (Nat.iter k parser_advance p)
      /\ resynchronised (Nat.iter k parser_advance p) = true
      /\ (forall j, (j < k)%nat ->
                    resynchronised (Nat.iter j parser_advance p) = false).
Proof.
  induction n as [|n IH]; intros p Hn; [lia|].
  destruct (resynchronised p) eqn:Er.
  - exists 0%nat. cbn [Nat.iter nat_rect]. split; [|split].
    + apply parser_synchronize_loop_stop, Er.
    + exact Er.
    + intros j Hj. lia.
  - assert (He : type (current p) <> TOKEN_EOF).
    { intros E. unfold resynchronised in Er. rewrite E in Er. discriminate Er. }
    pose proof (parser_advance_remaining_lt p He) as Hlt.
    destruct (IH (parser_advance p)) as (k & E & Hk & Hj); [lia|].
    exists (S k). rewrite Nat.iter_succ_r. split; [|split].
    + rewrite parser_synchronize_loop_skip by exact Er. exact E.
    + exact Hk.
    + intros [|j] Hlj; [exact Er|].
      rewrite Nat.iter_succ_r. apply Hj. lia.
Qed.

Lemma type_current_parser_advance_no_newline p :
  type (current (parser_advance p)) <> TOKEN_NEWLINE.
Proof. unfold parser_advance. apply parser_advance_loop_never_newline. Qed.

(** After two tokens have been fetched, neither token of the parser is a
    newline token: the lexer makes none. *)
Lemma previous_after_two_steps k p :
  type (previous (Nat.iter (S (S k)) parser_advance p)) <> TOKEN_NEWLINE.
Proof.
  cbn [Nat.iter nat_rect]. rewrite previous_parser_advance.
  apply type_current_parser_advance_no_newline.
Qed.

(** X20.  Resynchronisation returns, with a unit of fuel for every token
    left and one more.  It turns panic mode off and steps over tokens one
    at a time until the first state in which the current token is the end
    of the input or one of [func], [if], [while], [for], [loop],
    [return], [import], [class] -- or in which the previous token is a
    newline token.  The lexer makes no newline tokens, so that the last
    can only stop it before it has stepped over a token, on a newline
    token that stood in [previous] when it was called (after
    [parser_init] that field is what the caller's memory held), or after
    the first, when [current] was one.  It reads the text forwards, and
    leaves panic mode off unless it steps over a lexical error, which it
    reports. *)
Theorem parser_synchronize_stops_at_the_first_boundary n p :
  (remaining p < n)%nat ->
  exists k p',
    p' = Nat.iter k parser_advance (set_panic_mode p false)
    /\ parser_synchronize n p = Some p'
    /\ (forall j, (j < k)%nat ->
          resynchronised (Nat.iter j parser_advance (set_panic_mode p false))
          = false)
    /\ (type (current p') = TOKEN_EOF
        \/ starts_construct (type (current p')) = true
        \/ (k = 0%nat /\ type (previous p) = TOKEN_NEWLINE)
        \/ (k = 1%nat /\ type (current p) = TOKEN_NEWLINE))
    /\ reads_forward p p'
    /\ ((panic_mode p' = false /\ had_error p' = had_error p
         /\ stderr p' = stderr p)
        \/ (panic_mode p' = true /\ had_error p' = true
            /\ exists tok msg, stderr p' = (stderr p ++ [(tok, msg)])%list)).
Proof.
  intros Hn. unfold parser_synchronize.
  destruct (parser_synchronize_loop_first_stop n (set_panic_mode p false) Hn)
    as (k & E & Hk & Hj).
  exists k, (Nat.iter k parser_advance (set_panic_mode p false)).
  split; [reflexivity|]. split; [exact E|]. split; [exact Hj|]. split.
  - unfold resynchronised in Hk.
    destruct (type (current _) ==t TOKEN_EOF) eqn:E1;
      [left; apply token_type_eqb_eq, E1|].
    destruct (starts_construct _) eqn:E3; [right; left; reflexivity|].
    rewrite orb_false_r in Hk. cbn [orb] in Hk. apply token_type_eqb_eq in Hk.
    right. right. destruct k as [|[|k]].
    + left. split; [reflexivity|exact Hk].
    + right. split; [reflexivity|].
      cbn [Nat.iter nat_rect] in Hk. rewrite previous_parser_advance in Hk.
      exact Hk.
    + exfalso. exact (previous_after_two_steps k _ Hk).
  - apply parser_synchronize_loop_steps in E.
    split; [apply (parser_steps_forward _ _ E)|].
    destruct (parser_steps_report _ _ E)
      as [(A1 & A2 & A3)|(A1 & A2 & A3 & tok & msg & A4)]; [left|right]; auto.
    repeat split; auto. exists tok, msg. exact A4.
Qed.

(** After the errors of [, , 1 if x { }] resynchronisation steps over
    three tokens and stops on the [if]. *)
Lemma parser_synchronize_witness :
  exists p',
    parser_synchronize 100 (parser_on ", , 1 if x { }") = Some p'
    /\ p' = Nat.iter 3 parser_advance
              (set_panic_mode (parser_on ", , 1 if x { }") false)
    /\ type (current p') = TOKEN_IF.
Proof.
  destruct (parser_synchronize_stops_at_the_first_boundary
              100 (parser_on ", , 1 if x { }"))
    as (k & p' & Hp & E & _).
  - vm_compute. lia.
  - exists p'. split; [exact E|].
    vm_compute in E. injection E as <-. split; reflexivity.
Defined.

(* ================================================================= *)
(** ** Parsing does not read the error flags

    [had_error] and [panic_mode] are written by [parser_error_at] and read
    by [parser_parse] alone; the parsing functions in between decide by
    the tokens only.  The two runs below differ in nothing else. *)

Lemma same_cursor_sym p q : same_cursor p q -> same_cursor q p.
Proof. unfold same_cursor. intuition congruence. Qed.

Lemma same_cursor_parser_error_at p q tok msg :
  same_cursor p q ->
  same_cursor (parser_error_at p tok msg) (parser_error_at q tok msg).
Proof.
  intros H.
  eapply same_cursor_trans; [apply parser_error_at_cursor|].
  eapply same_cursor_trans; [exact H|].
  apply same_cursor_sym, parser_error_at_cursor.
Qed.

Lemma same_cursor_parser_advance_loop fuel :
  forall p q,
    lexer p = lexer q -> previous p = previous q ->
    same_cursor (parser_advance_loop fuel p) (parser_advance_loop fuel q).
Proof.
  assert (Herr : forall p q lx tok,
             previous p = previous q ->
             same_cursor
               (parser_error_at_current (set_lexer_current p lx tok)
                  (start (current (set_lexer_current p lx tok))))
               (parser_error_at_current (set_lexer_current q lx tok)
                  (start (current (set_lexer_current q lx tok))))).
  { intros p q lx tok Hp. apply same_cursor_parser_error_at.
    unfold same_cursor. simpl. auto. }
  induction fuel as [|n IH]; intros p q Hl Hp; simpl; rewrite <- Hl;
    destruct (lexer_next_token (lexer p)) as [tok lx]; simpl;
    destruct (type tok ==t TOKEN_ERROR); simpl;
    try (unfold same_cursor; simpl; auto; fail).
  - apply (Herr p q lx tok Hp).
  - destruct (Herr p q lx tok Hp) as (H1 & _ & H3). apply IH; assumption.
Qed.

Lemma same_cursor_parser_advance p q :
  same_cursor p q -> same_cursor (parser_advance p) (parser_advance q).
Proof.
  intros (Hl & Hc & Hp). unfold parser_advance.
  replace (unread (lexer (set_previous q (current q))))
    with (unread (lexer (set_previous p (current p))))
    by (simpl; rewrite Hl; reflexivity).
  apply same_cursor_parser_advance_loop; simpl; assumption.
Qed.

Lemma same_cursor_parser_error_at_current_both p q msg :
  same_cursor p q ->
  same_cursor (parser_error_at_current p msg) (parser_error_at_current q msg).
Proof.
  intros H.
  eapply same_cursor_trans; [apply same_cursor_parser_error_at_current|].
  eapply same_cursor_trans; [exact H|].
  apply same_cursor_sym, same_cursor_parser_error_at_current.
Qed.

Lemma same_cursor_parser_error_both p q msg :
  same_cursor p q -> same_cursor (parser_error p msg) (parser_error q msg).
Proof.
  intros H.
  eapply same_cursor_trans; [apply same_cursor_parser_error|].
  eapply same_cursor_trans; [exact H|].
  apply same_cursor_sym, same_cursor_parser_error.
Qed.

Lemma parser_match_follows p q t :
  same_cursor p q ->
  (parser_match p t = (true, parser_advance p)
   /\ parser_match q t = (true, parser_advance q))
  \/ (parser_match p t = (false, p) /\ parser_match q t = (false, q)).
Proof.
  intros H. apply same_cursor_type in H.
  destruct (parser_match_cases p t) as [[Ht ->]|[Ht ->]];
    destruct (parser_match_cases q t) as [[Ht' ->]|[Ht' ->]]; auto; congruence.
Qed.

Lemma parser_match_any_follows p q ts :
  same_cursor p q ->
  (parser_match_any p ts = (true, parser_advance p)
   /\ parser_match_any q ts = (true, parser_advance q))
  \/ (parser_match_any p ts = (false, p) /\ parser_match_any q ts = (false, q)).
Proof.
  intros H. apply same_cursor_type in H.
  destruct (parser_match_any_cases p ts) as [[Ht ->]|[Ht ->]];
    destruct (parser_match_any_cases q ts) as [[Ht' ->]|[Ht' ->]]; auto;
    rewrite H in Ht; contradiction.
Qed.

Lemma parser_expect_follows p q t msg :
  same_cursor p q ->
  (parser_expect p t msg = (current p, parser_advance p)
   /\ parser_expect q t msg = (current p, parser_advance q))
  \/ (parser_expect p t msg = (current p, parser_error_at_current p msg)
      /\ parser_expect q t msg = (current p, parser_error_at_current q msg)).
Proof.
  intros H. pose proof (same_cursor_type _ _ H) as Ht0.
  destruct H as (_ & Hc & _).
  destruct (parser_expect_cases p t msg) as [[Ht ->]|[Ht ->]];
    destruct (parser_expect_cases q t msg) as [[Ht' ->]|[Ht' ->]];
    rewrite <- ?Hc; auto; congruence.
Qed.

(** The two runs are taken through the code side by side. *)
Ltac pair_up :=
  repeat match goal with
         | Hc : same_cursor ?a ?b |- context [parser_advance ?b] =>
             let a1 := fresh "p" in
             let b1 := fresh "q" in
             pose proof (same_cursor_parser_advance a b Hc);
             set (a1 := parser_advance a) in *;
             set (b1 := parser_advance b) in *;
             clearbody a1 b1
         | Hc : same_cursor ?a ?b |- context [parser_error_at_current ?b ?m] =>
             let a1 := fresh "p" in
             let b1 := fresh "q" in
             pose proof (same_cursor_parser_error_at_current_both a b m Hc);
             set (a1 := parser_error_at_current a m) in *;
             set (b1 := parser_error_at_current b m) in *;
             clearbody a1 b1
         | Hc : same_cursor ?a ?b |- context [parser_error ?b ?m] =>
             let a1 := fresh "p" in
             let b1 := fresh "q" in
             pose proof (same_cursor_parser_error_both a b m Hc);
             set (a1 := parser_error a m) in *;
             set (b1 := parser_error b m) in *;
             clearbody a1 b1
         end.

Ltac read_same :=
  repeat match goal with
         | Hc : same_cursor ?a ?b |- context [current ?b] =>
             rewrite <- (proj1 (proj2 Hc))
         | Hc : same_cursor ?a ?b |- context [previous ?b] =>
             rewrite <- (proj2 (proj2 Hc))
         end.

Ltac follow_call H s a s' :=
  match goal with
  | Hc : same_cursor a _ |- _ =>
      let Sim := fresh "Sim" in
      assert (Sim : follows s s')
        by (match goal with I : _ |- _ => apply I; exact Hc end);
      unfold follows in Sim;
      let E := fresh "Call" in
      destruct s as [[? ?]|] eqn:E; [|discriminate H];
      let E' := fresh "Call" in
      (destruct s' as [[? ?]|] eqn:E';
       [destruct Sim as [-> Sim]|contradiction])
  end.

Ltac partner a :=
  lazymatch goal with
  | Hc : same_cursor a ?b |- _ => b
  end.

Ltac follow_step H :=
  pair_up; unfold parser_check, parser_is_at_end in H |- *; read_same;
  lazymatch type of H with
  | ?X = Some _ =>
      let s := scrutinee X in
      lazymatch s with
      | Some _ => fail
      | None => fail
      | parser_match ?a ?t =>
          let b := partner a in
          let E1 := fresh "E" in
          let E2 := fresh "E" in
          match goal with
          | Hc : same_cursor a b |- _ =>
              destruct (parser_match_follows a b t Hc) as [[E1 E2]|[E1 E2]]
          end;
          rewrite E1 in H; rewrite E2; clear E1 E2
      | parser_match_any ?a ?ts =>
          let b := partner a in
          let E1 := fresh "E" in
          let E2 := fresh "E" in
          match goal with
          | Hc : same_cursor a b |- _ =>
              destruct (parser_match_any_follows a b ts Hc) as [[E1 E2]|[E1 E2]]
          end;
          rewrite E1 in H; rewrite E2; clear E1 E2
      | parser_expect ?a ?t ?m =>
          let b := partner a in
          let E1 := fresh "E" in
          let E2 := fresh "E" in
          match goal with
          | Hc : same_cursor a b |- _ =>
              destruct (parser_expect_follows a b t m Hc) as [[E1 E2]|[E1 E2]]
          end;
          rewrite E1 in H; rewrite E2; clear E1 E2
      | _ =>
          first
            [ is_var s; destruct s
            | let T := type of s in
              let T := eval hnf in T in
              lazymatch T with
              | option (_ * Parser)%type =>
                  lazymatch s with
                  | ?f ?n ?x ?y =>
                      let Tx := type of x in
                      lazymatch Tx with
                      | Parser => let b := partner x in follow_call H s x (f n b y)
                      | _ => let b := partner y in follow_call H s y (f n x b)
                      end
                  | ?f ?n ?x =>
                      let b := partner x in follow_call H s x (f n b)
                  end
              | _ => destruct s
              end ]
      end
  end;
  cbn beta iota zeta delta [fst snd negb andb orb ast_list_create] in H |- *.

Ltac follow_goal :=
  intros;
  lazymatch goal with
  | |- follows ?run _ =>
      unfold follows;
      let H := fresh "H" in
      destruct run as [[? ?]|] eqn:H; [|exact I];
      simpl in H; simpl;
      repeat follow_step H;
      first [ discriminate H | injection H as <- <- ];
      pair_up; read_same; (split; [reflexivity|assumption])
  end.

Lemma expression_parsers_follow_all n : expression_parsers_follow n.
Proof.
  induction n as [|n IH].
  - unfold expression_parsers_follow. repeat split; intros; exact I.
  - unfold expression_parsers_follow in *.
    destruct IH as (I1 & I2 & I3 & I4 & I5 & I6 & I7 & I8 & I9 & I10 & I11
                    & I12 & I13 & I14 & I15 & I16 & I17 & I18).
    repeat match goal with |- _ /\ _ => split end; follow_goal.
Qed.

Lemma parser_parse_expression_follows n p q :
  same_cursor p q ->
  follows (parser_parse_expression n p) (parser_parse_expression n q).
Proof. apply expression_parsers_follow_all. Qed.

Lemma parse_postfix_continue_follows n e p q :
  same_cursor p q ->
  follows (parse_postfix_continue n p e) (parse_postfix_continue n q e).
Proof. apply (expression_parsers_follow_all n). Qed.

Lemma parse_return_statement_follows n p q :
  same_cursor p q ->
  follows (parse_return_statement n p) (parse_return_statement n q).
Proof.
  destruct n; [intros; exact I|].
  pose proof parser_parse_expression_follows. follow_goal.
Qed.

Lemma statement_parsers_follow_all n : statement_parsers_follow n.
Proof.
  induction n as [|n IH].
  - unfold statement_parsers_follow. repeat split; intros; exact I.
  - unfold statement_parsers_follow in *.
    destruct IH as (I1 & I2 & I3 & I4 & I5 & I6 & I7).
    pose proof parser_parse_expression_follows.
    pose proof parse_postfix_continue_follows.
    pose proof parse_return_statement_follows.
    repeat match goal with |- _ /\ _ => split end; follow_goal.
Qed.

Lemma parser_parse_statement_follows n p q :
  same_cursor p q ->
  follows (parser_parse_statement n p) (parser_parse_statement n q).
Proof. apply statement_parsers_follow_all. Qed.

Lemma parse_block_statement_follows n p q :
  same_cursor p q ->
  follows (parse_block_statement n p) (parse_block_statement n q).
Proof. apply statement_parsers_follow_all. Qed.

Lemma parse_parameter_list_follows n :
  forall params p q,
    same_cursor p q ->
    follows (parse_parameter_list n params p) (parse_parameter_list n params q).
Proof.
  induction n as [|n IH]; [intros; exact I|]. follow_goal.
Qed.

Lemma parse_function_declaration_follows n p q :
  same_cursor p q ->
  follows (parse_function_declaration n p) (parse_function_declaration n q).
Proof.
  destruct n; [intros; exact I|].
  pose proof parse_parameter_list_follows.
  pose proof parse_block_statement_follows.
  follow_goal.
Qed.

Lemma parser_parse_declaration_follows n p q :
  same_cursor p q ->
  follows (parser_parse_declaration n p) (parser_parse_declaration n q).
Proof.
  destruct n; [intros; exact I|].
  pose proof parse_function_declaration_follows.
  pose proof parser_parse_statement_follows.
  follow_goal.
Qed.

(** X26.  Parsing a declaration never reads the error flags.  Run from two
    states that agree on the lexer and on the current and the previous
    token -- whatever [had_error], [panic_mode] and the diagnostics
    written so far are in each -- [parser_parse_declaration] returns in
    the one whenever it returns in the other, with the same tree (or the
    same NULL) and again in states that agree on the lexer and the two
    tokens.  So a declaration parsed after an error, even in panic mode,
    gets the tree it would get from a parser without errors. *)
Theorem declaration_parse_ignores_the_error_flags n p q r p' :
  same_cursor p q ->
  parser_parse_declaration n p = Some (r, p') ->
  exists q', parser_parse_declaration n q = Some (r, q') /\ same_cursor p' q'.
Proof.
  intros Hc H.
  pose proof (parser_parse_declaration_follows n p q Hc) as Sim.
  unfold follows in Sim. rewrite H in Sim.
  destruct (parser_parse_declaration n q) as [[r2 q']|]; [|contradiction].
  destruct Sim as [-> Sim]. exists q'. auto.
Qed.

(** The declaration [x = f(1) + 2], parsed by a parser that is in panic
    mode after an error and by one that is not. *)
Lemma declaration_parse_flags_witness :
  match parser_parse_declaration 40 (parser_on "x = f(1) + 2") with
  | Some (r, p') =>
      exists q',
        parser_parse_declaration 40
          (parser_error_at_current (parser_on "x = f(1) + 2") "an earlier error")
          = Some (r, q')
        /\ same_cursor p' q'
  | None => False
  end.
Proof.
  destruct (parser_parse_declaration 40 (parser_on "x = f(1) + 2"))
    as [[r p']|] eqn:E; [|vm_compute in E; discriminate E].
  apply (declaration_parse_ignores_the_error_flags 40 (parser_on "x = f(1) + 2")).
  - repeat split; reflexivity.
  - exact E.
Defined.

(* ================================================================= *)
(** ** What a block parse returns *)

(** X27.  What [parse_block_statement] returns, when it returns.  The
    result is never NULL: it is a block node at the position of the token
    the block was to begin at (the [{], or whatever stood in its place),
    its statement list is present and holds no NULL entry.  The statement
    loop stopped on a [}], which the block then consumed, or at the end of
    the input, where the missing [}] is reported; in a parser that sets
    [had_error] with every report the flag is then set. *)
Theorem block_statement_yields_a_block n p r p' :
  consistent p ->
  parse_block_statement n p = Some (r, p') ->
  exists stmts q,
    r = Some (AST_BLOCK_STMT (line (current p)) (column (current p)) (Some stmts))
    /\ Forall (fun s => s <> None) stmts
    /\ ((type (current q) = TOKEN_RIGHT_BRACE /\ p' = parser_advance q)
        \/ (type (current q) = TOKEN_EOF
            /\ p' = parser_error_at_current q "Expected '}' after block"
            /\ had_error p' = true)).
Proof.
  intros Hc H. destruct n as [|n]; [discriminate|].
  cbn [parse_block_statement] in H.
  pose proof (continues_parser_expect p TOKEN_LEFT_BRACE
                "Expected '{' to begin block") as C1.
  assert (Hb : fst (parser_expect p TOKEN_LEFT_BRACE "Expected '{' to begin block")
               = current p).
  { destruct (parser_expect_cases p TOKEN_LEFT_BRACE "Expected '{' to begin block")
      as [[_ ->]|[_ ->]]; reflexivity. }
  destruct (parser_expect p TOKEN_LEFT_BRACE _) as [brace q0].
  cbn [fst snd] in C1, Hb. subst brace.
  destruct (parse_block_loop n ast_list_create q0) as [[stmts q]|] eqn:E;
    [|discriminate].
  pose proof (proj1 (proj2 (statement_parsers_continue_all n)) _ _ _ _ E) as C2.
  apply parse_block_loop_result in E. destruct E as (gathered & -> & Hg & Hq).
  destruct (parser_expect_cases q TOKEN_RIGHT_BRACE "Expected '}' after block")
    as [[Ht E]|[Ht E]]; rewrite E in H; injection H as <- <-;
    exists gathered, q;
    (split; [reflexivity|]); (split; [assumption|]).
  - left. auto.
  - right. destruct Hq as [Hq|Hq]; [contradiction|].
    repeat split; auto.
    apply had_error_parser_error_at_current.
    eapply continues_consistent; [|exact Hc].
    eapply continues_trans; eassumption.
Qed.

(** The block [{ x = 1 y] with its closing brace missing: a block node at
    the position of its [{], none of whose statements is NULL. *)
Lemma block_statement_witness :
  match parse_block_statement 40 (parser_on "{ x = 1 y") with
  | Some (r, p') =>
      exists stmts,
        r = Some (AST_BLOCK_STMT 1 2 (Some stmts))
        /\ Forall (fun s => s <> None) stmts
  | None => False
  end.
Proof.
  destruct (parse_block_statement 40 (parser_on "{ x = 1 y")) as [[r p']|] eqn:E;
    [|vm_compute in E; discriminate E].
  destruct (block_statement_yields_a_block 40 (parser_on "{ x = 1 y") r p')
    as (stmts & q & -> & Hf & _).
  - vm_compute. discriminate.
  - exact E.
  - exists stmts. split; [reflexivity|exact Hf].
Defined.

(* ================================================================= *)
(** ** The array behind an [AstList] *)

Section ArrayOfAstList.
Import AstListArray.

Lemma store_in_bounds {A : Type} (slots : list (option A)) :
  forall i item,
    (i < List.length slots)%nat ->
    exists slots',
      store slots i item = Some slots'
      /\ List.length slots' = List.length slots
      /\ firstn (S i) slots' = (firstn i slots ++ [Some item])%list.
Proof.
  induction slots as [|slot rest IH]; intros i item Hi; [simpl in Hi; lia|].
  destruct i as [|j]; cbn [store].
  - eexists. split; [reflexivity|]. split; reflexivity.
  - destruct (IH j item) as (rest' & -> & Hl & Hf); [simpl in Hi; lia|].
    eexists. split; [reflexivity|]. split; [simpl; congruence|].
    change (firstn (S (S j)) (slot :: rest')) with (slot :: firstn (S j) rest').
    rewrite Hf. reflexivity.
Qed.

Lemma realloc_length {A : Type} (slots : list (option A)) n :
  (List.length slots <= n)%nat -> List.length (realloc slots n) = n.
Proof.
  intros Hn. unfold realloc.
  rewrite length_firstn, length_app, repeat_length. lia.
Qed.

Lemma realloc_firstn {A : Type} (slots : list (option A)) n k :
  (k <= List.length slots)%nat -> (List.length slots <= n)%nat ->
  firstn k (realloc slots n) = firstn k slots.
Proof.
  intros Hk Hn. unfold realloc.
  rewrite firstn_firstn, firstn_app.
  replace (Nat.min k n) with k by lia.
  replace (k - List.length slots)%nat with 0%nat by lia.
  cbn [firstn]. apply app_nil_r.
Qed.

Lemma well_formed_create {A : Type} :
  well_formed (@ast_list_create A) /\ contents (@ast_list_create A) = [].
Proof. unfold well_formed, contents. simpl. repeat split; auto. Qed.

(** X14.  [ast_list_append] never writes outside the array: appended to
    a well-formed list, the item goes into a slot of the allocation (which
    is enlarged first when it is full: to 8 slots from none, to twice
    as many otherwise); the list is well-formed again and stands for the
    items it stood for followed by the new one, as the lists of the
    embedding have it. *)
Theorem ast_list_append_stays_in_bounds {A : Type} (lst : AstList A) (item : A) :
  well_formed lst ->
  exists lst',
    ast_list_append lst item = Some lst'
    /\ well_formed lst'
    /\ contents lst' = (contents lst ++ [Some item])%list
    /\ count lst' = S (count lst)
    /\ capacity lst' =
         (if Nat.ltb (count lst) (capacity lst) then capacity lst
          else if Nat.eqb (capacity lst) 0 then 8 else 2 * capacity lst)%nat.
Proof.
  intros (Hl & Hc & Hw). unfold ast_list_append.
  set (grown :=
         if Nat.leb (capacity lst) (count lst)
         then mkAstList
                (realloc (items lst)
                   (if Nat.eqb (capacity lst) 0 then 8%nat
                    else (capacity lst * 2)%nat))
                (count lst)
                (if Nat.eqb (capacity lst) 0 then 8%nat else (capacity lst * 2)%nat)
         else lst).
  assert (Hg : List.length (items grown) = capacity grown
               /\ (count grown < capacity grown)%nat
               /\ count grown = count lst
               /\ firstn (count lst) (items grown) = firstn (count lst) (items lst)
               /\ capacity grown =
                    (if Nat.ltb (count lst) (capacity lst) then capacity lst
                     else if Nat.eqb (capacity lst) 0 then 8
                          else 2 * capacity lst)%nat).
  { unfold grown. destruct (Nat.leb (capacity lst) (count lst)) eqn:Efull.
    - apply Nat.leb_le in Efull.
      assert (Hlt : Nat.ltb (count lst) (capacity lst) = false)
        by (apply Nat.ltb_ge; exact Efull).
      rewrite Hlt. cbn [items count capacity].
      destruct (Nat.eqb (capacity lst) 0) eqn:E0;
        [apply Nat.eqb_eq in E0|apply Nat.eqb_neq in E0];
        (split; [apply realloc_length; lia|]);
        (split; [lia|]); (split; [reflexivity|]);
        (split; [apply realloc_firstn; lia|lia]).
    - apply Nat.leb_gt in Efull.
      assert (Hlt : Nat.ltb (count lst) (capacity lst) = true)
        by (apply Nat.ltb_lt; exact Efull).
      rewrite Hlt. auto. }
  clearbody grown. destruct Hg as (G1 & G2 & G3 & G4 & G5).
  destruct (store_in_bounds (items grown) (count grown) item) as (slots & -> & S1 & S2);
    [lia|].
  eexists. split; [reflexivity|].
  unfold well_formed, contents in *. cbn [items count capacity].
  rewrite S2, G3, G4.
  repeat split; auto; try lia.
  apply Forall_app. split; [exact Hw|]. constructor; [discriminate|constructor].
Qed.


(** The first append: the array gets its first eight slots. *)
Lemma ast_list_append_witness :
  exists lst',
    ast_list_append (@ast_list_create Z) 7 = Some lst'
    /\ contents lst' = [Some 7] /\ capacity lst' = 8%nat.
Proof.
  destruct (ast_list_append_stays_in_bounds (@ast_list_create Z) 7
              (proj1 well_formed_create))
    as (lst' & E & _ & Hc & _ & Hcap).
  exists lst'. split; [exact E|]. split; [exact Hc|exact Hcap].
Defined.

End ArrayOfAstList.
